(** * Synchronization utilities of mpi4py ([src/mpi4py/util/sync.py])

    A shallow embedding of the five primitives of [mpi4py.util.sync]
    ([Sequential], [Counter], [Mutex], [RMutex], [Condition]) and of
    the backoff generator of their spin loops, together with the
    properties their specification states about them and with further
    properties read off the code.

    The embedding has three parts.

    - The RMA substrate: a window is a finite map from addresses
      [(rank, displacement)] to integers; the atomic operations of the
      runtime ([Accumulate], [Fetch_and_op], [Compare_and_swap]) are
      functions on it.  Every operation takes effect when it is issued,
      in program order ([Flush], [Sync], [Lock_all] and [Unlock_all]
      therefore leave the memory as it is).
    - The methods, one definition per method of the source, in a state
      and exception monad.  A method runs from its call to its return
      with no other process taking a step in between; a spin loop is
      given a number of polls and reports [Spin] when they are used up.
    - Two interleaving transition systems, one for the token passing of
      [Sequential] and one for the queue lock of [Mutex] and [RMutex],
      where every process advances by one RMA operation at a time. *)

From Stdlib Require Import ZArith Lia String List Bool Floats.
From stdpp Require Import base tactics option list functions gmap strings.

#[local] Open Scope string_scope.
#[local] Open Scope list_scope.
#[local] Open Scope Z_scope.

(** ** Python values, exceptions and outcomes *)

(** The exceptions the module raises itself are all [RuntimeError]s told
    apart by their message; [array.array] raises [OverflowError] for an
    item outside the range of its type code; [MPIException] stands for
    the runtime refusing an RMA call whose target is not a slot of the
    window. *)
Inductive exn :=
| RuntimeError (msg : string)
| OverflowError
| MPIException.

(** The error kinds of the specification, read off the messages. *)
Definition AlreadyFreed (e : exn) : bool :=
  match e with
  | RuntimeError msg =>
      bool_decide (msg = "counter already freed"
                   ∨ msg = "mutex already freed"
                   ∨ msg = "condition already freed")
  | _ => false
  end.

Definition AlreadyHeld (e : exn) : bool :=
  match e with
  | RuntimeError msg => bool_decide (msg = "cannot acquire already held mutex")
  | _ => false
  end.

Definition NotHeld (e : exn) : bool :=
  match e with
  | RuntimeError msg =>
      bool_decide (msg = "cannot release unheld mutex"
                   ∨ msg = "cannot wait on unheld mutex"
                   ∨ msg = "cannot notify on unheld mutex")
  | _ => false
  end.

(** The Python values that calls return and that a predicate handed to
    [wait_for] may return, with their truth value. *)
Inductive value :=
| VNone
| VBool (b : bool)
| VInt (z : Z)
| VStr (s : string).

Definition truthy (v : value) : bool :=
  match v with
  | VNone => false
  | VBool b => b
  | VInt z => negb (bool_decide (z = 0))
  | VStr s => negb (bool_decide (s = ""))
  end.

(** What a call does: it returns, it raises, or it is still polling when
    the polls allotted to its spin loop are used up. *)
Inductive outcome (A : Type) :=
| Ret (a : A)
| Raise (e : exn)
| Spin.
Arguments Ret {A} a.
Arguments Raise {A} e.
Arguments Spin {A}.

(** A call raises the error kind [AlreadyFreed]. *)
Definition raises_AlreadyFreed {A} (o : outcome A) : Prop :=
  ∃ e, o = Raise e ∧ AlreadyFreed e = true.

(** State and exception monad: the state survives an exception, as the
    fields of a Python object and the window memory do. *)
Definition M (S A : Type) : Type := S → outcome A * S.

Definition ret {S A} (a : A) : M S A := λ s, (Ret a, s).
Definition raise {S A} (e : exn) : M S A := λ s, (Raise e, s).
Definition bind {S A B} (m : M S A) (k : A → M S B) : M S B :=
  λ s, match m s with
       | (Ret a, s') => k a s'
       | (Raise e, s') => (Raise e, s')
       | (Spin, s') => (Spin, s')
       end.
Definition gets {S A} (f : S → A) : M S A := λ s, (Ret (f s), s).
Definition modify {S} (f : S → S) : M S unit := λ s, (Ret tt, f s).

(** Run a computation on a component of the state. *)
Definition zoom {S T A} (proj : S → T) (inj : T → S → S) (m : M T A) : M S A :=
  λ s, let '(o, t) := m (proj s) in (o, inj t s).

(** The result of a call as a Python value. *)
Definition outcome_map {A B} (f : A → B) (o : outcome A) : outcome B :=
  match o with
  | Ret a => Ret (f a)
  | Raise e => Raise e
  | Spin => Spin
  end.

Definition map_ret {S A B} (f : A → B) (m : M S A) : M S B :=
  λ s, let '(o, s') := m s in (outcome_map f o, s').

Notation "'let*' x ':=' m 'in' k" := (bind m (λ x, k))
  (at level 10, x pattern, m at level 100, k at level 200).
Notation "m ';;' k" := (bind m (λ _, k))
  (at level 100, k at level 200, right associativity).

(** ** The RMA substrate *)

(** Window memory, addressed by [(rank, displacement)]. *)
Abbreviation memory := (gmap (Z * Z) Z).

(** A window handle as one process sees it.  [bool(window)] is false
    exactly for [MPI.WIN_NULL]. *)
Inductive Win :=
| WIN_NULL
| WIN (group_rank group_size : Z).

Definition Win_bool (w : Win) : bool :=
  match w with WIN_NULL => false | WIN _ _ => true end.

(** Modelled from the spec: [MPI.PROC_NULL] is a constant of the runtime,
    which the source only imports; the specification asks for a sentinel
    "distinct from any valid rank".  Ranks are [0 .. size-1]; the value
    chosen here is the one of MPICH.  The proofs use [PROC_NULL_neg]
    only. *)
Definition PROC_NULL : Z := -1.

(** [Accumulate(origin, target_rank, target_disp, MPI.REPLACE)]. *)
Definition Accumulate_REPLACE (origin target_rank target_disp : Z) : M memory unit :=
  λ m, match m !! (target_rank, target_disp) with
       | Some _ => (Ret tt, <[(target_rank, target_disp) := origin]> m)
       | None => (Raise MPIException, m)
       end.

(** [Fetch_and_op(origin, result, target_rank, target_disp, MPI.REPLACE)];
    the value returned is what [result] holds afterwards. *)
Definition Fetch_and_op_REPLACE (origin target_rank target_disp : Z) : M memory Z :=
  λ m, match m !! (target_rank, target_disp) with
       | Some old => (Ret old, <[(target_rank, target_disp) := origin]> m)
       | None => (Raise MPIException, m)
       end.

(** [Fetch_and_op(origin, result, target_rank, target_disp, MPI.NO_OP)]. *)
Definition Fetch_and_op_NO_OP (target_rank target_disp : Z) : M memory Z :=
  λ m, match m !! (target_rank, target_disp) with
       | Some old => (Ret old, m)
       | None => (Raise MPIException, m)
       end.

(** [Compare_and_swap(origin, compare, result, target_rank, target_disp)]. *)
Definition Compare_and_swap (origin compare target_rank target_disp : Z) : M memory Z :=
  λ m, match m !! (target_rank, target_disp) with
       | Some old =>
           (Ret old,
            if bool_decide (old = compare)
            then <[(target_rank, target_disp) := origin]> m else m)
       | None => (Raise MPIException, m)
       end.

(** A direct read of the local segment, [memoryview(window)[index]]. *)
Definition memoryview (self_rank index : Z) : M memory Z :=
  λ m, match m !! (self_rank, index) with
       | Some v => (Ret v, m)
       | None => (Raise MPIException, m)
       end.

(** The memory of a freshly created window: process [rank] owns the
    slots [0 .. len (init rank) - 1] and has written [init rank] into
    them ([Win.Allocate], [Lock], [Accumulate(init, rank, REPLACE)],
    [Unlock], [Barrier] on every process). *)
Fixpoint store_segment (rank disp : Z) (seg : list Z) (m : memory) : memory :=
  match seg with
  | [] => m
  | v :: seg' => <[(rank, disp) := v]> (store_segment rank (disp + 1) seg' m)
  end.

Fixpoint allocate (size : nat) (init : Z → list Z) : memory :=
  match size with
  | O => ∅
  | S k => store_segment (Z.of_nat k) 0 (init (Z.of_nat k)) (allocate k init)
  end.

(** ** Integer type codes of the [array] module *)

Inductive typecode := tc_b | tc_B | tc_h | tc_H | tc_i | tc_I | tc_l | tc_L | tc_q | tc_Q.

Definition tc_signed (tc : typecode) : bool :=
  match tc with
  | tc_b | tc_h | tc_i | tc_l | tc_q => true
  | _ => false
  end.

(** Item width in bits (the sizes of an LP64 platform). *)
Definition tc_bits (tc : typecode) : Z :=
  match tc with
  | tc_b | tc_B => 8
  | tc_h | tc_H => 16
  | tc_i | tc_I => 32
  | tc_l | tc_L | tc_q | tc_Q => 64
  end.

Definition tc_min (tc : typecode) : Z :=
  if tc_signed tc then - 2 ^ (tc_bits tc - 1) else 0.

Definition tc_max (tc : typecode) : Z :=
  if tc_signed tc then 2 ^ (tc_bits tc - 1) - 1 else 2 ^ tc_bits tc - 1.

Definition tc_fits (tc : typecode) (v : Z) : bool :=
  bool_decide (tc_min tc ≤ v ≤ tc_max tc).

(** What a slot of type [tc] holds after the machine adds into it: the
    sum reduced modulo [2 ^ bits] into the range of the type. *)
Definition tc_wrap (tc : typecode) (v : Z) : Z :=
  (v - tc_min tc) mod 2 ^ tc_bits tc + tc_min tc.

(** [array.array(typechar, [v])]: a one-item buffer, or [OverflowError]. *)
Definition array1 {S} (tc : typecode) (v : Z) : M S Z :=
  if tc_fits tc v then ret v else raise OverflowError.

(** [Fetch_and_op(origin, result, target_rank, target_disp, MPI.SUM)] on
    a window of items of type [tc]. *)
Definition Fetch_and_op_SUM (tc : typecode) (origin target_rank target_disp : Z)
  : M memory Z :=
  λ m, match m !! (target_rank, target_disp) with
       | Some old => (Ret old, <[(target_rank, target_disp) := tc_wrap tc (old + origin)]> m)
       | None => (Raise MPIException, m)
       end.

(** ** Counter *)

Module Counter.

(** The fields [__init__] sets. *)
Record t := {
  _start : Z;
  _step : Z;
  _window : Win;
  _typechar : typecode;
  _location : Z * Z;
}.

(** The object process [rank] holds after [Counter(comm, start, step,
    typecode, root)] on a communicator of [size] processes. *)
Definition new (size rank start step : Z) (typecode : typecode) (root : Z) : t :=
  {| _start := start;
     _step := step;
     _window := WIN rank size;
     _typechar := typecode;
     _location := (root, 0) |}.

(** The window after every process has run [__init__]: one slot, on
    [root], holding [start].  [array(typechar, [start] * count)] raises
    on [root] when [start] does not fit. *)
Definition window_init (size : nat) (start : Z) (typecode : typecode) (root : Z)
  : outcome memory :=
  if tc_fits typecode start
  then Ret (allocate size (λ rank, if bool_decide (rank = root) then [start] else []))
  else Raise OverflowError.

(** [Counter.next(incr=None)]. *)
Definition next (incr : option Z) (self : t) : M memory Z :=
  if negb (Win_bool (_window self)) then
    raise (RuntimeError "counter already freed")
  else
    let typechar := _typechar self in
    let '(rank, disp) := _location self in
    let incr := match incr with Some i => i | None => _step self end in
    let* incr := array1 typechar incr in
    let* prev := Fetch_and_op_SUM typechar incr rank disp in
    ret prev.

(** [Counter.__next__]. *)
Definition __next__ (self : t) : M memory Z := next None self.

(** [Counter.free()]: the handle becomes [WIN_NULL]; [Win.free] on a
    null handle does nothing. *)
Definition free (self : t) : t :=
  {| _start := _start self;
     _step := _step self;
     _window := WIN_NULL;
     _typechar := _typechar self;
     _location := _location self |}.

(** The public operations, and a call of one of them on the object
    [self] with the window memory [m]. *)
Inductive op :=
| Next (incr : option Z)
| Iter_next
| Free.

Definition call (o : op) : M (t * memory) value :=
  λ '(self, m),
    match o with
    | Next incr => let '(out, m') := next incr self m in (outcome_map VInt out, (self, m'))
    | Iter_next => let '(out, m') := __next__ self m in (outcome_map VInt out, (self, m'))
    | Free => (Ret VNone, (free self, m))
    end.

(** A linearized run: the calls [next()] of the objects [callers], in
    the order in which the runtime orders their fetch-and-ops.  The
    result lists what each call did. *)
Fixpoint run (callers : list t) (m : memory) : list (outcome Z) * memory :=
  match callers with
  | [] => ([], m)
  | c :: rest =>
      let '(o, m') := next None c m in
      let '(os, m'') := run rest m' in
      (o :: os, m'')
  end.

(** [c] is the object of one of the processes that ran
    [Counter(comm, start, step, typecode, root)] together. *)
Definition object_of (size : nat) (start step : Z) (typecode : typecode) (root : Z)
    (c : t) : Prop :=
  ∃ rank, c = new (Z.of_nat size) rank start step typecode root.

(** The arithmetic progression [start, start + step, ...], [n] terms. *)
Definition progression (start step : Z) (n : nat) : list Z :=
  (λ i : nat, start + Z.of_nat i * step) <$> seq 0 n.

(** The increment of a call [next(incr)]:
    [incr if incr is not None else self._step]. *)
Definition increment (self : t) (incr : option Z) : Z :=
  match incr with Some i => i | None => _step self end.

(** A linearized run of calls [next(incr)], each with the object it is
    made on and its argument. *)
Fixpoint calls (cs : list (t * option Z)) (m : memory) : list (outcome Z) * memory :=
  match cs with
  | [] => ([], m)
  | (c, incr) :: rest =>
      let '(o, m') := next incr c m in
      let '(os, m'') := calls rest m' in
      (o :: os, m'')
  end.

End Counter.

(** ** Mutex *)

Module Mutex.

Record t := { _window : Win }.

(** What a method of a mutex acts on: the object and the memory of its
    window. *)
Record state := { self : t; mem : memory }.

Definition rma {A} (op : M memory A) : M state A :=
  zoom mem (λ m s, {| self := self s; mem := m |}) op.

Definition null_rank : Z := PROC_NULL.
Definition tail_rank : Z := 0.
Definition lock_id : Z := 0.
Definition next_id : Z := 1.
Definition tail_id : Z := 2.

(** The object of process [rank] after [Mutex(comm)]. *)
Definition new (size rank : Z) : t := {| _window := WIN rank size |}.

(** The window after every process has run [__init__]:
    [[False, null_rank, null_rank][:count]] with [count] 3 on the tail
    process and 2 elsewhere. *)
Definition window_init (size : nat) : memory :=
  allocate size (λ rank,
    let count := if bool_decide (rank = tail_rank) then 3%nat else 2%nat in
    take count [0; null_rank; null_rank]).

(** [Mutex._spinloop(index, sentinel)]: poll the local slot until it
    differs from [sentinel]; [polls] bounds the number of passes
    through the loop body. *)
Fixpoint _spinloop (polls : nat) (self_rank index sentinel : Z) : M memory Z :=
  let* v := memoryview self_rank index in
  if bool_decide (v = sentinel) then
    match polls with
    | O => λ m, (Spin, m)
    | S polls' => _spinloop polls' self_rank index sentinel
    end
  else ret v.

(** [Mutex.locked()]. *)
Definition locked : M state bool :=
  let* self := gets self in
  match _window self with
  | WIN_NULL => raise (RuntimeError "mutex already freed")
  | WIN self_rank _ =>
      let* v := rma (memoryview self_rank lock_id) in
      ret (negb (bool_decide (v = 0)))
  end.

(** [Mutex.acquire(blocking=True)]. *)
Definition acquire (polls : nat) (blocking : bool) : M state bool :=
  let* self := gets self in
  match _window self with
  | WIN_NULL => raise (RuntimeError "mutex already freed")
  | WIN self_rank _ =>
      let* held := locked in
      if held then raise (RuntimeError "cannot acquire already held mutex") else
      let rank := self_rank in
      let null := null_rank in
      rma (Accumulate_REPLACE null self_rank next_id);;
      let* prev :=
        rma (if blocking
             then Fetch_and_op_REPLACE rank tail_rank tail_id
             else Compare_and_swap rank null tail_rank tail_id) in
      let locked := bool_decide (prev = null_rank) in
      let* locked :=
        (if blocking && negb locked then
           (* Add ourselves to the waiting queue *)
           rma (Accumulate_REPLACE rank prev next_id);;
           (* Spin until we are given the lock *)
           let* v := rma (_spinloop polls self_rank lock_id 0) in
           ret (negb (bool_decide (v = 0)))
         else ret locked) in
      (* Set the local lock flag *)
      let flag := Z.b2z locked in
      rma (Accumulate_REPLACE flag self_rank lock_id);;
      ret locked
  end.

(** [Mutex.release()]. *)
Definition release (polls : nat) : M state unit :=
  let* self := gets self in
  match _window self with
  | WIN_NULL => raise (RuntimeError "mutex already freed")
  | WIN self_rank _ =>
      let* held := locked in
      if negb held then raise (RuntimeError "cannot release unheld mutex") else
      let rank := self_rank in
      let null := null_rank in
      let* prev := rma (Compare_and_swap null rank tail_rank tail_id) in
      (if negb (bool_decide (prev = rank)) then
         (* Spin until the next process notify us *)
         let* next_rank := rma (_spinloop polls self_rank next_id null_rank) in
         (* Pass the lock over to the next process *)
         rma (Accumulate_REPLACE 1 next_rank lock_id)
       else ret tt);;
      (* Set the local lock flag *)
      rma (Accumulate_REPLACE 0 self_rank lock_id)
  end.

(** [Mutex.free()]. *)
Definition free (polls : nat) : M state unit :=
  let* self := gets self in
  (if Win_bool (_window self) then
     let* held := locked in
     if held then release polls else ret tt
   else ret tt);;
  modify (λ s, {| self := {| _window := WIN_NULL |}; mem := mem s |}).

(** The public operations. *)
Inductive op :=
| Acquire (blocking : bool)
| Release
| Locked
| Free.

Definition call (polls : nat) (o : op) : M state value :=
  match o with
  | Acquire blocking => map_ret VBool (acquire polls blocking)
  | Release => map_ret (λ _, VNone) (release polls)
  | Locked => map_ret VBool locked
  | Free => map_ret (λ _, VNone) (free polls)
  end.

End Mutex.

(** ** RMutex *)

Module RMutex.

Record t := { _block : Mutex.t; _count : Z }.

Record state := { self : t; mem : memory }.

(** Calls on [self._block]. *)
Definition block {A} (op : M Mutex.state A) : M state A :=
  zoom (λ s, {| Mutex.self := _block (self s); Mutex.mem := mem s |})
       (λ ms s, {| self := {| _block := Mutex.self ms; _count := _count (self s) |};
                   mem := Mutex.mem ms |})
       op.

Definition set_count (count : Z) : M state unit :=
  modify (λ s, {| self := {| _block := _block (self s); _count := count |};
                  mem := mem s |}).

(** The object of process [rank] after [RMutex(comm)]. *)
Definition new (size rank : Z) : t :=
  {| _block := Mutex.new size rank; _count := 0 |}.

(** [RMutex.acquire(blocking=True)]. *)
Definition acquire (polls : nat) (blocking : bool) : M state bool :=
  let* held := block Mutex.locked in
  if held then
    let* count := gets (λ s, _count (self s)) in
    set_count (count + 1);;
    ret true
  else
    let* locked := block (Mutex.acquire polls blocking) in
    (if locked then set_count 1 else ret tt);;
    ret locked.

(** [RMutex.release()]. *)
Definition release (polls : nat) : M state unit :=
  let* held := block Mutex.locked in
  if negb held then raise (RuntimeError "cannot release unheld mutex") else
  let* count := gets (λ s, _count (self s)) in
  let count := count - 1 in
  set_count count;;
  if bool_decide (count = 0) then block (Mutex.release polls) else ret tt.

(** [RMutex.locked()]. *)
Definition locked : M state bool := block Mutex.locked.

(** [RMutex.count()]. *)
Definition count : M state Z := gets (λ s, _count (self s)).

(** [RMutex.free()]. *)
Definition free (polls : nat) : M state unit :=
  block (Mutex.free polls);;
  set_count 0.

(** The public operations. *)
Inductive op :=
| Acquire (blocking : bool)
| Release
| Locked
| Count
| Free.

Definition call (polls : nat) (o : op) : M state value :=
  match o with
  | Acquire blocking => map_ret VBool (acquire polls blocking)
  | Release => map_ret (λ _, VNone) (release polls)
  | Locked => map_ret VBool locked
  | Count => map_ret VInt count
  | Free => map_ret (λ _, VNone) (free polls)
  end.

End RMutex.

(** ** Condition *)

Module Condition.

(** [self._lock] is a [Mutex] or an [RMutex]; the source tells them
    apart with [isinstance]. *)
Inductive lock :=
| Plain (m : Mutex.t)
| Recursive (r : RMutex.t).

(** [_lock_owned] is true when [__init__] allocated the lock, so that
    [self._lock_free] is [self._lock.free]; otherwise [_lock_free] is
    [lambda: None]. *)
Record t := { _lock : lock; _lock_owned : bool; _window : Win }.

(** The object, the memory of the lock's window and the memory of the
    condition's own window. *)
Record state := { self : t; lock_mem : memory; mem : memory }.

Definition rma {A} (op : M memory A) : M state A :=
  zoom mem (λ m s, {| self := self s; lock_mem := lock_mem s; mem := m |}) op.

Definition set_lock (l : lock) (s : state) : state :=
  {| self := {| _lock := l;
                _lock_owned := _lock_owned (self s);
                _window := _window (self s) |};
     lock_mem := lock_mem s;
     mem := mem s |}.

(** The plain mutex behind the lock: [self._lock] itself, or
    [self._lock._block] for a recursive one. *)
Definition the_mutex (l : lock) : Mutex.t :=
  match l with
  | Plain m => m
  | Recursive r => RMutex._block r
  end.

Definition with_mutex (m : Mutex.t) (l : lock) : lock :=
  match l with
  | Plain _ => Plain m
  | Recursive r => Recursive {| RMutex._block := m; RMutex._count := RMutex._count r |}
  end.

(** [self._lock._count = count], used where the lock is an [RMutex]. *)
Definition with_count (count : Z) (l : lock) : lock :=
  match l with
  | Plain m => Plain m
  | Recursive r => Recursive {| RMutex._block := RMutex._block r; RMutex._count := count |}
  end.

(** Calls on the plain mutex behind the lock. *)
Definition mutex {A} (op : M Mutex.state A) : M state A :=
  zoom (λ s, {| Mutex.self := the_mutex (_lock (self s)); Mutex.mem := lock_mem s |})
       (λ ms s, {| self := self (set_lock (with_mutex (Mutex.self ms) (_lock (self s))) s);
                   lock_mem := Mutex.mem ms;
                   mem := mem s |})
       op.

(** Calls on the lock [r], a recursive mutex. *)
Definition rmutex {A} (r : RMutex.t) (op : M RMutex.state A) : M state A :=
  λ s, let '(o, rs) := op {| RMutex.self := r; RMutex.mem := lock_mem s |} in
       (o, {| self := self (set_lock (Recursive (RMutex.self rs)) s);
              lock_mem := RMutex.mem rs;
              mem := mem s |}).

Definition null_rank : Z := PROC_NULL.
Definition tail_rank : Z := 0.
Definition flag_id : Z := 0.
Definition next_id : Z := 1.
Definition tail_id : Z := 2.

(** The object of process [rank] after [Condition(comm, lock)];
    [lock = None] allocates an [RMutex]. *)
Definition new (size rank : Z) (lock : option lock) : t :=
  match lock with
  | None => {| _lock := Recursive (RMutex.new size rank);
               _lock_owned := true;
               _window := WIN rank size |}
  | Some l => {| _lock := l; _lock_owned := false; _window := WIN rank size |}
  end.

(** The condition's window after every process has run [__init__]. *)
Definition window_init (size : nat) : memory :=
  allocate size (λ rank,
    let count := if bool_decide (rank = tail_rank) then 3%nat else 2%nat in
    take count [0; null_rank; null_rank]).

(** [Condition._enqueue(process)]. *)
Definition _enqueue (process : Z) : M memory unit :=
  let rank := process in
  let next := process in
  let* prev := Fetch_and_op_REPLACE rank tail_rank tail_id in
  let* next :=
    (if negb (bool_decide (prev = null_rank))
     then Fetch_and_op_REPLACE rank prev next_id
     else ret next) in
  Accumulate_REPLACE next rank next_id.

(** The loop of [_dequeue].  [budget] is [maxnumprocs - len(processes)],
    which the loop condition compares with 0 and every pass lowers by
    one.  The result is [(processes, next[0], empty)] at loop exit. *)
Fixpoint _dequeue_loop (budget : nat) (processes : list Z) (next : Z) (empty : bool)
  : M memory (list Z * Z * bool) :=
  match budget with
  | O => ret (processes, next, empty)
  | S budget' =>
      if empty then ret (processes, next, empty) else
      let rank := next in
      let processes := processes ++ [rank] in
      let* next := Fetch_and_op_NO_OP rank next_id in
      let empty := bool_decide (head processes = Some next) in
      _dequeue_loop budget' processes next empty
  end.

(** [Condition._dequeue(maxnumprocs)] on a window of [group_size]
    processes. *)
Definition _dequeue (group_size maxnumprocs : Z) : M memory (list Z) :=
  let null := null_rank in
  let maxnumprocs := Z.max 0 (Z.min maxnumprocs group_size) in
  let* prev := Fetch_and_op_NO_OP tail_rank tail_id in
  if negb (bool_decide (prev = null_rank)) then
    let* next := Fetch_and_op_NO_OP prev next_id in
    let* (processes, next, empty) :=
      _dequeue_loop (Z.to_nat maxnumprocs) [] next false in
    (if negb empty
     then Accumulate_REPLACE next prev next_id
     else Accumulate_REPLACE null tail_rank tail_id);;
    ret processes
  else ret [].

(** [Condition._sleep()]: poll the local flag, then consume it. *)
Fixpoint _sleep_loop (polls : nat) (self_rank : Z) : M memory unit :=
  let* v := memoryview self_rank flag_id in
  if bool_decide (v = 0) then
    match polls with
    | O => λ m, (Spin, m)
    | S polls' => _sleep_loop polls' self_rank
    end
  else ret tt.

Definition _sleep (polls : nat) (self_rank : Z) : M memory unit :=
  _sleep_loop polls self_rank;;
  (* memory[flag_id] = 0 *)
  Accumulate_REPLACE 0 self_rank flag_id.

(** [Condition._wakeup(processes)]. *)
Fixpoint _wakeup (processes : list Z) : M memory unit :=
  match processes with
  | [] => ret tt
  | rank :: rest => Accumulate_REPLACE 1 rank flag_id;; _wakeup rest
  end.

(** [Condition._release_save()]; the state saved is the recursion
    count, or [None] for a plain mutex. *)
Definition _release_save (polls : nat) : M state (option Z) :=
  let* c := gets self in
  match _lock c with
  | Recursive r =>
      let saved := RMutex._count r in
      modify (λ s, set_lock (with_count 0 (_lock (self s))) s);;
      mutex (Mutex.release polls);;
      ret (Some saved)
  | Plain _ =>
      mutex (Mutex.release polls);;
      ret None
  end.

(** [Condition._acquire_restore(state)]; [saved] is what
    [_release_save] returned, a count whenever the lock is an
    [RMutex]. *)
Definition _acquire_restore (polls : nat) (saved : option Z) : M state unit :=
  let* c := gets self in
  match _lock c with
  | Recursive _ =>
      mutex (Mutex.acquire polls true);;
      let count := match saved with Some count => count | None => 0 end in
      modify (λ s, set_lock (with_count count (_lock (self s))) s)
  | Plain _ =>
      mutex (Mutex.acquire polls true);;
      ret tt
  end.

(** [Condition._lock_reset()]. *)
Definition _lock_reset (polls : nat) : M state unit :=
  let* c := gets self in
  (match _lock c with
   | Recursive _ => modify (λ s, set_lock (with_count 0 (_lock (self s))) s)
   | Plain _ => ret tt
   end);;
  let* c := gets self in
  if Win_bool (Mutex._window (the_mutex (_lock c))) then
    let* held := mutex Mutex.locked in
    if held then mutex (Mutex.release polls) else ret tt
  else ret tt.

(** [self._lock.acquire(blocking)], [self._lock.release()],
    [self._lock.locked()]: the method of the class of the lock. *)
Definition lock_acquire (polls : nat) (blocking : bool) : M state bool :=
  let* c := gets self in
  match _lock c with
  | Plain _ => mutex (Mutex.acquire polls blocking)
  | Recursive r => rmutex r (RMutex.acquire polls blocking)
  end.

Definition lock_release (polls : nat) : M state unit :=
  let* c := gets self in
  match _lock c with
  | Plain _ => mutex (Mutex.release polls)
  | Recursive r => rmutex r (RMutex.release polls)
  end.

Definition lock_locked : M state bool :=
  let* c := gets self in
  match _lock c with
  | Plain _ => mutex Mutex.locked
  | Recursive r => rmutex r RMutex.locked
  end.

(** [self._lock_free()]. *)
Definition _lock_free (polls : nat) : M state unit :=
  let* c := gets self in
  if _lock_owned c then
    match _lock c with
    | Plain _ => mutex (Mutex.free polls)
    | Recursive r => rmutex r (RMutex.free polls)
    end
  else ret tt.

(** [Condition.acquire(blocking=True)]. *)
Definition acquire (polls : nat) (blocking : bool) : M state bool :=
  let* c := gets self in
  if negb (Win_bool (_window c)) then raise (RuntimeError "condition already freed")
  else lock_acquire polls blocking.

(** [Condition.release()]. *)
Definition release (polls : nat) : M state unit :=
  let* c := gets self in
  if negb (Win_bool (_window c)) then raise (RuntimeError "condition already freed")
  else lock_release polls.

(** [Condition.locked()]. *)
Definition locked : M state bool := lock_locked.

(** [Condition.wait()]. *)
Definition wait (polls : nat) : M state bool :=
  let* c := gets self in
  match _window c with
  | WIN_NULL => raise (RuntimeError "condition already freed")
  | WIN group_rank _ =>
      let* held := locked in
      if negb held then raise (RuntimeError "cannot wait on unheld mutex") else
      rma (_enqueue group_rank);;
      let* saved := _release_save polls in
      rma (_sleep polls group_rank);;
      _acquire_restore polls saved;;
      ret true
  end.

(** [Condition.wait_for(predicate)].  The predicate is any computation
    on the state; [rounds] bounds the passes through the loop. *)
Fixpoint wait_for_loop (rounds polls : nat) (predicate : M state value) (result : value)
  : M state value :=
  if negb (truthy result) then
    match rounds with
    | O => λ s, (Spin, s)
    | S rounds' =>
        wait polls;;
        let* result := predicate in
        wait_for_loop rounds' polls predicate result
    end
  else ret result.

Definition wait_for (rounds polls : nat) (predicate : M state value) : M state value :=
  let* result := predicate in
  wait_for_loop rounds polls predicate result.

(** [Condition.notify(n=1)]. *)
Definition notify (n : Z) : M state Z :=
  let* c := gets self in
  match _window c with
  | WIN_NULL => raise (RuntimeError "condition already freed")
  | WIN _ group_size =>
      let* held := locked in
      if negb held then raise (RuntimeError "cannot notify on unheld mutex") else
      let* processes := rma (_dequeue group_size n) in
      let numprocs := Z.of_nat (length processes) in
      rma (_wakeup processes);;
      ret numprocs
  end.

(** [Condition.notify_all()]. *)
Definition notify_all : M state Z := notify (Z.shiftl 1 31 - 1).

(** [Condition.free()]. *)
Definition free (polls : nat) : M state unit :=
  _lock_reset polls;;
  _lock_free polls;;
  modify (λ s, {| self := {| _lock := _lock (self s);
                             _lock_owned := _lock_owned (self s);
                             _window := WIN_NULL |};
                  lock_mem := lock_mem s;
                  mem := mem s |}).

(** The public operations. *)
Inductive op :=
| Acquire (blocking : bool)
| Release
| Locked
| Wait
| Wait_for (predicate : M state value)
| Notify (n : Z)
| Notify_all
| Free.

Definition call (rounds polls : nat) (o : op) : M state value :=
  match o with
  | Acquire blocking => map_ret VBool (acquire polls blocking)
  | Release => map_ret (λ _, VNone) (release polls)
  | Locked => map_ret VBool locked
  | Wait => map_ret VBool (wait polls)
  | Wait_for predicate => wait_for rounds polls predicate
  | Notify n => map_ret VInt (notify n)
  | Notify_all => map_ret VInt notify_all
  | Free => map_ret (λ _, VNone) (free polls)
  end.

(** *** The waiter queue as the window encodes it

    The ranks [q], oldest first, are queued in [m] when [TAIL] holds
    the last of them ([null_rank] when there is none) and the [NEXT]
    slot of each holds the rank after it, the one of the last holding
    the first: a ring, closed by a self-link when [q] is a single
    rank. *)
Definition successor (q : list Z) (i : nat) : option Z :=
  match q !! S i with
  | Some r => Some r
  | None => head q
  end.

Definition linked (m : memory) (q : list Z) : Prop :=
  ∀ (i : nat) (r : Z), q !! i = Some r → m !! (r, next_id) = successor q i.

(** Every process of the group owns a [FLAG] and a [NEXT] slot, and
    the tail process a [TAIL] slot. *)
Definition shaped (group_size : Z) (m : memory) : Prop :=
  is_Some (m !! (tail_rank, tail_id))
  ∧ ∀ r, 0 ≤ r < group_size →
      is_Some (m !! (r, flag_id)) ∧ is_Some (m !! (r, next_id)).

Definition queue (group_size : Z) (m : memory) (q : list Z) : Prop :=
  shaped group_size m
  ∧ NoDup q
  ∧ (∀ r, r ∈ q → 0 ≤ r < group_size)
  ∧ m !! (tail_rank, tail_id) = Some (default null_rank (last q))
  ∧ linked m q.

(** The processes [ps] enqueue themselves one after the other. *)
Fixpoint enqueue_all (ps : list Z) : M memory unit :=
  match ps with
  | [] => ret tt
  | p :: rest => _enqueue p;; enqueue_all rest
  end.

(** What [_release_save] returns for the lock [l]: the recursion count
    of an [RMutex], [None] for a plain mutex. *)
Definition saved_of (l : lock) : option Z :=
  match l with
  | Plain _ => None
  | Recursive r => Some (RMutex._count r)
  end.

End Condition.

(** ** The lock protocol, one RMA operation at a time

    The processes [0 .. size-1] share the window of one mutex.  Each
    process owns a lock object, a [Mutex] or an [RMutex] around it, and
    calls its methods one after the other; a call advances by one RMA
    operation (or one poll of a spin loop) per step, and steps of
    different processes interleave in any order.  The control points
    are the RMA calls of [Mutex.acquire] and [Mutex.release]; what
    surrounds them in the calling method runs together with the
    neighbouring step, since it touches nothing but the caller's own
    object. *)

Module System.

(** Who called [Mutex.acquire], hence what happens when it returns. *)
Inductive acquire_caller :=
| By_user                              (* [Mutex.acquire] called directly *)
| By_RMutex_acquire                    (* then [if locked: self._count = 1] *)
| By_acquire_restore (saved : option Z). (* then [self._lock._count = state] *)

(** Who called [Mutex.release]. *)
Inductive release_caller :=
| For_user                             (* [Mutex.release] or [RMutex.release] *)
| For_release_save (saved : option Z)  (* then the process sleeps in [wait] *)
| For_free.                            (* then the handle is nulled *)

(** Where a process is. *)
Inductive pc :=
| Idle
  (* [Mutex.acquire]: about to write [null] into its own [NEXT] *)
| Acquire_next (blocking : bool) (k : acquire_caller)
  (* about to swap (or compare-and-swap) itself into [TAIL] *)
| Acquire_tail (blocking : bool) (k : acquire_caller)
  (* about to write itself into the [NEXT] of [prev] *)
| Acquire_link (prev : Z) (k : acquire_caller)
  (* polling its own [LOCK] *)
| Acquire_spin (k : acquire_caller)
  (* about to write [locked] into its own [LOCK] and return it *)
| Acquire_flag (locked : bool) (k : acquire_caller)
  (* [Mutex.release]: about to compare-and-swap [null] into [TAIL] *)
| Release_tail (k : release_caller)
  (* polling its own [NEXT] *)
| Release_spin (k : release_caller)
  (* about to write [True] into the [LOCK] of [next_rank] *)
| Release_pass (next_rank : Z) (k : release_caller)
  (* about to write [False] into its own [LOCK] and return *)
| Release_flag (k : release_caller)
  (* between [_release_save] and [_acquire_restore] of [Condition.wait] *)
| Saved (saved : option Z).

(** The calls a process makes on its lock object: the three public
    methods, dispatched on the class of the lock, and
    [Condition._release_save], which [Condition.wait] makes on it and
    follows, once woken, by [Condition._acquire_restore]. *)
Inductive call :=
| Acquire (blocking : bool)
| Release
| Free
| Release_save.

Inductive event :=
| Call (c : call)
| Advance.

Record state := {
  mem : memory;
  pcs : Z → pc;
  locks : Z → Condition.lock;
}.

Definition set_pc (r : Z) (p : pc) (st : state) : state :=
  {| mem := mem st; pcs := <[r := p]> (pcs st); locks := locks st |}.

Definition set_mem (m : memory) (st : state) : state :=
  {| mem := m; pcs := pcs st; locks := locks st |}.

Definition set_lock (r : Z) (l : Condition.lock) (st : state) : state :=
  {| mem := mem st; pcs := pcs st; locks := <[r := l]> (locks st) |}.

Definition set_count (r : Z) (count : Z) (st : state) : state :=
  set_lock r (Condition.with_count count (locks st r)) st.

Definition get_count (r : Z) (st : state) : Z :=
  match locks st r with
  | Condition.Plain _ => 0
  | Condition.Recursive rm => RMutex._count rm
  end.

(** [bool(mutex._window)] for the plain mutex behind the lock of [r]. *)
Definition window_ok (r : Z) (st : state) : bool :=
  Win_bool (Mutex._window (Condition.the_mutex (locks st r))).

(** [mutex.locked()] of process [r], window permitting. *)
Definition locked (r : Z) (st : state) : bool :=
  match mem st !! (r, Mutex.lock_id) with
  | Some v => negb (bool_decide (v = 0))
  | None => false
  end.

(** One RMA operation of process [r]; an exception of the runtime
    ends the call. *)
Definition rma {A} (r : Z) (op : M memory A) (k : A → state → state) (st : state) : state :=
  match op (mem st) with
  | (Ret a, m) => k a (set_mem m st)
  | (_, m) => set_pc r Idle (set_mem m st)
  end.

(** [Mutex.acquire(blocking)] up to its first RMA call: the guards. *)
Definition enter_acquire (r : Z) (blocking : bool) (k : acquire_caller) (st : state)
  : state :=
  if negb (window_ok r st) then st           (* "mutex already freed" *)
  else if locked r st then st                (* "cannot acquire already held mutex" *)
  else set_pc r (Acquire_next blocking k) st.

(** [Mutex.release()] up to its first RMA call. *)
Definition enter_release (r : Z) (k : release_caller) (st : state) : state :=
  if negb (window_ok r st) then st           (* "mutex already freed" *)
  else if negb (locked r st) then st         (* "cannot release unheld mutex" *)
  else set_pc r (Release_tail k) st.

(** [self._window = MPI.WIN_NULL] at the end of [Mutex.free], and
    [self._count = 0] at the end of [RMutex.free]. *)
Definition null_window (r : Z) (st : state) : state :=
  let l := Condition.with_mutex {| Mutex._window := WIN_NULL |} (locks st r) in
  set_lock r (Condition.with_count 0 l) st.

(** A call of an idle process. *)
Definition do_call (r : Z) (c : call) (st : state) : state :=
  match c, locks st r with
  | Acquire blocking, Condition.Plain _ => enter_acquire r blocking By_user st
  | Acquire blocking, Condition.Recursive rm =>
      (* [RMutex.acquire] *)
      if negb (window_ok r st) then st
      else if locked r st then set_count r (RMutex._count rm + 1) st
      else enter_acquire r blocking By_RMutex_acquire st
  | Release, Condition.Plain _ => enter_release r For_user st
  | Release, Condition.Recursive rm =>
      (* [RMutex.release] *)
      if negb (window_ok r st) then st
      else if negb (locked r st) then st
      else
        let count := RMutex._count rm - 1 in
        let st := set_count r count st in
        if bool_decide (count = 0) then enter_release r For_user st else st
  | Free, _ =>
      (* [Mutex.free], and [RMutex.free] around it *)
      if window_ok r st && locked r st
      then enter_release r For_free st
      else null_window r st
  | Release_save, Condition.Plain _ =>
      enter_release r (For_release_save None) st
  | Release_save, Condition.Recursive rm =>
      let saved := RMutex._count rm in
      let st := set_count r 0 st in
      enter_release r (For_release_save (Some saved)) st
  end.

(** [Mutex.acquire] returns [locked] to its caller. *)
Definition return_acquire (r : Z) (locked : bool) (k : acquire_caller) (st : state)
  : state :=
  let st := set_pc r Idle st in
  match k with
  | By_user => st
  | By_RMutex_acquire => if locked then set_count r 1 st else st
  | By_acquire_restore saved =>
      match locks st r, saved with
      | Condition.Recursive _, Some count => set_count r count st
      | _, _ => st
      end
  end.

(** [Mutex.release] returns to its caller. *)
Definition return_release (r : Z) (k : release_caller) (st : state) : state :=
  match k with
  | For_user => set_pc r Idle st
  | For_release_save saved => set_pc r (Saved saved) st
  | For_free => set_pc r Idle (null_window r st)
  end.

(** The next step of a process that is inside a call. *)
Definition advance (r : Z) (st : state) : state :=
  let null := Mutex.null_rank in
  match pcs st r with
  | Idle => st
  | Acquire_next blocking k =>
      rma r (Accumulate_REPLACE null r Mutex.next_id)
          (λ _, set_pc r (Acquire_tail blocking k)) st
  | Acquire_tail blocking k =>
      rma r (if blocking
             then Fetch_and_op_REPLACE r Mutex.tail_rank Mutex.tail_id
             else Compare_and_swap r null Mutex.tail_rank Mutex.tail_id)
          (λ prev,
             let locked := bool_decide (prev = null) in
             if blocking && negb locked
             then set_pc r (Acquire_link prev k)
             else set_pc r (Acquire_flag locked k)) st
  | Acquire_link prev k =>
      rma r (Accumulate_REPLACE r prev Mutex.next_id)
          (λ _, set_pc r (Acquire_spin k)) st
  | Acquire_spin k =>
      rma r (memoryview r Mutex.lock_id)
          (λ v, if bool_decide (v = 0) then id
                else set_pc r (Acquire_flag true k)) st
  | Acquire_flag locked k =>
      rma r (Accumulate_REPLACE (Z.b2z locked) r Mutex.lock_id)
          (λ _, return_acquire r locked k) st
  | Release_tail k =>
      rma r (Compare_and_swap null r Mutex.tail_rank Mutex.tail_id)
          (λ prev,
             if negb (bool_decide (prev = r))
             then set_pc r (Release_spin k)
             else set_pc r (Release_flag k)) st
  | Release_spin k =>
      rma r (memoryview r Mutex.next_id)
          (λ v, if bool_decide (v = null) then id
                else set_pc r (Release_pass v k)) st
  | Release_pass next_rank k =>
      rma r (Accumulate_REPLACE 1 next_rank Mutex.lock_id)
          (λ _, set_pc r (Release_flag k)) st
  | Release_flag k =>
      rma r (Accumulate_REPLACE 0 r Mutex.lock_id)
          (λ _, return_release r k) st
  | Saved saved =>
      (* [_acquire_restore(saved)] calls [Mutex.acquire()]; the
         process is idle again if that raises. *)
      enter_acquire r true (By_acquire_restore saved) (set_pc r Idle st)
  end.

(** A step of process [r]: a call when it is idle, the next operation
    of its call otherwise. *)
Definition step (r : Z) (e : event) (st : state) : option state :=
  match e, pcs st r with
  | Call c, Idle => Some (do_call r c st)
  | Call _, _ => None
  | Advance, Idle => None
  | Advance, _ => Some (advance r st)
  end.

(** The state after every process has constructed its lock,
    [recursive r] telling whether process [r] built an [RMutex]. *)
Definition init (size : nat) (recursive : Z → bool) : state :=
  {| mem := Mutex.window_init size;
     pcs := λ _, Idle;
     locks := λ r, if recursive r
                   then Condition.Recursive (RMutex.new (Z.of_nat size) r)
                   else Condition.Plain (Mutex.new (Z.of_nat size) r) |}.

(** The states the processes [0 .. size-1] can bring about. *)
Inductive reachable (size : nat) : state → Prop :=
| reachable_init recursive : reachable size (init size recursive)
| reachable_step st r e st' :
    reachable size st →
    0 ≤ r < Z.of_nat size →
    step r e st = Some st' →
    reachable size st'.

(** A schedule: which process takes which step, in order. *)
Fixpoint run (schedule : list (Z * event)) (st : state) : option state :=
  match schedule with
  | [] => Some st
  | (r, e) :: rest =>
      match step r e st with
      | Some st' => run rest st'
      | None => None
      end
  end.

(** Process [r] runs alone until its call has returned; [fuel] bounds
    the number of its steps. *)
Fixpoint finish (fuel : nat) (r : Z) (st : state) : option state :=
  match pcs st r with
  | Idle => Some st
  | _ =>
      match fuel with
      | O => None
      | S fuel' => finish fuel' r (advance r st)
      end
  end.

(** The [LOCK] slot of process [r], which [locked()] reads. *)
Definition lock_slot (st : state) (r : Z) : option Z := mem st !! (r, Mutex.lock_id).

(** *** The invariant of the queue lock

    The processes that have put themselves into [TAIL] and have not yet
    passed the lock on form a queue [q], oldest first.  Its head owns
    the lock (or is about to take or to pass it); the others wait. *)
Inductive role := Out | Head | Waiting.

Definition role_of (q : list Z) (r : Z) : role :=
  if bool_decide (head q = Some r) then Head
  else if bool_decide (r ∈ q) then Waiting
  else Out.

(** The roles a process may have at a control point, and what its
    [LOCK] slot then holds. *)
Definition admits (p : pc) (ro : role) (v : Z) : Prop :=
  match p, ro with
  | Idle, Out => v = 0
  | Idle, Head => v = 1
  | Acquire_next _ _, Out => v = 0
  | Acquire_tail _ _, Out => v = 0
  | Acquire_link _ _, Waiting => v = 0
  | Acquire_spin _, Head => v = 1
  | Acquire_spin _, Waiting => v = 0
  | Acquire_flag true _, Head => v = 0 ∨ v = 1
  | Acquire_flag false _, Out => v = 0
  | Release_tail _, Head => v = 1
  | Release_spin _, Head => v = 1
  | Release_pass _ _, Head => v = 1
  | Release_flag _, Out => v = 1
  | Saved _, Out => v = 0
  | _, _ => False
  end.

(** What a process knows beyond its role. *)
Definition extra (q : list Z) (m : memory) (r : Z) (p : pc) : Prop :=
  match p with
  | Acquire_tail _ _ => m !! (r, Mutex.next_id) = Some Mutex.null_rank
  | Release_spin _ => (1 < length q)%nat
  | Release_pass s _ => q !! 1%nat = Some s ∧ m !! (r, Mutex.next_id) = Some s
  | _ => True
  end.

Definition rank_ok (q : list Z) (m : memory) (pcs : Z → pc) (r : Z) : Prop :=
  ∃ v, m !! (r, Mutex.lock_id) = Some v
       ∧ admits (pcs r) (role_of q r) v
       ∧ extra q m r (pcs r)
       ∧ is_Some (m !! (r, Mutex.next_id)).

(** Neighbours [a], [b] of the queue: [b] has written itself into the
    [NEXT] of [a] and polls its [LOCK], or is about to write itself. *)
Definition link_ok (m : memory) (pcs : Z → pc) (a b : Z) : Prop :=
  (m !! (a, Mutex.next_id) = Some b ∧ ∃ k, pcs b = Acquire_spin k)
  ∨ (m !! (a, Mutex.next_id) = Some Mutex.null_rank ∧ ∃ k, pcs b = Acquire_link a k).

Record invariant (size : Z) (q : list Z) (m : memory) (pcs : Z → pc) : Prop := {
  inv_nodup : NoDup q;
  inv_range : ∀ r, r ∈ q → 0 ≤ r < size;
  inv_tail : m !! (Mutex.tail_rank, Mutex.tail_id) = Some (default Mutex.null_rank (last q));
  inv_linked : ∀ (i : nat) (a b : Z),
    q !! i = Some a → q !! S i = Some b → link_ok m pcs a b;
  inv_last : ∀ t, last q = Some t → m !! (t, Mutex.next_id) = Some Mutex.null_rank;
  inv_rank : ∀ r, 0 ≤ r < size → rank_ok q m pcs r;
}.

(** *** The invariant of the recursion count

    What the count of a recursive mutex is at each control point of
    its owner, [v] being the value of the owner's [LOCK] slot. *)
Definition acquire_caller_ok (blocking : bool) (k : acquire_caller) : Prop :=
  match k with
  | By_user => False
  | By_RMutex_acquire => True
  | By_acquire_restore (Some saved) => 0 < saved ∧ blocking = true
  | By_acquire_restore None => False
  end.

Definition release_caller_ok (count : Z) (k : release_caller) : Prop :=
  match k with
  | For_user => count = 0
  | For_release_save (Some saved) => count = 0 ∧ 0 < saved
  | For_release_save None => False
  | For_free => 0 ≤ count
  end.

Definition count_ok (p : pc) (l : Condition.lock) (v : Z) : Prop :=
  (Win_bool (Mutex._window (Condition.the_mutex l)) = false → p = Idle ∧ v = 0)
  ∧ match l with
    | Condition.Plain _ => True
    | Condition.Recursive rm =>
        let count := RMutex._count rm in
        match p with
        | Idle => (v = 0 ∧ count = 0) ∨ (v ≠ 0 ∧ 0 < count)
        | Acquire_next blocking k | Acquire_tail blocking k =>
            count = 0 ∧ acquire_caller_ok blocking k
        | Acquire_link _ k | Acquire_spin k =>
            count = 0 ∧ acquire_caller_ok true k
        | Acquire_flag locked k =>
            count = 0 ∧ acquire_caller_ok locked k
        | Release_tail k | Release_spin k | Release_pass _ k | Release_flag k =>
            release_caller_ok count k
        | Saved (Some saved) => count = 0 ∧ 0 < saved
        | Saved None => False
        end
    end.

Definition count_invariant (size : Z) (st : state) : Prop :=
  ∀ r, 0 ≤ r < size →
    ∃ v, mem st !! (r, Mutex.lock_id) = Some v ∧ count_ok (pcs st r) (locks st r) v.

(** *** The order of arrival and the order of service

    Two records of a run, for the fairness of the lock to speak about.
    A process arrives with the step that puts it into [TAIL]: the
    fetch-and-op of a blocking [acquire], or the compare-and-swap of a
    non-blocking one when it finds [null_rank] there.  A process is
    served with the step with which its [Mutex.acquire] returns
    [True]. *)
Definition arrives (r : Z) (e : event) (st : state) : bool :=
  match e, pcs st r with
  | Advance, Acquire_tail blocking _ =>
      match mem st !! (Mutex.tail_rank, Mutex.tail_id) with
      | Some prev => blocking || bool_decide (prev = Mutex.null_rank)
      | None => false
      end
  | _, _ => false
  end.

Definition served (r : Z) (e : event) (st : state) : bool :=
  match e, pcs st r with
  | Advance, Acquire_flag true _ => true
  | _, _ => false
  end.

(** The processes that take a step of the kind [f], in the order of
    the steps of the schedule. *)
Fixpoint record (f : Z → event → state → bool) (schedule : list (Z * event)) (st : state)
  : list Z :=
  match schedule with
  | [] => []
  | (r, e) :: rest =>
      match step r e st with
      | Some st' => (if f r e st then [r] else []) ++ record f rest st'
      | None => []
      end
  end.

(** The control points of a process whose [acquire] has returned
    [True] and whose [release] has not yet given the lock away, and the
    process of the queue [q] that is at one of them, if any: its
    head. *)
Definition holding (p : pc) : bool :=
  match p with
  | Idle | Release_tail _ | Release_spin _ | Release_pass _ _ => true
  | _ => false
  end.

Definition holder (q : list Z) (pcs : Z → pc) : list Z :=
  match head q with
  | Some h => if holding (pcs h) then [h] else []
  | None => []
  end.

(** *** One call of [Mutex.acquire]

    The control points of one call [Mutex.acquire(blocking)] made for
    the caller [k], and [Idle] once it has returned: a blocking call
    that is about to return is about to return [True]. *)
Definition acquiring (blocking : bool) (k : acquire_caller) (p : pc) : Prop :=
  match p with
  | Idle => True
  | Acquire_next blocking' k' | Acquire_tail blocking' k' => blocking' = blocking ∧ k' = k
  | Acquire_link _ k' | Acquire_spin k' => blocking = true ∧ k' = k
  | Acquire_flag locked k' => (blocking = true → locked = true) ∧ k' = k
  | _ => False
  end.

End System.

(** ** Sequential

    [begin] and [end] exchange zero-byte messages on [self.tag]: process
    [rank] receives from [rank - 1] in [begin] and sends to [rank + 1]
    in [end].  The processes of a communicator of [size] processes run
    [begin(); ...; end()] again and again, interleaved in any order.  A
    send deposits its message and returns (a zero-byte message needs no
    rendezvous); a receive returns once a message is there.

    [begun] and [ended] count, per process, the calls of [begin] that
    have returned and the calls of [end] made; they are there for the
    properties to speak about and steer nothing. *)

Module Sequential.

Inductive phase :=
| Outside   (* before [begin()], or after [end()] *)
| Inside.   (* [begin()] has returned, [end()] is not called yet *)

Record state := {
  phases : Z → phase;
  begun : Z → nat;
  ended : Z → nat;
  (** messages on [tag] from [rank - 1] waiting for process [rank] *)
  inbox : Z → nat;
}.

Definition init : state :=
  {| phases := λ _, Outside; begun := λ _, 0%nat; ended := λ _, 0%nat; inbox := λ _, 0%nat |}.

(** [begin] has returned on [rank]. *)
Definition entered (rank : Z) (st : state) : state :=
  {| phases := <[rank := Inside]> (phases st);
     begun := <[rank := S (begun st rank)]> (begun st);
     ended := ended st;
     inbox := inbox st |}.

(** [end] has returned on [rank]. *)
Definition left (rank : Z) (st : state) : state :=
  {| phases := <[rank := Outside]> (phases st);
     begun := begun st;
     ended := <[rank := S (ended st rank)]> (ended st);
     inbox := inbox st |}.

(** [comm.Recv(buf, rank - 1, tag)] on process [rank]: [None] while no
    message is there. *)
Definition Recv (rank : Z) (st : state) : option state :=
  match inbox st rank with
  | O => None
  | S n => Some {| phases := phases st; begun := begun st; ended := ended st;
                   inbox := <[rank := n]> (inbox st) |}
  end.

(** [comm.Send(buf, dest, tag)]. *)
Definition Send (dest : Z) (st : state) : state :=
  {| phases := phases st; begun := begun st; ended := ended st;
     inbox := <[dest := S (inbox st dest)]> (inbox st) |}.

(** [Sequential.begin()] on process [rank]; [None] while it blocks. *)
Definition begin (size rank : Z) (st : state) : option state :=
  if bool_decide (size = 1) then Some (entered rank st)
  else if negb (bool_decide (rank = 0))
       then entered rank <$> Recv rank st
       else Some (entered rank st).

(** [Sequential.end()] on process [rank]. *)
Definition end_ (size rank : Z) (st : state) : state :=
  if bool_decide (size = 1) then left rank st
  else if negb (bool_decide (rank = size - 1))
       then left rank (Send (rank + 1) st)
       else left rank st.

(** The next call of process [rank] runs. *)
Definition step (size rank : Z) (st : state) : option state :=
  match phases st rank with
  | Outside => begin size rank st
  | Inside => Some (end_ size rank st)
  end.

Inductive reachable (size : Z) : state → Prop :=
| reachable_init : reachable size init
| reachable_step st rank st' :
    reachable size st →
    0 ≤ rank < size →
    step size rank st = Some st' →
    reachable size st'.

(** What every reachable state satisfies: a process is inside exactly
    when it has begun once more than it has ended, and every message
    sent on is either received or waiting. *)
Definition invariant (size : Z) (st : state) : Prop :=
  (∀ r, begun st r = (ended st r + match phases st r with Inside => 1 | Outside => 0 end)%nat)
  ∧ (size ≠ 1 → ∀ r, 0 ≤ r → r + 1 < size →
       ended st r = (begun st (r + 1) + inbox st (r + 1))%nat).

(** A schedule: the processes that step, in order. *)
Fixpoint run (size : Z) (schedule : list Z) (st : state) : option state :=
  match schedule with
  | [] => Some st
  | rank :: rest =>
      match step size rank st with
      | Some st' => run size rest st'
      | None => None
      end
  end.

End Sequential.

(** ** Backoff

    [_new_backoff] returns a generator; every [next] on it sleeps for
    the current delay, then raises the delay.  The delays are floats,
    modelled by the binary64 numbers of the kernel. *)

Module Backoff.
#[local] Open Scope float_scope.

Definition _BACKOFF_DELAY_MAX : float := 1 / 1024.
Definition _BACKOFF_DELAY_MIN : float := _BACKOFF_DELAY_MAX / 1024.
Definition _BACKOFF_DELAY_INIT : float := 0.
Definition _BACKOFF_DELAY_RATIO : float := 2.

(** Python's [min(a, b)] and [max(a, b)]: the first argument, unless
    the second is strictly smaller (larger). *)
Definition min (a b : float) : float := if b <? a then b else a.
Definition max (a b : float) : float := if a <? b then b else a.

(** The frame of the generator [backoff()]: the arguments of
    [_new_backoff] it closes over, and its local [delay]. *)
Record generator := {
  delay_max : float;
  delay_min : float;
  delay_ratio : float;
  delay : float;
}.

Definition _new_backoff (delay_max delay_min delay_init delay_ratio : float) : generator :=
  {| delay_max := delay_max;
     delay_min := delay_min;
     delay_ratio := delay_ratio;
     delay := delay_init |}.

(** [next(backoff)] runs the generator up to its next [yield]: it
    sleeps [delay] seconds and computes the delay of the next pass.
    The result is the time slept. *)
Definition next (g : generator) : float * generator :=
  (delay g,
   {| delay_max := delay_max g;
      delay_min := delay_min g;
      delay_ratio := delay_ratio g;
      delay := min (delay_max g) (max (delay_min g) (delay g * delay_ratio g)) |}).

(** The times slept by the first [n] calls [next(backoff)]. *)
Fixpoint sleeps (n : nat) (g : generator) : list float :=
  match n with
  | O => []
  | S n' => let '(d, g') := next g in d :: sleeps n' g'
  end.

(** [_new_backoff()], as [Mutex._backoff] and [Condition._backoff] call
    it. *)
Definition default : generator :=
  _new_backoff _BACKOFF_DELAY_MAX _BACKOFF_DELAY_MIN _BACKOFF_DELAY_INIT _BACKOFF_DELAY_RATIO.

End Backoff.

(** * Properties *)

Lemma PROC_NULL_neg : PROC_NULL < 0.
Proof. reflexivity. Qed.

(** ** Freshly allocated windows *)

Lemma lookup_store_segment rank seg : ∀ disp (m : memory) r d,
  store_segment rank disp seg m !! (r, d) =
  if decide (r = rank ∧ disp ≤ d < disp + Z.of_nat (length seg))
  then seg !! Z.to_nat (d - disp)
  else m !! (r, d).
Proof.
  induction seg as [|v seg IH]; intros disp m r d; simpl.
  - case_decide; [lia | done].
  - destruct (decide ((rank, disp) = (r, d))) as [[= -> ->]|Hne].
    + rewrite lookup_insert_eq. case_decide; [|lia].
      by replace (d - d) with 0 by lia.
    + rewrite lookup_insert_ne by done. rewrite IH.
      repeat case_decide; try lia.
      * replace (Z.to_nat (d - disp)) with (S (Z.to_nat (d - (disp + 1)))) by lia. done.
      * destruct_and!. subst. assert (d = disp) by lia. congruence.
      * done.
Qed.

Lemma lookup_allocate init : ∀ (size : nat) r d,
  allocate size init !! (r, d) =
  if decide (0 ≤ r < Z.of_nat size ∧ 0 ≤ d) then init r !! Z.to_nat d else None.
Proof.
  induction size as [|k IH]; intros r d; simpl.
  - rewrite lookup_empty. case_decide; [lia | done].
  - rewrite lookup_store_segment, IH.
    repeat case_decide; try lia; try done.
    + destruct_and?. subst r. by rewrite Z.sub_0_r.
    + symmetry. apply lookup_ge_None.
      destruct (decide (r = Z.of_nat k)); [subst r|]; lia.
Qed.


(** ** Counter *)

Lemma tc_bits_pos tc : 0 < 2 ^ tc_bits tc.
Proof. destruct tc; reflexivity. Qed.

Lemma tc_wrap_fits tc v : tc_fits tc v = true → tc_wrap tc v = v.
Proof.
  unfold tc_fits, tc_wrap, tc_min, tc_max. intros H%bool_decide_eq_true.
  destruct tc; simpl in *; rewrite Z.mod_small; lia.
Qed.

Lemma tc_fits_wrap tc v : tc_fits tc (tc_wrap tc v) = true.
Proof.
  apply bool_decide_eq_true. unfold tc_wrap.
  pose proof (Z.mod_pos_bound (v - tc_min tc) (2 ^ tc_bits tc) (tc_bits_pos tc)) as Hb.
  revert Hb. generalize ((v - tc_min tc) mod 2 ^ tc_bits tc). intros r Hr.
  unfold tc_min, tc_max in *. destruct tc; simpl in *; lia.
Qed.

Lemma tc_wrap_add_l tc a b : tc_wrap tc (tc_wrap tc a + b) = tc_wrap tc (a + b).
Proof.
  unfold tc_wrap. f_equal.
  replace ((a - tc_min tc) mod 2 ^ tc_bits tc + tc_min tc + b - tc_min tc)
    with ((a - tc_min tc) mod 2 ^ tc_bits tc + b) by lia.
  rewrite Zplus_mod_idemp_l. f_equal. lia.
Qed.

Section counter.
Context (size : nat) (start step : Z) (tc : typecode) (root : Z).


Lemma counter_next_value (c : Counter.t) (m : memory) v :
  Counter.object_of size start step tc root c →
  tc_fits tc step = true →
  m !! (root, 0) = Some v →
  Counter.next None c m = (Ret v, <[(root, 0) := tc_wrap tc (v + step)]> m).
Proof.
  intros [rank ->] Hstep Hv.
  unfold Counter.next, Counter.new, array1, Fetch_and_op_SUM, bind, ret; simpl.
  by rewrite Hstep, Hv.
Qed.

(** Whatever the values, the calls observe the progression reduced
    into the range of the type code. *)
Lemma counter_run_wrap (callers : list Counter.t) : ∀ (m : memory) v,
  Forall (Counter.object_of size start step tc root) callers →
  tc_fits tc step = true →
  m !! (root, 0) = Some (tc_wrap tc v) →
  ∃ m', Counter.run callers m
        = (Ret <$> (tc_wrap tc <$> Counter.progression v step (length callers)), m')
        ∧ m' !! (root, 0) = Some (tc_wrap tc (v + Z.of_nat (length callers) * step)).
Proof.
  induction callers as [|c rest IH]; intros m v Hall Hstep Hv.
  - exists m. split; [done|]. simpl. by rewrite Z.add_0_r.
  - apply Forall_cons in Hall as [Hc Hrest].
    destruct (IH (<[(root, 0) := tc_wrap tc (tc_wrap tc v + step)]> m) (v + step))
      as (m' & Hrun & Hm'); [done|done| |].
    { rewrite lookup_insert_eq. by rewrite tc_wrap_add_l. }
    exists m'. split.
    + cbn [Counter.run]. rewrite (counter_next_value c m (tc_wrap tc v)) by done.
      rewrite Hrun. unfold Counter.progression. cbn [length seq fmap list_fmap].
      f_equal. f_equal.
      * by rewrite Z.mul_0_l, Z.add_0_r.
      * rewrite <- seq_shift. rewrite <- !list_fmap_compose.
        apply list_fmap_ext. intros _ i _. simpl. do 2 f_equal. lia.
    + rewrite Hm'. do 2 f_equal. cbn [length]. lia.
Qed.

Lemma counter_window_init_root (m : memory) :
  Counter.window_init size start tc root = Ret m →
  0 ≤ root < Z.of_nat size →
  tc_fits tc start = true ∧ m !! (root, 0) = Some start.
Proof.
  unfold Counter.window_init. destruct (tc_fits tc start) eqn:Hfit; [|done].
  intros [= <-] Hroot. split; [done|].
  rewrite lookup_allocate. rewrite decide_True by lia.
  by rewrite bool_decide_eq_true_2.
Qed.

Lemma progression_NoDup n : step ≠ 0 → NoDup (Counter.progression start step n).
Proof.
  intros Hstep. unfold Counter.progression.
  apply NoDup_fmap_2; [|apply NoDup_seq].
  intros i j Hij. nia.
Qed.
End counter.

(** C2 (as amended).  On a communicator of [size] processes whose
    counter lives on [root], let the calls [next()] of the objects
    [callers] be ordered by the runtime's atomic fetch-and-op.  When the
    step and the terms [start + i * step] handed out fit the type code
    of the counter, the i-th call returns [start + i * step], the value
    of the counter before its own increment; and when moreover the step
    is not zero the values returned are pairwise different. *)
Theorem Counter_next_progression (size : nat) (start step : Z) (tc : typecode) (root : Z)
    (callers : list Counter.t) (m : memory) :
  Forall (Counter.object_of size start step tc root) callers →
  Counter.window_init size start tc root = Ret m →
  0 ≤ root < Z.of_nat size →
  tc_fits tc step = true →
  (∀ i : nat, (i < length callers)%nat → tc_fits tc (start + Z.of_nat i * step) = true) →
  (Counter.run callers m).1 = Ret <$> Counter.progression start step (length callers)
  ∧ (step ≠ 0 → NoDup (Counter.progression start step (length callers))).
Proof.
  intros Hall Hinit Hroot Hstep Hfit.
  destruct (counter_window_init_root _ _ _ _ m Hinit Hroot) as [Hstart Hm].
  split; [|apply progression_NoDup].
  destruct (counter_run_wrap size start step tc root callers m start) as (m' & -> & _);
    [done|done|by rewrite tc_wrap_fits|].
  simpl. f_equal. unfold Counter.progression. rewrite <- list_fmap_compose.
  apply list_fmap_ext. intros k i Hk. simpl.
  apply tc_wrap_fits, Hfit. apply lookup_seq in Hk. lia.
Qed.

Lemma Counter_next_progression_witness :
  let callers := (λ rank, Counter.new 4 rank 10 3 tc_i 0) <$> [2; 0; 3; 1; 2] in
  (Counter.run callers (allocate 4 (λ rank, if bool_decide (rank = 0) then [10] else []))).1
  = Ret <$> [10; 13; 16; 19; 22]
  ∧ (3 ≠ 0 → NoDup [10; 13; 16; 19; 22]).
Proof.
  apply (Counter_next_progression 4 10 3 tc_i 0).
  - repeat constructor; by eexists.
  - reflexivity.
  - lia.
  - reflexivity.
  - intros i Hi. apply bool_decide_eq_true. simpl in Hi.
    unfold tc_min, tc_max; simpl. lia.
Defined.

(** The sentence of the specification fails as it stands: a counter of
    type code ['i'] started at [2147483647] hands out [-2147483648], not
    [2147483648], as its second value; and a counter of step [0] hands
    out the same value twice. *)
Lemma Counter_next_progression_counterexample :
  (let callers := (λ rank, Counter.new 2 rank 2147483647 1 tc_i 0) <$> [0; 1] in
   Counter.window_init 2 2147483647 tc_i 0
   = Ret (allocate 2 (λ rank, if bool_decide (rank = 0) then [2147483647] else []))
   ∧ (Counter.run callers
        (allocate 2 (λ rank, if bool_decide (rank = 0) then [2147483647] else []))).1
     = [Ret 2147483647; Ret (-2147483648)]
   ∧ (Counter.run callers
        (allocate 2 (λ rank, if bool_decide (rank = 0) then [2147483647] else []))).1
     ≠ Ret <$> Counter.progression 2147483647 1 2)
  ∧
  (let callers := (λ rank, Counter.new 2 rank 0 0 tc_i 0) <$> [0; 1] in
   Counter.window_init 2 0 tc_i 0
   = Ret (allocate 2 (λ rank, if bool_decide (rank = 0) then [0] else []))
   ∧ (Counter.run callers
        (allocate 2 (λ rank, if bool_decide (rank = 0) then [0] else []))).1
     = [Ret 0; Ret 0]
   ∧ ¬ NoDup [0; 0]).
Proof.
  split; simpl.
  - repeat split; try reflexivity. discriminate.
  - repeat split; try reflexivity.
    intros H. apply NoDup_cons in H as [H _]. apply H. constructor.
Qed.

(** ** RMA operations on a slot that exists *)

Lemma Accumulate_REPLACE_Some (m : memory) v r d old :
  m !! (r, d) = Some old →
  Accumulate_REPLACE v r d m = (Ret tt, <[(r, d) := v]> m).
Proof. intros H. unfold Accumulate_REPLACE. by rewrite H. Qed.

Lemma Fetch_and_op_REPLACE_Some (m : memory) v r d old :
  m !! (r, d) = Some old →
  Fetch_and_op_REPLACE v r d m = (Ret old, <[(r, d) := v]> m).
Proof. intros H. unfold Fetch_and_op_REPLACE. by rewrite H. Qed.

Lemma Fetch_and_op_NO_OP_Some (m : memory) r d old :
  m !! (r, d) = Some old →
  Fetch_and_op_NO_OP r d m = (Ret old, m).
Proof. intros H. unfold Fetch_and_op_NO_OP. by rewrite H. Qed.

Lemma Compare_and_swap_Some (m : memory) v c r d old :
  m !! (r, d) = Some old →
  Compare_and_swap v c r d m
  = (Ret old, if bool_decide (old = c) then <[(r, d) := v]> m else m).
Proof. intros H. unfold Compare_and_swap. by rewrite H. Qed.

Lemma memoryview_Some (m : memory) r d v :
  m !! (r, d) = Some v → memoryview r d m = (Ret v, m).
Proof. intros H. unfold memoryview. by rewrite H. Qed.

(** ** The waiter queue of a condition *)

Section queue.
Import Condition.

Lemma shaped_insert (size : Z) (m : memory) (k : Z * Z) (v : Z) : shaped size m → shaped size (<[k := v]> m).
Proof.
  intros [Ht Hs]. split.
  - apply lookup_insert_is_Some'. by right.
  - intros r Hr. destruct (Hs r Hr).
    split; apply lookup_insert_is_Some'; by right.
Qed.

Lemma window_init_shaped (size : nat) : (0 < size)%nat → shaped (Z.of_nat size) (window_init size).
Proof.
  intros Hsize. unfold shaped, window_init. split.
  - rewrite lookup_allocate. rewrite decide_True by (unfold tail_rank, tail_id; lia).
    rewrite bool_decide_eq_true_2 by done. by eexists.
  - intros r Hr. rewrite !lookup_allocate.
    rewrite !decide_True by (unfold flag_id, next_id; lia).
    case_bool_decide; split; by eexists.
Qed.

Lemma window_init_queue (size : nat) :
  (0 < size)%nat → queue (Z.of_nat size) (window_init size) [].
Proof.
  intros Hsize. split; [by apply window_init_shaped|].
  split; [constructor|]. split; [by intros r ?%elem_of_nil|]. split.
  - unfold window_init. rewrite lookup_allocate.
    rewrite decide_True by (unfold tail_rank, tail_id; lia).
    by rewrite bool_decide_eq_true_2.
  - by intros i r ?.
Qed.

Lemma queue_length (size : Z) (m : memory) (q : list Z) : queue size m q → Z.of_nat (length q) ≤ Z.max 0 size.
Proof.
  intros (_ & Hnd & Hr & _).
  assert (q ⊆+ seqZ 0 (Z.max 0 size)) as Hsub.
  { apply NoDup_submseteq; [done|]. intros r Hin. apply elem_of_seqZ.
    specialize (Hr r Hin). lia. }
  apply submseteq_length in Hsub. rewrite length_seqZ in Hsub. lia.
Qed.

Lemma successor_last (q : list Z) t :
  last q = Some t → successor q (length q - 1) = head q.
Proof.
  intros Hl. unfold successor.
  rewrite lookup_ge_None_2; [done|].
  destruct q; simpl in *; [done|lia].
Qed.

Lemma enqueue_spec (size : Z) (m : memory) (q : list Z) (p : Z) :
  queue size m q → 0 ≤ p < size → p ∉ q →
  ∃ m', _enqueue p m = (Ret tt, m')
        ∧ queue size m' (q ++ [p])
        ∧ ∀ r, m' !! (r, flag_id) = m !! (r, flag_id).
Proof.
  intros (Hshape & Hnd & Hrange & Htail & Hlink) Hp Hfresh.
  destruct Hshape as [Ht Hs]. destruct (Hs p Hp) as [_ [pn Hpn]].
  assert (NoDup (q ++ [p])) as Hnd'.
  { apply NoDup_app. split; [done|]. split; [|apply NoDup_singleton].
    intros r Hr ->%list_elem_of_singleton. done. }
  assert (∀ r, r ∈ q ++ [p] → 0 ≤ r < size) as Hrange'.
  { intros r [Hr| ->%list_elem_of_singleton]%elem_of_app; auto. }
  destruct (last q) as [t|] eqn:Hlast; simpl in Htail.
  - (* a predecessor [t] *)
    assert (t ∈ q) as Htq.
    { apply last_Some in Hlast as [q' ->]. apply elem_of_app. right. constructor. }
    assert (0 ≤ t < size) as Ht' by auto.
    assert (t ≠ p) as Htp by (intros ->; done).
    assert (q !! (length q - 1)%nat = Some t) as Hidx.
    { rewrite last_lookup in Hlast.
      by replace (length q - 1)%nat with (pred (length q)) by lia. }
    destruct (head q) as [first|] eqn:Hhead; [|by destruct q].
    assert (m !! (t, next_id) = Some first) as Hnext.
    { rewrite (Hlink _ _ Hidx). rewrite (successor_last q t) by done. done. }
    eexists. split; [|split].
    + unfold _enqueue, bind.
      rewrite (Fetch_and_op_REPLACE_Some m _ _ _ _ Htail).
      rewrite bool_decide_eq_false_2 by (pose proof PROC_NULL_neg; unfold null_rank; lia).
      simpl.
      erewrite Fetch_and_op_REPLACE_Some; last first.
      { rewrite lookup_insert_ne by (unfold tail_id, next_id; congruence). done. }
      erewrite Accumulate_REPLACE_Some; [done|].
      rewrite !lookup_insert_ne; [done|unfold tail_id, next_id; congruence|congruence].
    + split; [by repeat apply shaped_insert|].
      split; [done|]. split; [done|]. split.
      * rewrite last_snoc. simpl.
        rewrite !lookup_insert_ne by (unfold tail_id, next_id; congruence).
        by rewrite lookup_insert_eq.
      * intros i r Hir. unfold successor.
        destruct (decide (i = length q)) as [->|Hi].
        { rewrite list_lookup_middle in Hir by done. injection Hir as <-.
          rewrite lookup_insert_eq.
          rewrite lookup_ge_None_2 by (rewrite length_app; simpl; lia).
          by destruct q. }
        assert (q !! i = Some r) as Hqi.
        { rewrite lookup_app_l in Hir; [done|].
          apply lookup_lt_Some in Hir. rewrite length_app in Hir. simpl in Hir. lia. }
        assert (r ≠ p) by (intros ->; apply Hfresh; by eapply list_elem_of_lookup_2).
        rewrite lookup_insert_ne by congruence.
        destruct (decide (r = t)) as [->|Hrt].
        { rewrite lookup_insert_eq.
          assert (i = (length q - 1)%nat) as -> by exact (NoDup_lookup q _ _ t Hnd Hqi Hidx).
          replace (S (length q - 1)) with (length q) by (apply lookup_lt_Some in Hqi; lia).
          by rewrite list_lookup_middle. }
        rewrite lookup_insert_ne by congruence.
        rewrite lookup_insert_ne by (unfold tail_id, next_id; congruence).
        rewrite (Hlink _ _ Hqi). unfold successor.
        assert (S i < length q)%nat as Hlt.
        { pose proof (lookup_lt_Some _ _ _ Hqi).
          destruct (decide (S i = length q)); [|lia].
          exfalso. apply Hrt.
          replace i with (length q - 1)%nat in Hqi by lia. congruence. }
        rewrite (lookup_app_l q [p]) by done.
        destruct (lookup_lt_is_Some_2 q (S i) Hlt) as [x ->]. done.
    + intros r. rewrite !lookup_insert_ne; [done|..]; unfold flag_id, next_id, tail_id; congruence.
  - (* the queue is empty *)
    apply last_None in Hlast as ->.
    eexists. split; [|split].
    + unfold _enqueue, bind.
      rewrite (Fetch_and_op_REPLACE_Some m _ _ _ _ Htail).
      rewrite bool_decide_eq_true_2 by done. simpl. unfold ret.
      erewrite Accumulate_REPLACE_Some; [done|].
      rewrite lookup_insert_ne by (unfold tail_id, next_id; congruence). done.
    + split; [by repeat apply shaped_insert|].
      split; [done|]. split; [done|]. split.
      * simpl. rewrite lookup_insert_ne by (unfold tail_id, next_id; congruence).
        by rewrite lookup_insert_eq.
      * intros [|i] r Hir; [|done]. injection Hir as <-.
        by rewrite lookup_insert_eq.
    + intros r. rewrite !lookup_insert_ne; [done|..]; unfold flag_id, next_id, tail_id; congruence.
Qed.

Lemma enqueue_all_spec (size : Z) (ps : list Z) : ∀ (m : memory) (q : list Z),
  queue size m q → NoDup (q ++ ps) → (∀ p, p ∈ ps → 0 ≤ p < size) →
  ∃ m', enqueue_all ps m = (Ret tt, m')
        ∧ queue size m' (q ++ ps)
        ∧ ∀ r, m' !! (r, flag_id) = m !! (r, flag_id).
Proof.
  induction ps as [|p ps IH]; intros m q Hq Hnd Hps.
  - exists m. by rewrite app_nil_r.
  - apply NoDup_app in Hnd as Hnd'. destruct Hnd' as (_ & Hdisj & _).
    destruct (enqueue_spec size m q p Hq) as (m1 & Henq & Hq1 & Hfl1).
    { apply Hps. constructor. }
    { intros Hin. apply (Hdisj p Hin). constructor. }
    destruct (IH m1 (q ++ [p]) Hq1) as (m2 & Hall & Hq2 & Hfl2).
    { by rewrite <- app_assoc. }
    { intros r Hr. apply Hps. by constructor. }
    exists m2. split; [|split].
    + simpl. unfold bind. by rewrite Henq.
    + by rewrite <- app_assoc in Hq2.
    + intros r. by rewrite Hfl2.
Qed.

(** The loop of [_dequeue] on a queue [q = processes ++ rest]: it
    moves up to [budget] ranks from [rest] to [processes], never
    writes, and ends with [empty] set exactly when nothing is left. *)
Lemma dequeue_loop_spec (m : memory) (q : list Z) (first : Z) :
  head q = Some first → NoDup q → linked m q →
  ∀ (budget : nat) (processes rest : list Z),
    q = processes ++ rest →
    _dequeue_loop budget processes (default first (head rest)) (bool_decide (rest = [])) m
    = (Ret (processes ++ take budget rest,
            default first (head (drop budget rest)),
            bool_decide (drop budget rest = [])), m).
Proof.
  intros Hhead Hnd Hlink.
  induction budget as [|b IH]; intros processes rest Hq.
  - simpl. rewrite drop_0. by rewrite app_nil_r.
  - destruct rest as [|r rest']; simpl.
    + by rewrite app_nil_r.
    + assert (q !! length processes = Some r) as Hqr.
      { rewrite Hq. by rewrite list_lookup_middle. }
      assert (m !! (r, next_id) = Some (default first (head rest'))) as Hnext.
      { rewrite (Hlink _ _ Hqr). unfold successor. rewrite Hq.
        rewrite lookup_app_r by lia.
        replace (S (length processes) - length processes)%nat with 1%nat by lia.
        simpl. destruct rest' as [|r' rest'']; simpl; [|done].
        rewrite <- Hq. by rewrite Hhead. }
      unfold bind. rewrite (Fetch_and_op_NO_OP_Some _ _ _ _ Hnext).
      assert (head (processes ++ [r]) = Some first) as Hhd.
      { rewrite Hq in Hhead. by destruct processes. }
      rewrite Hhd.
      assert (bool_decide (Some first = Some (default first (head rest')))
              = bool_decide (rest' = [])) as ->.
      { destruct rest' as [|r' rest'']; simpl.
        - by apply bool_decide_eq_true_2.
        - transitivity false; [|done].
          apply bool_decide_eq_false_2.
          intros [= <-].
          assert (q !! 0%nat = Some first) as H0 by (by destruct q; simplify_eq/=).
          assert (q !! (S (length processes)) = Some first) as H1.
          { rewrite Hq. rewrite lookup_app_r by lia.
            by replace (S (length processes) - length processes)%nat with 1%nat by lia. }
          pose proof (NoDup_lookup q _ _ _ Hnd H0 H1). lia. }
      rewrite (IH (processes ++ [r]) rest') by (by rewrite <- app_assoc).
      by rewrite <- app_assoc.
Qed.

(** [_dequeue] takes the first [maxnumprocs] ranks, clamped to
    [0 .. group_size], off the queue and leaves the others queued. *)
Lemma dequeue_spec (size : Z) (m : memory) (q : list Z) (maxnumprocs : Z) :
  queue size m q →
  let n := Z.to_nat (Z.max 0 (Z.min maxnumprocs size)) in
  ∃ m', _dequeue size maxnumprocs m = (Ret (take n q), m')
        ∧ queue size m' (drop n q)
        ∧ ∀ r, m' !! (r, flag_id) = m !! (r, flag_id).
Proof.
  intros Hq n. pose proof Hq as (Hshape & Hnd & Hrange & Htail & Hlink).
  destruct (last q) as [t|] eqn:Hlast; simpl in Htail.
  - assert (t ∈ q) as Htq.
    { apply last_Some in Hlast as [q' ->]. apply elem_of_app. right. constructor. }
    assert (0 ≤ t < size) as Ht' by auto.
    assert (q !! (length q - 1)%nat = Some t) as Hidx.
    { rewrite last_lookup in Hlast.
      by replace (length q - 1)%nat with (pred (length q)) by lia. }
    destruct (head q) as [first|] eqn:Hhead; [|by destruct q].
    assert (m !! (t, next_id) = Some first) as Hnext.
    { rewrite (Hlink _ _ Hidx). by rewrite (successor_last q t). }
    unfold _dequeue, bind.
    rewrite (Fetch_and_op_NO_OP_Some _ _ _ _ Htail).
    rewrite bool_decide_eq_false_2 by (pose proof PROC_NULL_neg; unfold null_rank; lia).
    simpl. rewrite (Fetch_and_op_NO_OP_Some _ _ _ _ Hnext).
    fold n.
    pose proof (dequeue_loop_spec m q first Hhead Hnd Hlink n [] q eq_refl) as Hloop.
    rewrite Hhead in Hloop. simpl in Hloop.
    rewrite bool_decide_eq_false_2 in Hloop by (by destruct q).
    rewrite Hloop. simpl.
    destruct (drop n q) as [|f rest] eqn:Hdrop; simpl.
    + (* drained *)
      rewrite (Accumulate_REPLACE_Some _ _ _ _ _ Htail). unfold ret.
      eexists. split; [done|]. split.
      * split; [by apply shaped_insert|]. split; [constructor|].
        split; [by intros r ?%elem_of_nil|]. split.
        -- by rewrite lookup_insert_eq.
        -- by intros i r ?.
      * intros r. rewrite lookup_insert_ne; [done|unfold flag_id, tail_id; congruence].
    + (* ranks are left: the last one is linked to the new first *)
      rewrite (Accumulate_REPLACE_Some _ _ _ _ _ Hnext). unfold ret.
      eexists. split; [done|].
      assert (length (drop n q) = S (length rest)) as Hlen by (by rewrite Hdrop).
      rewrite length_drop in Hlen.
      assert (last (f :: rest) = Some t) as Hlast'.
      { rewrite <- Hdrop. rewrite last_lookup, lookup_drop, length_drop.
        rewrite <- Hidx. f_equal. lia. }
      split.
      * split; [by apply shaped_insert|]. split.
        { rewrite <- Hdrop. pose proof Hnd as Hnd2.
          rewrite <- (take_drop n q) in Hnd2. by apply NoDup_app in Hnd2 as (_ & _ & ?). }
        split.
        { intros r Hr. apply Hrange. rewrite <- Hdrop in Hr.
          rewrite <- (take_drop n q). apply elem_of_app. by right. }
        split.
        { rewrite Hlast'. simpl.
          rewrite lookup_insert_ne by (unfold tail_id, next_id; congruence). done. }
        intros i r Hir. rewrite <- Hdrop in Hir. rewrite lookup_drop in Hir.
        unfold successor. simpl head.
        destruct (decide (r = t)) as [->|Hrt].
        { rewrite lookup_insert_eq.
          assert ((n + i)%nat = (length q - 1)%nat) as Hi
            by exact (NoDup_lookup q _ _ t Hnd Hir Hidx).
          rewrite lookup_ge_None_2; [done|]. simpl. lia. }
        rewrite lookup_insert_ne by congruence.
        rewrite (Hlink _ _ Hir). unfold successor.
        assert (S (n + i) < length q)%nat as Hlt.
        { pose proof (lookup_lt_Some _ _ _ Hir).
          destruct (decide (S (n + i) = length q)); [|lia].
          exfalso. apply Hrt.
          replace (n + i)%nat with (length q - 1)%nat in Hir by lia. congruence. }
        destruct (lookup_lt_is_Some_2 q (S (n + i)) Hlt) as [x Hx]. rewrite Hx.
        rewrite <- Hdrop, lookup_drop.
        replace (n + S i)%nat with (S (n + i)) by lia. by rewrite Hx.
      * intros r. rewrite lookup_insert_ne; [done|unfold flag_id, next_id; congruence].
  - apply last_None in Hlast as ->.
    unfold _dequeue, bind.
    rewrite (Fetch_and_op_NO_OP_Some _ _ _ _ Htail).
    rewrite bool_decide_eq_true_2 by done. simpl. unfold ret.
    exists m. rewrite take_nil, drop_nil. done.
Qed.

Lemma wakeup_spec (size : Z) (ps : list Z) : ∀ (m : memory),
  shaped size m → (∀ p, p ∈ ps → 0 ≤ p < size) →
  ∃ m', _wakeup ps m = (Ret tt, m')
        ∧ (∀ p, p ∈ ps → m' !! (p, flag_id) = Some 1)
        ∧ (∀ r d, (d = flag_id → r ∉ ps) → m' !! (r, d) = m !! (r, d)).
Proof.
  induction ps as [|p ps IH]; intros m Hshape Hps.
  - exists m. split; [done|]. split; [by intros p ?%elem_of_nil|done].
  - destruct Hshape as [Ht Hs]. destruct (Hs p) as [[v Hv] _].
    { apply Hps. constructor. }
    destruct (IH (<[(p, flag_id) := 1]> m)) as (m' & Hw & Hset & Hframe).
    { by apply shaped_insert. }
    { intros r Hr. apply Hps. by constructor. }
    exists m'. split; [|split].
    + simpl. unfold bind. by rewrite (Accumulate_REPLACE_Some _ _ _ _ _ Hv).
    + intros r Hr. destruct (decide (r ∈ ps)) as [Hin|Hnin]; [by apply Hset|].
      apply elem_of_cons in Hr as [Heq|?]; [subst r|done].
      rewrite Hframe by done. by rewrite lookup_insert_eq.
    + intros r d Hrd. rewrite Hframe.
      * rewrite lookup_insert_ne; [done|].
        intros [= <- <-]. apply Hrd; [done|constructor].
      * intros Hd Hin. apply (Hrd Hd). by constructor.
Qed.
End queue.

(** ** Condition: notify, dequeue, wait_for *)

(** C9.  On a window of [size] processes let the ranks [ps] enqueue
    themselves, one after the other, behind the ranks [q0] already
    queued.  Then [_dequeue(maxnumprocs)] with [maxnumprocs >= size]
    returns all the queued ranks, oldest first, and leaves [TAIL] at
    [null_rank]; its loop stops on [empty], the successor read last,
    that of the last rank, being the first rank dequeued. *)
Theorem Condition_dequeue_drains (size : Z) (m0 : memory) (q0 ps : list Z) (maxnumprocs : Z) :
  Condition.queue size m0 q0 →
  NoDup (q0 ++ ps) →
  (∀ p, p ∈ ps → 0 ≤ p < size) →
  size ≤ maxnumprocs →
  ∃ m1 m2,
    Condition.enqueue_all ps m0 = (Ret tt, m1)
    ∧ Condition._dequeue size maxnumprocs m1 = (Ret (q0 ++ ps), m2)
    ∧ m2 !! (Condition.tail_rank, Condition.tail_id) = Some Condition.null_rank
    ∧ Condition.queue size m2 []
    ∧ ∀ first final, head (q0 ++ ps) = Some first → last (q0 ++ ps) = Some final →
        m1 !! (final, Condition.next_id) = Some first
        ∧ Condition._dequeue_loop (Z.to_nat (Z.max 0 (Z.min maxnumprocs size))) [] first false m1
          = (Ret (q0 ++ ps, first, true), m1).
Proof.
  intros Hq0 Hnd Hps Hmax.
  destruct (enqueue_all_spec size ps m0 q0 Hq0 Hnd Hps) as (m1 & Henq & Hq1 & _).
  pose proof (queue_length _ _ _ Hq1) as Hlen.
  destruct (dequeue_spec size m1 (q0 ++ ps) maxnumprocs Hq1) as (m2 & Hdeq & Hq2 & _).
  set (n := Z.to_nat (Z.max 0 (Z.min maxnumprocs size))) in *.
  assert (length (q0 ++ ps) ≤ n)%nat as Hn by (unfold n; lia).
  rewrite take_ge in Hdeq by done. rewrite drop_ge in Hq2 by done.
  exists m1, m2. split; [done|]. split; [done|]. split.
  { by destruct Hq2 as (_ & _ & _ & Htail & _). }
  split; [done|].
  intros first final Hhead Hlast.
  destruct Hq1 as (_ & Hnd1 & _ & _ & Hlink). split.
  - rewrite last_lookup in Hlast. rewrite (Hlink _ _ Hlast).
    unfold Condition.successor. rewrite lookup_ge_None_2; [done|].
    destruct (q0 ++ ps); simpl in *; [done|lia].
  - pose proof (dequeue_loop_spec m1 (q0 ++ ps) first Hhead Hnd1 Hlink n [] (q0 ++ ps) eq_refl)
      as Hloop.
    rewrite Hhead in Hloop. simpl in Hloop.
    rewrite take_ge, drop_ge in Hloop by done. simpl in Hloop.
    rewrite bool_decide_eq_false_2 in Hloop by (by destruct (q0 ++ ps)).
    done.
Qed.

Lemma Condition_dequeue_drains_witness :
  ∃ m1 m2,
    Condition.enqueue_all [2; 0; 3] (Condition.window_init 4) = (Ret tt, m1)
    ∧ Condition._dequeue 4 4 m1 = (Ret ([] ++ [2; 0; 3]), m2)
    ∧ m2 !! (Condition.tail_rank, Condition.tail_id) = Some Condition.null_rank
    ∧ Condition.queue 4 m2 []
    ∧ ∀ first final, head ([] ++ [2; 0; 3]) = Some first → last ([] ++ [2; 0; 3]) = Some final →
        m1 !! (final, Condition.next_id) = Some first
        ∧ Condition._dequeue_loop (Z.to_nat (Z.max 0 (Z.min 4 4))) [] first false m1
          = (Ret ([] ++ [2; 0; 3], first, true), m1).
Proof.
  apply (Condition_dequeue_drains 4 (Condition.window_init 4) [] [2; 0; 3] 4).
  - apply (window_init_queue 4). lia.
  - compute_done.
  - intros p Hp. repeat (apply elem_of_cons in Hp as [->|Hp]; [lia|]). by apply elem_of_nil in Hp.
  - lia.
Defined.

Section condition.
Import Condition.

(** [Condition.locked()] reads the lock and changes nothing. *)
Lemma Condition_locked_state (s : state) : (locked s).2 = s.
Proof.
destruct s as [[l o w] lm m]. unfold locked, lock_locked, bind, gets; simpl.
destruct l as [mx|rm]; simpl.
- unfold mutex, zoom, Mutex.locked, bind, gets; simpl.
  destruct mx as [[|rank size]]; simpl; [done|].
  unfold Mutex.rma, zoom, memoryview; simpl. by destruct (lm !! _).
- unfold rmutex, RMutex.locked, RMutex.block, zoom, Mutex.locked, bind, gets; simpl.
  destruct rm as [[[|rank size]] c]; simpl; [done|].
  unfold Mutex.rma, zoom, memoryview; simpl. by destruct (lm !! _).
Qed.

Lemma take_clamp (size n : Z) (q : list Z) :
Z.of_nat (length q) ≤ Z.max 0 size →
take (Z.to_nat (Z.max 0 (Z.min n size))) q = take (Z.to_nat (Z.max 0 n)) q
∧ drop (Z.to_nat (Z.max 0 (Z.min n size))) q = drop (Z.to_nat (Z.max 0 n)) q.
Proof.
intros Hlen. destruct (decide (n ≤ size)).
- by rewrite Z.min_l by lia.
- rewrite Z.min_r by lia. rewrite !take_ge, !drop_ge by lia. done.
Qed.

(** C8 (as amended).  Let the caller hold the lock of a condition that
  is not freed, and let the ranks [q] wait on it, oldest first.  Then
  [notify(n)] returns [min(max(n, 0), len(q))]; the ranks it dequeues
  are the first that many of [q], each once; it sets the [FLAG] slot
  of each of them to 1 and leaves the other flags as they are; the
  other ranks stay queued. *)
Theorem Condition_notify_count (s : state) (rank size n : Z) (q : list Z) :
_window (self s) = WIN rank size →
(locked s).1 = Ret true →
queue size (mem s) q →
let woken := take (Z.to_nat (Z.max 0 n)) q in
∃ s', notify n s = (Ret (Z.min (Z.max 0 n) (Z.of_nat (length q))), s')
      ∧ (rma (_dequeue size n) s).1 = Ret woken
      ∧ NoDup woken
      ∧ (∀ p, p ∈ woken → mem s' !! (p, flag_id) = Some 1)
      ∧ (∀ r, r ∉ woken → mem s' !! (r, flag_id) = mem s !! (r, flag_id))
      ∧ queue size (mem s') (drop (Z.to_nat (Z.max 0 n)) q)
      ∧ self s' = self s ∧ lock_mem s' = lock_mem s.
Proof.
intros Hwin Hheld Hq woken.
pose proof (queue_length _ _ _ Hq) as Hlen.
destruct (take_clamp size n q Hlen) as [Htake Hdrop].
destruct (dequeue_spec size (mem s) q n Hq) as (m1 & Hdeq & Hq1 & Hfl1).
cbv zeta in Hdeq, Hq1. rewrite Htake in Hdeq. rewrite Hdrop in Hq1. fold woken in Hdeq.
assert (∀ p, p ∈ woken → 0 ≤ p < size) as Hwr.
{ intros p Hp. destruct Hq as (_ & _ & Hr & _). apply Hr.
  rewrite <- (take_drop (Z.to_nat (Z.max 0 n)) q). apply elem_of_app. by left. }
destruct (wakeup_spec size woken m1) as (m2 & Hwake & Hset & Hframe);
  [by destruct Hq1|done|].
assert (NoDup woken) as Hndw.
{ destruct Hq as (_ & Hnd & _). rewrite <- (take_drop (Z.to_nat (Z.max 0 n)) q) in Hnd.
  by apply NoDup_app in Hnd as (? & _ & _). }
exists {| self := self s; lock_mem := lock_mem s; mem := m2 |}.
split; [|split; [|split; [done|split; [done|split; [|split; [|done]]]]]].
- unfold notify, bind, gets. rewrite Hwin.
  pose proof (Condition_locked_state s) as Hst.
  destruct (locked s) as [o s1]. simpl in Hheld, Hst. subst o s1. simpl.
  unfold rma at 1, zoom. rewrite Hdeq.
  unfold rma, zoom. simpl. rewrite Hwake. unfold ret. do 2 f_equal.
  unfold woken. rewrite length_take. lia.
- unfold rma, zoom. by rewrite Hdeq.
- intros r Hr. simpl. rewrite Hframe by done. apply Hfl1.
- simpl. destruct Hq1 as (Hshape & Hnd & Hr & Htail & Hlink).
  destruct Hshape as [[t Ht] Hs].
  split; [|split; [done|split; [done|split]]].
  + split.
    * rewrite Hframe by (unfold tail_id, flag_id; congruence). by eexists.
    * intros r Hr'. destruct (Hs r Hr') as [[v Hv] [v' Hv']]. split.
      -- destruct (decide (r ∈ woken)); [rewrite Hset by done; by eexists|].
         rewrite Hframe by done. by eexists.
      -- rewrite Hframe by (unfold next_id, flag_id; congruence). by eexists.
  + rewrite Hframe by (unfold tail_id, flag_id; congruence). done.
  + intros i r Hir. rewrite Hframe by (unfold next_id, flag_id; congruence). by apply Hlink.
Qed.

Lemma Condition_notify_count_witness :
let held := (acquire 0 true {| self := new 4 0 None;
                               lock_mem := Mutex.window_init 4;
                               mem := window_init 4 |}).2 in
let s := {| self := self held;
            lock_mem := lock_mem held;
            mem := (enqueue_all [1; 2; 3] (window_init 4)).2 |} in
let woken := take (Z.to_nat (Z.max 0 2)) [1; 2; 3] in
∃ s', notify 2 s = (Ret (Z.min (Z.max 0 2) (Z.of_nat (length [1; 2; 3]))), s')
      ∧ (rma (_dequeue 4 2) s).1 = Ret woken
      ∧ NoDup woken
      ∧ (∀ p, p ∈ woken → mem s' !! (p, flag_id) = Some 1)
      ∧ (∀ r, r ∉ woken → mem s' !! (r, flag_id) = mem s !! (r, flag_id))
      ∧ queue 4 (mem s') (drop (Z.to_nat (Z.max 0 2)) [1; 2; 3])
      ∧ self s' = self s ∧ lock_mem s' = lock_mem s.
Proof.
intros held s.
apply (Condition_notify_count s 0 4 2 [1; 2; 3]).
- reflexivity.
- vm_compute. reflexivity.
- destruct (enqueue_all_spec 4 [1; 2; 3] (window_init 4) [])
    as (m' & Henq & Hq & _).
  + apply (window_init_queue 4). lia.
  + compute_done.
  + intros p Hp. repeat (apply elem_of_cons in Hp as [->|Hp]; [lia|]).
    by apply elem_of_nil in Hp.
  + change (queue 4 (enqueue_all [1; 2; 3] (window_init 4)).2 [1; 2; 3]).
    rewrite Henq. exact Hq.
Defined.

(** The sentence of the specification fails for a negative [n]: the
  holder's [notify(-1)] on a condition nobody waits on returns 0,
  which is not [min(-1, 0)]. *)
Lemma Condition_notify_count_counterexample :
let s := (acquire 0 true {| self := new 2 0 None;
                            lock_mem := Mutex.window_init 2;
                            mem := window_init 2 |}).2 in
_window (self s) = WIN 0 2
∧ (locked s).1 = Ret true
∧ queue 2 (mem s) []
∧ (notify (-1) s).1 = Ret 0
∧ (notify (-1) s).1 ≠ Ret (Z.min (-1) (Z.of_nat (length (@nil Z)))).
Proof.
intros s. split; [reflexivity|]. split; [by vm_compute|]. split.
{ apply (window_init_queue 2). lia. }
split; [by vm_compute|]. vm_compute. discriminate.
Qed.

(** C10.  When the first evaluation of the predicate returns a truthy
  value [v], [wait_for] returns [v] and leaves the state as the
  predicate left it: [wait] is not called.  Nothing is asked of the
  state: the condition may be freed and the caller need not hold the
  lock, and still the call neither raises nor waits. *)
Theorem Condition_wait_for_truthy (rounds polls : nat) (predicate : M state value)
  (s s' : state) (v : value) :
predicate s = (Ret v, s') →
truthy v = true →
wait_for rounds polls predicate s = (Ret v, s').
Proof.
intros Hp Hv. unfold wait_for, bind. rewrite Hp.
destruct rounds; simpl; by rewrite Hv.
Qed.

Lemma Condition_wait_for_truthy_witness :
let s := (free 0 {| self := new 2 1 None;
                    lock_mem := Mutex.window_init 2;
                    mem := window_init 2 |}).2 in
_window (self s) = WIN_NULL
∧ (locked s).1 = Raise (RuntimeError "mutex already freed")
∧ (wait 5 s).1 = Raise (RuntimeError "condition already freed")
∧ wait_for 3 5 (ret (VInt 7)) s = (Ret (VInt 7), s).
Proof.
intros s. split; [reflexivity|]. split; [reflexivity|]. split; [reflexivity|].
apply (Condition_wait_for_truthy 3 5 (ret (VInt 7)) s s (VInt 7)); reflexivity.
Defined.

End condition.

(** ** Mutex: one call, nobody else stepping *)

Section mutex.
Import Mutex.

(** C5.  Let a process that does not hold the mutex call
    [acquire(blocking=False)] while [TAIL] holds a rank.  The call
    returns [False] whatever number of polls it is allowed, so without
    entering a spin loop; it writes [null_rank] into the caller's own
    [NEXT] slot and 0 into its own [LOCK] slot, which held 0 already,
    and nothing else: [TAIL] keeps its value and no other [NEXT] slot
    is written, so the caller is not enqueued. *)
Theorem Mutex_acquire_nonblocking_contended (polls : nat) (s : state)
    (rank size tail next : Z) :
  _window (self s) = WIN rank size →
  mem s !! (rank, lock_id) = Some 0 →
  mem s !! (rank, next_id) = Some next →
  mem s !! (tail_rank, tail_id) = Some tail →
  tail ≠ null_rank →
  ∃ s', acquire polls false s = (Ret false, s')
        ∧ self s' = self s
        ∧ mem s' = <[(rank, next_id) := null_rank]> (mem s)
        ∧ mem s' !! (tail_rank, tail_id) = Some tail
        ∧ (∀ r, r ≠ rank → mem s' !! (r, next_id) = mem s !! (r, next_id))
        ∧ (∀ r, mem s' !! (r, lock_id) = mem s !! (r, lock_id)).
Proof.
  intros Hwin Hlock Hnext Htail Hcont.
  exists {| self := self s; mem := <[(rank, next_id) := null_rank]> (mem s) |}.
  split; [|split; [done|split; [done|split; [|split]]]]; simpl.
  - unfold acquire, bind, gets. rewrite Hwin.
    unfold locked, bind, gets. rewrite Hwin.
    unfold rma at 1, zoom. rewrite (memoryview_Some _ _ _ _ Hlock). simpl.
    unfold rma at 1, zoom. rewrite (Accumulate_REPLACE_Some _ _ _ _ _ Hnext). simpl.
    unfold rma at 1, zoom. simpl.
    erewrite Compare_and_swap_Some; last first.
    { rewrite lookup_insert_ne by (unfold next_id, tail_id; congruence). done. }
    rewrite (bool_decide_eq_false_2 (tail = null_rank)) by done. simpl.
    unfold ret, rma, zoom. simpl.
    erewrite Accumulate_REPLACE_Some; last first.
    { rewrite lookup_insert_ne by (unfold next_id, lock_id; congruence). done. }
    do 2 f_equal. apply insert_id.
    rewrite lookup_insert_ne by (unfold next_id, lock_id; congruence). done.
  - rewrite lookup_insert_ne by (unfold next_id, tail_id; congruence). done.
  - intros r Hr. rewrite lookup_insert_ne by congruence. done.
  - intros r. rewrite lookup_insert_ne by (unfold next_id, lock_id; congruence). done.
Qed.

(** C6.  Let a process call [acquire()] and then [release()] on a mutex
    nobody holds or waits for ([TAIL] is [null_rank]), with no other
    process stepping.  Both calls return without polling; afterwards
    [TAIL] is [null_rank] again and every [LOCK] slot holds what it
    held, 0 if it held 0; the only slot that may differ is the
    caller's own [NEXT], which holds [null_rank], so that the window is
    the very same when it did before, as it does in a fresh window. *)
Theorem Mutex_acquire_release_roundtrip (polls : nat) (s : state) (rank size next : Z) :
  _window (self s) = WIN rank size →
  mem s !! (rank, lock_id) = Some 0 →
  mem s !! (rank, next_id) = Some next →
  mem s !! (tail_rank, tail_id) = Some null_rank →
  0 ≤ rank →
  ∃ s1 s2,
    acquire polls true s = (Ret true, s1)
    ∧ release polls s1 = (Ret tt, s2)
    ∧ self s2 = self s
    ∧ mem s2 = <[(rank, next_id) := null_rank]> (mem s)
    ∧ mem s2 !! (tail_rank, tail_id) = Some null_rank
    ∧ (∀ r, mem s2 !! (r, lock_id) = mem s !! (r, lock_id))
    ∧ (next = null_rank → s2 = s).
Proof.
  intros Hwin Hlock Hnext Htail Hrank.
  set (m1 := <[(rank, lock_id) := 1]>
               (<[(tail_rank, tail_id) := rank]>
                  (<[(rank, next_id) := null_rank]> (mem s)))).
  assert (rank ≠ null_rank) as Hnn by (pose proof PROC_NULL_neg; unfold null_rank; lia).
  exists {| self := self s; mem := m1 |},
         {| self := self s; mem := <[(rank, next_id) := null_rank]> (mem s) |}.
  split; [|split; [|split; [done|split; [done|split; [|split]]]]]; simpl.
  - unfold acquire, bind, gets. rewrite Hwin.
    unfold locked, bind, gets. rewrite Hwin.
    unfold rma at 1, zoom. rewrite (memoryview_Some _ _ _ _ Hlock). simpl.
    unfold rma at 1, zoom. rewrite (Accumulate_REPLACE_Some _ _ _ _ _ Hnext). simpl.
    unfold rma at 1, zoom. simpl.
    erewrite Fetch_and_op_REPLACE_Some; last first.
    { rewrite lookup_insert_ne by (unfold next_id, tail_id; congruence). done. }
    rewrite (bool_decide_eq_true_2 (null_rank = null_rank)) by done. simpl.
    unfold ret, rma, zoom. simpl.
    erewrite Accumulate_REPLACE_Some; [done|].
    rewrite !lookup_insert_ne; [done|unfold next_id, lock_id; congruence
                               |unfold tail_id, lock_id; congruence].
  - unfold release, bind, gets. simpl. rewrite Hwin.
    unfold locked, bind, gets. simpl. rewrite Hwin.
    unfold rma at 1, zoom. simpl.
    erewrite memoryview_Some; last by (unfold m1; rewrite lookup_insert_eq).
    simpl. unfold rma at 1, zoom. simpl.
    erewrite Compare_and_swap_Some; last first.
    { unfold m1. rewrite lookup_insert_ne by (unfold tail_id, lock_id; congruence).
      by rewrite lookup_insert_eq. }
    rewrite (bool_decide_eq_true_2 (rank = rank)) by done. simpl.
    unfold ret, rma, zoom. simpl.
    erewrite Accumulate_REPLACE_Some; last first.
    { rewrite lookup_insert_ne by (unfold tail_id, lock_id; congruence).
      unfold m1. by rewrite lookup_insert_eq. }
    do 2 f_equal. unfold m1. apply map_eq. intros [r d].
    destruct (decide ((r, d) = (rank, lock_id))) as [->|Hl].
    { rewrite lookup_insert_eq.
      rewrite lookup_insert_ne by (unfold next_id, lock_id; congruence). done. }
    rewrite lookup_insert_ne by done.
    destruct (decide ((r, d) = (tail_rank, tail_id))) as [->|Ht].
    { rewrite lookup_insert_eq.
      rewrite lookup_insert_ne by (unfold next_id, tail_id; congruence). done. }
    rewrite lookup_insert_ne by done.
    rewrite lookup_insert_ne by done.
    rewrite lookup_insert_ne by done. done.
  - rewrite lookup_insert_ne by (unfold next_id, tail_id; congruence). done.
  - intros r. rewrite lookup_insert_ne by (unfold next_id, lock_id; congruence). done.
  - intros ->. destruct s as [o m]. simpl in *. f_equal. by apply insert_id.
Qed.
End mutex.

Lemma Mutex_acquire_nonblocking_contended_witness :
  let held := (Mutex.acquire 0 true {| Mutex.self := Mutex.new 3 0;
                                       Mutex.mem := Mutex.window_init 3 |}).2 in
  let s := {| Mutex.self := Mutex.new 3 1; Mutex.mem := Mutex.mem held |} in
  ∃ s', Mutex.acquire 0 false s = (Ret false, s')
        ∧ Mutex.self s' = Mutex.self s
        ∧ Mutex.mem s' = <[(1, Mutex.next_id) := Mutex.null_rank]> (Mutex.mem s)
        ∧ Mutex.mem s' !! (Mutex.tail_rank, Mutex.tail_id) = Some 0
        ∧ (∀ r, r ≠ 1 → Mutex.mem s' !! (r, Mutex.next_id) = Mutex.mem s !! (r, Mutex.next_id))
        ∧ (∀ r, Mutex.mem s' !! (r, Mutex.lock_id) = Mutex.mem s !! (r, Mutex.lock_id)).
Proof.
  intros held s.
  apply (Mutex_acquire_nonblocking_contended 0 s 1 3 0 Mutex.null_rank);
    [reflexivity|reflexivity|reflexivity|reflexivity|discriminate].
Defined.

Lemma Mutex_acquire_release_roundtrip_witness :
  let s := {| Mutex.self := Mutex.new 3 2; Mutex.mem := Mutex.window_init 3 |} in
  ∃ s1 s2,
    Mutex.acquire 0 true s = (Ret true, s1)
    ∧ Mutex.release 0 s1 = (Ret tt, s2)
    ∧ Mutex.self s2 = Mutex.self s
    ∧ Mutex.mem s2 = <[(2, Mutex.next_id) := Mutex.null_rank]> (Mutex.mem s)
    ∧ Mutex.mem s2 !! (Mutex.tail_rank, Mutex.tail_id) = Some Mutex.null_rank
    ∧ (∀ r, Mutex.mem s2 !! (r, Mutex.lock_id) = Mutex.mem s !! (r, Mutex.lock_id))
    ∧ (Mutex.null_rank = Mutex.null_rank → s2 = s).
Proof.
  intros s.
  apply (Mutex_acquire_release_roundtrip 0 s 2 3 Mutex.null_rank);
    [reflexivity|reflexivity|reflexivity|reflexivity|lia].
Defined.

(** ** After [free()] *)

Lemma bind_Ret_inv {S A B} (m : M S A) (k : A → M S B) (s s' : S) (b : B) :
  bind m k s = (Ret b, s') → ∃ a s1, m s = (Ret a, s1) ∧ k a s1 = (Ret b, s').
Proof.
  unfold bind. destruct (m s) as [[a|e|] s1]; [|done|done]. intros H. by exists a, s1.
Qed.

Lemma zoom_Ret_inv {S T A} (proj : S → T) (inj : T → S → S) (m : M T A) (s s' : S) (a : A) :
  zoom proj inj m s = (Ret a, s') → ∃ t, m (proj s) = (Ret a, t) ∧ s' = inj t s.
Proof.
  unfold zoom. destruct (m (proj s)) as [o t]. intros [= -> <-]. by exists t.
Qed.

Lemma Mutex_free_null (polls : nat) (s s' : Mutex.state) :
  Mutex.free polls s = (Ret tt, s') →
  Mutex._window (Mutex.self s') = WIN_NULL.
Proof.
  unfold Mutex.free. intros (self & s1 & _ & H)%bind_Ret_inv.
  apply bind_Ret_inv in H as (_ & s2 & _ & H).
  unfold modify in H. by injection H as <-.
Qed.

Lemma Mutex_null_raises (polls : nat) (s : Mutex.state) (o : Mutex.op) :
  Mutex._window (Mutex.self s) = WIN_NULL →
  o ≠ Mutex.Free →
  Mutex.call polls o s = (Raise (RuntimeError "mutex already freed"), s).
Proof.
  intros Hnull Ho. destruct o; [| | |done];
    unfold Mutex.call, map_ret, Mutex.acquire, Mutex.release, Mutex.locked, bind, gets;
    simpl; by rewrite Hnull.
Qed.

Lemma RMutex_free_null (polls : nat) (s s' : RMutex.state) :
  RMutex.free polls s = (Ret tt, s') →
  Mutex._window (RMutex._block (RMutex.self s')) = WIN_NULL.
Proof.
  unfold RMutex.free. intros ([] & s1 & H1 & H)%bind_Ret_inv.
  unfold RMutex.block in H1. apply zoom_Ret_inv in H1 as (t & Hfree & ->).
  apply Mutex_free_null in Hfree.
  unfold RMutex.set_count, modify in H. injection H as <-. done.
Qed.

Lemma RMutex_null_raises (polls : nat) (s : RMutex.state) (o : RMutex.op) :
  Mutex._window (RMutex._block (RMutex.self s)) = WIN_NULL →
  o ≠ RMutex.Free → o ≠ RMutex.Count →
  ∃ s', RMutex.call polls o s = (Raise (RuntimeError "mutex already freed"), s').
Proof.
  intros Hnull Ho Hc. destruct o; [| | |done|done];
    unfold RMutex.call, map_ret, RMutex.acquire, RMutex.release, RMutex.locked,
      RMutex.block, zoom, Mutex.locked, bind, gets;
    simpl; rewrite Hnull; by eexists.
Qed.

Section condition_free.
Import Condition.

Lemma mutex_owned_window {A} (op : M Mutex.state A) (s s' : state) (o : outcome A) :
  mutex op s = (o, s') →
  _lock_owned (self s') = _lock_owned (self s) ∧ _window (self s') = _window (self s).
Proof.
  unfold mutex, zoom. destruct (op _) as [o' ms]. by intros [= _ <-].
Qed.

Lemma mutex_Ret_inv {A} (op : M Mutex.state A) (s s' : state) (a : A) :
  mutex op s = (Ret a, s') →
  ∃ ms, op {| Mutex.self := the_mutex (_lock (self s)); Mutex.mem := lock_mem s |} = (Ret a, ms)
        ∧ the_mutex (_lock (self s')) = Mutex.self ms.
Proof.
  unfold mutex. intros (ms & Hop & ->)%zoom_Ret_inv. exists ms. split; [done|].
  simpl. by destruct (_lock (self s)).
Qed.

Lemma rmutex_owned_window {A} (r : RMutex.t) (op : M RMutex.state A) (s s' : state)
    (o : outcome A) :
  rmutex r op s = (o, s') →
  _lock_owned (self s') = _lock_owned (self s) ∧ _window (self s') = _window (self s).
Proof.
  unfold rmutex. destruct (op _) as [o' rs]. by intros [= _ <-].
Qed.

Lemma lock_reset_owned (polls : nat) (s s' : state) :
  _lock_reset polls s = (Ret tt, s') →
  _lock_owned (self s') = _lock_owned (self s).
Proof.
  unfold _lock_reset. intros (c & s1 & [= <- <-] & H)%bind_Ret_inv.
  apply bind_Ret_inv in H as ([] & s2 & H2 & H).
  assert (_lock_owned (self s2) = _lock_owned (self s)) as <-.
  { destruct (_lock (self s)); unfold modify, ret in H2; by injection H2 as <-. }
  apply bind_Ret_inv in H as (c' & s3 & [= <- <-] & H).
  destruct (Win_bool _); [|unfold ret in H; by injection H as <-].
  apply bind_Ret_inv in H as (held & s4 & H4 & H).
  apply mutex_owned_window in H4 as [<- _].
  destruct held; [|unfold ret in H; by injection H as <-].
  by apply mutex_owned_window in H as [-> _].
Qed.

Lemma lock_free_null (polls : nat) (s s' : state) :
  _lock_free polls s = (Ret tt, s') →
  _lock_owned (self s) = true →
  Mutex._window (the_mutex (_lock (self s'))) = WIN_NULL.
Proof.
  unfold _lock_free. intros (c & s1 & [= <- <-] & H)%bind_Ret_inv Hown.
  rewrite Hown in H. destruct (_lock (self s)) as [m|r] eqn:Hl.
  - apply mutex_Ret_inv in H as (ms & Hfree & ->). by apply Mutex_free_null in Hfree.
  - unfold rmutex in H.
    destruct (RMutex.free polls _) as [o rs] eqn:Hfree. injection H as -> <-.
    apply RMutex_free_null in Hfree. done.
Qed.

Lemma Condition_free_null (polls : nat) (s s' : state) :
  free polls s = (Ret tt, s') →
  _window (self s') = WIN_NULL
  ∧ (_lock_owned (self s) = true →
     Mutex._window (the_mutex (_lock (self s'))) = WIN_NULL).
Proof.
  unfold free. intros ([] & s1 & H1 & H)%bind_Ret_inv.
  apply bind_Ret_inv in H as ([] & s2 & H2 & H).
  unfold modify in H. injection H as <-. split; [done|]. simpl.
  intros Hown. apply (lock_free_null polls s1); [done|].
  by rewrite (lock_reset_owned _ _ _ H1).
Qed.

Lemma Condition_locked_null (s : state) :
  Mutex._window (the_mutex (_lock (self s))) = WIN_NULL →
  (locked s).1 = Raise (RuntimeError "mutex already freed").
Proof.
  intros Hnull. unfold locked, lock_locked, bind, gets.
  destruct s as [[l o w] lm m]; simpl in *. destruct l as [mx|rm]; simpl in *.
  - unfold mutex, zoom, Mutex.locked, bind, gets; simpl. by rewrite Hnull.
  - unfold rmutex, RMutex.locked, RMutex.block, zoom, Mutex.locked, bind, gets; simpl.
    by rewrite Hnull.
Qed.

Lemma Condition_wait_null (polls : nat) (s : state) :
  _window (self s) = WIN_NULL →
  wait polls s = (Raise (RuntimeError "condition already freed"), s).
Proof. intros Hnull. unfold wait, bind, gets. by rewrite Hnull. Qed.
End condition_free.

(** C3 (as amended).  Once [free()] has returned, the operations that
    check their window raise [AlreadyFreed]: [Counter.next];
    [Mutex.acquire], [release] and [locked]; [RMutex.acquire],
    [release] and [locked]; [Condition.acquire], [release], [wait],
    [notify] and [notify_all]; [Condition.wait_for] when the first
    evaluation of its predicate is falsy, since it then calls [wait];
    and [Condition.locked] when the condition allocated its lock, which
    [free] has then freed too. *)
Theorem AlreadyFreed_after_free :
  (∀ (c : Counter.t) (m : memory) (o : Counter.op),
     o ≠ Counter.Free →
     raises_AlreadyFreed (Counter.call o (Counter.free c, m)).1)
  ∧ (∀ (polls polls' : nat) (s s' : Mutex.state) (o : Mutex.op),
     Mutex.free polls s = (Ret tt, s') →
     o ≠ Mutex.Free →
     raises_AlreadyFreed (Mutex.call polls' o s').1)
  ∧ (∀ (polls polls' : nat) (s s' : RMutex.state) (o : RMutex.op),
     RMutex.free polls s = (Ret tt, s') →
     o ≠ RMutex.Free → o ≠ RMutex.Count →
     raises_AlreadyFreed (RMutex.call polls' o s').1)
  ∧ (∀ (polls polls' rounds : nat) (s s' : Condition.state) (o : Condition.op),
     Condition.free polls s = (Ret tt, s') →
     match o with
     | Condition.Free => True
     | Condition.Locked =>
         Condition._lock_owned (Condition.self s) = true →
         raises_AlreadyFreed (Condition.call rounds polls' o s').1
     | Condition.Wait_for predicate =>
         ∀ v s2, predicate s' = (Ret v, s2) → truthy v = false →
                 Condition._window (Condition.self s2) = WIN_NULL →
                 raises_AlreadyFreed (Condition.call (S rounds) polls' o s').1
     | _ => raises_AlreadyFreed (Condition.call rounds polls' o s').1
     end).
Proof.
  split; [|split; [|split]].
  - intros c m o Ho. exists (RuntimeError "counter already freed").
    split; [|done]. by destruct o.
  - intros polls polls' s s' o Hfree Ho.
    exists (RuntimeError "mutex already freed"). split; [|done].
    rewrite Mutex_null_raises; [done| |done]. by eapply Mutex_free_null.
  - intros polls polls' s s' o Hfree Ho Hc.
    exists (RuntimeError "mutex already freed"). split; [|done].
    destruct (RMutex_null_raises polls' s' o) as [s2 ->]; [|done|done|done].
    by eapply RMutex_free_null.
  - intros polls polls' rounds s s' o Hfree.
    destruct (Condition_free_null _ _ _ Hfree) as [Hnull Hlock].
    destruct o; try done.
    1,2,4,6,7: exists (RuntimeError "condition already freed"); split; [|done].
    1-5: unfold Condition.call, map_ret, Condition.acquire, Condition.release,
           Condition.wait, Condition.notify_all, Condition.notify, bind, gets;
         by rewrite Hnull.
    + intros Hown. exists (RuntimeError "mutex already freed"). split; [|done].
      unfold Condition.call, map_ret.
      pose proof (Condition_locked_null s' (Hlock Hown)) as H.
      destruct (Condition.locked s') as [o s2]. simpl in *. by subst o.
    + intros v s2 Hp Hv Hnull2. exists (RuntimeError "condition already freed").
      split; [|done].
      unfold Condition.call, Condition.wait_for, bind. rewrite Hp.
      simpl. rewrite Hv. simpl. unfold bind.
      by rewrite (Condition_wait_null polls' s2 Hnull2).
Qed.

Lemma AlreadyFreed_after_free_witness :
  (let s := {| Mutex.self := Mutex.new 2 0; Mutex.mem := Mutex.window_init 2 |} in
   raises_AlreadyFreed (Mutex.call 0 (Mutex.Acquire true) (Mutex.free 0 s).2).1)
  ∧
  (let s := {| Condition.self := Condition.new 2 0 None;
               Condition.lock_mem := Mutex.window_init 2;
               Condition.mem := Condition.window_init 2 |} in
   raises_AlreadyFreed (Condition.call 0 0 Condition.Wait (Condition.free 0 s).2).1).
Proof.
  destruct AlreadyFreed_after_free as (_ & Hmutex & _ & Hcond). split.
  - intros s. apply (Hmutex 0%nat 0%nat s (Mutex.free 0 s).2 (Mutex.Acquire true));
      [reflexivity|discriminate].
  - intros s.
    apply (Hcond 0%nat 0%nat 0%nat s (Condition.free 0 s).2 Condition.Wait). reflexivity.
Defined.

(** The sentence of the specification fails as it stands.  After
    [free()], [Condition.wait_for] of a predicate that is true at once
    returns its value; [Condition.locked()] of a condition built on a
    mutex of the caller's returns [False]; [RMutex.count()] returns 0;
    and a second [free()] returns. *)
Lemma AlreadyFreed_after_free_counterexample :
  (let s := {| Condition.self := Condition.new 2 0 None;
               Condition.lock_mem := Mutex.window_init 2;
               Condition.mem := Condition.window_init 2 |} in
   let s' := (Condition.free 0 s).2 in
   Condition.free 0 s = (Ret tt, s')
   ∧ Condition.call 1 0 (Condition.Wait_for (ret (VBool true))) s' = (Ret (VBool true), s')
   ∧ ¬ raises_AlreadyFreed
         (Condition.call 1 0 (Condition.Wait_for (ret (VBool true))) s').1
   ∧ (Condition.call 1 0 Condition.Free s').1 = Ret VNone)
  ∧
  (let s := {| Condition.self :=
                 Condition.new 2 0 (Some (Condition.Plain (Mutex.new 2 0)));
               Condition.lock_mem := Mutex.window_init 2;
               Condition.mem := Condition.window_init 2 |} in
   let s' := (Condition.free 0 s).2 in
   Condition.free 0 s = (Ret tt, s')
   ∧ (Condition.call 1 0 Condition.Locked s').1 = Ret (VBool false)
   ∧ ¬ raises_AlreadyFreed (Condition.call 1 0 Condition.Locked s').1)
  ∧
  (let s := {| RMutex.self := RMutex.new 2 0; RMutex.mem := Mutex.window_init 2 |} in
   let s' := (RMutex.free 0 s).2 in
   RMutex.free 0 s = (Ret tt, s')
   ∧ (RMutex.call 0 RMutex.Count s').1 = Ret (VInt 0)
   ∧ ¬ raises_AlreadyFreed (RMutex.call 0 RMutex.Count s').1).
Proof.
  split; [|split]; intros s s'.
  - split; [reflexivity|]. split; [reflexivity|]. split; [|reflexivity].
    intros (e & He & _). discriminate He.
  - split; [reflexivity|]. split; [reflexivity|].
    intros (e & He & _). discriminate He.
  - split; [reflexivity|]. split; [reflexivity|].
    intros (e & He & _). discriminate He.
Qed.

(** ** Sequential: the order of the sections *)

Section sequential.
Import Sequential.

Ltac fn_simpl :=
  repeat first
    [ rewrite fn_lookup_insert
    | rewrite fn_lookup_insert_ne by lia ].

Lemma sequential_inv_step (size rank : Z) (st st' : state) :
  0 ≤ rank < size →
  invariant size st →
  step size rank st = Some st' →
  invariant size st'.
Proof.
  intros Hrank [H1 H2]. unfold step.
  pose proof (H1 rank) as H1r.
  destruct (phases st rank) eqn:Hph.
  - (* [begin] *)
    unfold begin. case_bool_decide as Hsize.
    + intros [= <-]. split; [|done].
      intros r. simpl. destruct (decide (r = rank)) as [->|]; fn_simpl; [lia|apply H1].
    + case_bool_decide as H0; simpl.
      * intros [= <-]. split.
        -- intros r. simpl. destruct (decide (r = rank)) as [->|]; fn_simpl; [lia|apply H1].
        -- intros _ r Hr0 Hr. simpl. specialize (H2 Hsize r Hr0 Hr).
           destruct (decide (r = rank)) as [->|]; fn_simpl; lia.
      * unfold Recv. destruct (inbox st rank) as [|n] eqn:Hin; [done|].
        intros [= <-]. split.
        -- intros r. simpl. destruct (decide (r = rank)) as [->|]; fn_simpl; [lia|apply H1].
        -- intros _ r Hr0 Hr. simpl. specialize (H2 Hsize r Hr0 Hr).
           destruct (decide (r + 1 = rank)) as [Heq|]; fn_simpl.
           ++ rewrite Heq in *. fn_simpl. lia.
           ++ done.
  - (* [end] *)
    intros [= <-]. unfold end_. case_bool_decide as Hsize.
    + split; [|done].
      intros r. simpl. destruct (decide (r = rank)) as [->|]; fn_simpl; [lia|apply H1].
    + case_bool_decide as Hlast; simpl.
      * split.
        -- intros r. simpl. destruct (decide (r = rank)) as [->|]; fn_simpl; [lia|apply H1].
        -- intros _ r Hr0 Hr. simpl. specialize (H2 Hsize r Hr0 Hr).
           destruct (decide (r = rank)) as [->|]; fn_simpl; lia.
      * split.
        -- intros r. simpl. destruct (decide (r = rank)) as [->|]; fn_simpl; [lia|apply H1].
        -- intros _ r Hr0 Hr. simpl. specialize (H2 Hsize r Hr0 Hr).
           destruct (decide (r = rank)) as [->|]; fn_simpl; [lia|done].
Qed.

Lemma sequential_inv_reachable (size : Z) (st : state) :
  reachable size st → invariant size st.
Proof.
  induction 1 as [|st rank st' _ IH Hrank Hstep].
  - split; [done|]. by intros.
  - by eapply sequential_inv_step.
Qed.

Lemma sequential_chain (size : Z) (st : state) :
  Sequential.invariant size st →
  ∀ (d : nat) (j : Z), 0 ≤ j → j + 1 + Z.of_nat d < size →
    (begun st (j + 1 + Z.of_nat d) ≤ ended st j)%nat.
Proof.
  intros [H1 H2]. induction d as [|d IH]; intros j Hj Hlt.
  - assert (size ≠ 1) as Hsize by lia.
    rewrite (H2 Hsize j) by lia. replace (j + 1 + Z.of_nat 0) with (j + 1) by lia. lia.
  - assert (size ≠ 1) as Hsize by lia.
    specialize (IH (j + 1) ltac:(lia) ltac:(lia)).
    replace (j + 1 + 1 + Z.of_nat d) with (j + 1 + Z.of_nat (S d)) in IH by lia.
    pose proof (H1 (j + 1)). pose proof (H2 Hsize j ltac:(lia) ltac:(lia)). lia.
Qed.

Lemma run_reachable (size : Z) (schedule : list Z) : ∀ st st',
  reachable size st →
  Forall (λ rank, 0 ≤ rank < size) schedule →
  run size schedule st = Some st' →
  reachable size st'.
Proof.
  induction schedule as [|rank rest IH]; intros st st' Hst Hall Hrun; simpl in Hrun.
  - by injection Hrun as <-.
  - apply Forall_cons in Hall as [Hrank Hrest].
    destruct (step size rank st) as [st1|] eqn:Hstep; [|done].
    eapply IH; [|done|done]. by eapply reachable_step.
Qed.
End sequential.

(** C4 (as amended).  In every state the processes can reach, for
    every process [r]: every process [j < r] has returned from [begin]
    and has called [end] at least as often as [begin] has returned on
    [r]; while [r] is inside its section every process above [r] has
    returned from [begin] less often than [r]; and once [end] has been
    called on [r] more often than [begin] has returned on [r + 1],
    process [r + 1], if it is at its [begin], can return from it. *)
Theorem Sequential_order (size : Z) (st : Sequential.state) :
  Sequential.reachable size st →
  (∀ j r, 0 ≤ j → j < r → r < size →
     (Sequential.begun st r ≤ Sequential.ended st j)%nat
     ∧ (Sequential.ended st j ≤ Sequential.begun st j)%nat)
  ∧ (∀ r j, 0 ≤ r → r < j → j < size →
     Sequential.phases st r = Sequential.Inside →
     (Sequential.begun st j < Sequential.begun st r)%nat)
  ∧ (∀ r, 0 ≤ r → r + 1 < size →
     (Sequential.begun st (r + 1) < Sequential.ended st r)%nat →
     Sequential.phases st (r + 1) = Sequential.Outside →
     is_Some (Sequential.step size (r + 1) st)).
Proof.
  intros Hinv%sequential_inv_reachable.
  pose proof (sequential_chain size st Hinv) as Hchain.
  destruct Hinv as [H1 H2]. split; [|split].
  - intros j r Hj Hjr Hr. split.
    + specialize (Hchain (Z.to_nat (r - j - 1)) j Hj ltac:(lia)).
      by replace (j + 1 + Z.of_nat (Z.to_nat (r - j - 1))) with r in Hchain by lia.
    + specialize (H1 j). lia.
  - intros r j Hr Hrj Hj Hin.
    specialize (Hchain (Z.to_nat (j - r - 1)) r Hr ltac:(lia)).
    replace (r + 1 + Z.of_nat (Z.to_nat (j - r - 1))) with j in Hchain by lia.
    specialize (H1 r). rewrite Hin in H1. lia.
  - intros r Hr Hlt Hmsg Hout.
    assert (size ≠ 1) as Hsize by lia.
    specialize (H2 Hsize r Hr Hlt).
    unfold Sequential.step, Sequential.begin, Sequential.Recv. rewrite Hout.
    rewrite bool_decide_eq_false_2 by done.
    rewrite bool_decide_eq_false_2 by lia. simpl.
    destruct (Sequential.inbox st (r + 1)); [lia|]. by eexists.
Qed.

Lemma Sequential_order_witness :
  ∃ st, Sequential.run 3 [0; 0; 1; 1; 0; 0; 2] Sequential.init = Some st
        ∧ Sequential.phases st 2 = Sequential.Inside
        ∧ (Sequential.begun st 2 ≤ Sequential.ended st 0)%nat
        ∧ (Sequential.begun st 2 ≤ Sequential.ended st 1)%nat
        ∧ is_Some (Sequential.step 3 1 st).
Proof.
  eexists. split; [reflexivity|].
  match goal with |- context [Sequential.phases ?s] => set (st := s) end.
  assert (Sequential.reachable 3 st) as Hreach.
  { apply (run_reachable 3 [0; 0; 1; 1; 0; 0; 2] Sequential.init st).
    - constructor.
    - repeat constructor; lia.
    - reflexivity. }
  destruct (Sequential_order 3 st Hreach) as (Hlow & _ & Hnext).
  split; [reflexivity|]. split; [|split].
  - apply (Hlow 0 2); lia.
  - apply (Hlow 1 2); lia.
  - apply (Hnext 0); [lia|lia|vm_compute; lia|reflexivity].
Defined.

(** The sentence of the specification fails as it stands: with two
    processes, when [begin] returns on process 1, process 0 has
    executed [end] (this is what lets process 1 in). *)
Lemma Sequential_order_counterexample :
  ∃ st, Sequential.run 2 [0; 0; 1] Sequential.init = Some st
        ∧ Sequential.reachable 2 st
        ∧ Sequential.phases st 1 = Sequential.Inside
        ∧ Sequential.begun st 1 = 1%nat
        ∧ Sequential.ended st 0 = 1%nat
        ∧ Sequential.ended st 0 ≠ 0%nat.
Proof.
  eexists. split; [reflexivity|]. split.
  - apply (run_reachable 2 [0; 0; 1] Sequential.init).
    + constructor.
    + repeat constructor; lia.
    + reflexivity.
  - repeat split; try reflexivity. vm_compute. discriminate.
Qed.

#[local] Set Warnings "-clear-no-such-hyp".

(** ** The queue lock: invariant *)

Section system.
Import System.

(** *** Roles *)

Lemma role_of_nil (r : Z) : role_of [] r = Out.
Proof. unfold role_of. rewrite bool_decide_eq_false_2 by done.
  by rewrite bool_decide_eq_false_2 by apply not_elem_of_nil. Qed.

Lemma role_of_Head (q : list Z) (r : Z) : role_of q r = Head ↔ head q = Some r.
Proof.
  unfold role_of. case_bool_decide; [done|]. by case_bool_decide.
Qed.

Lemma role_of_Out (q : list Z) (r : Z) : role_of q r = Out ↔ r ∉ q.
Proof.
  unfold role_of. case_bool_decide as Hh.
  - split; [done|]. intros Hn. destruct q; simplify_eq/=. exfalso. apply Hn. constructor.
  - by case_bool_decide.
Qed.

Lemma role_of_Waiting (q : list Z) (r : Z) :
  role_of q r = Waiting ↔ r ∈ q ∧ head q ≠ Some r.
Proof.
  unfold role_of. case_bool_decide as Hh; [naive_solver|].
  case_bool_decide; naive_solver.
Qed.

Lemma role_of_app_ne (q : list Z) (x r : Z) :
  r ≠ x → role_of (q ++ [x]) r = role_of q r.
Proof.
  intros Hne. unfold role_of.
  assert (head (q ++ [x]) = Some r ↔ head q = Some r) as Hh.
  { destruct q; simpl; [|done]. split; [|done]. by intros [= ->]. }
  assert (r ∈ q ++ [x] ↔ r ∈ q) as Hin.
  { rewrite elem_of_app, list_elem_of_singleton. naive_solver. }
  repeat case_bool_decide; naive_solver.
Qed.

Lemma role_of_app_new (q : list Z) (x : Z) :
  x ∉ q → role_of (q ++ [x]) x = if bool_decide (q = []) then Head else Waiting.
Proof.
  intros Hx. destruct q as [|y q]; simpl.
  - apply role_of_Head. done.
  - apply role_of_Waiting. split; [set_solver|]. simpl. intros [= ->]. apply Hx. constructor.
Qed.

Lemma role_of_tail_ne (q : list Z) (h r : Z) :
  NoDup q → head q = Some h → r ≠ h → q !! 1%nat ≠ Some r →
  role_of (tail q) r = role_of q r.
Proof.
  intros Hnd Hh Hne H1. destruct q as [|h' q]; [done|]. simpl in *. simplify_eq.
  unfold role_of. simpl.
  rewrite (bool_decide_eq_false_2 (Some h = Some r)) by congruence.
  rewrite bool_decide_eq_false_2.
  - rewrite (bool_decide_ext (r ∈ q) (r ∈ h :: q)); [done|].
    rewrite elem_of_cons. naive_solver.
  - by destruct q.
Qed.

Lemma head_last_singleton (q : list Z) (r : Z) :
  NoDup q → head q = Some r → last q = Some r → q = [r].
Proof.
  intros Hnd Hh Hl. destruct q as [|x q]; [done|]. simpl in Hh. simplify_eq.
  destruct q as [|y q]; [done|]. exfalso.
  apply NoDup_cons in Hnd as [Hx _]. apply Hx.
  rewrite last_cons_cons in Hl. apply last_Some_elem_of in Hl. done.
Qed.

Lemma NoDup_successor_Waiting (q : list Z) (i : nat) (b : Z) :
  NoDup q → q !! S i = Some b → role_of q b = Waiting.
Proof.
  intros Hnd Hb. apply role_of_Waiting. split; [by eapply list_elem_of_lookup_2|].
  intros Hh. assert (q !! 0%nat = Some b) as H0 by (by destruct q).
  pose proof (NoDup_lookup q _ _ _ Hnd H0 Hb). lia.
Qed.

Lemma admits_role (p : pc) (ro : role) (v : Z) :
  admits p ro v →
  match p with
  | Idle => (ro = Out ∧ v = 0) ∨ (ro = Head ∧ v = 1)
  | Acquire_next _ _ | Acquire_tail _ _ | Acquire_flag false _ | Saved _ => ro = Out ∧ v = 0
  | Acquire_link _ _ => ro = Waiting ∧ v = 0
  | Acquire_spin _ => (ro = Head ∧ v = 1) ∨ (ro = Waiting ∧ v = 0)
  | Acquire_flag true _ => ro = Head ∧ (v = 0 ∨ v = 1)
  | Release_tail _ | Release_spin _ | Release_pass _ _ => ro = Head ∧ v = 1
  | Release_flag _ => ro = Out ∧ v = 1
  end.
Proof. destruct p as [| | | | |[]| | | | |], ro; simpl; naive_solver. Qed.

(** *** Frame: a process that does not step *)

Lemma rank_ok_frame (q q' : list Z) (m m' : memory) (pcs pcs' : Z → pc) (r : Z) :
  rank_ok q m pcs r →
  pcs' r = pcs r →
  m' !! (r, Mutex.lock_id) = m !! (r, Mutex.lock_id) →
  m' !! (r, Mutex.next_id) = m !! (r, Mutex.next_id) →
  role_of q' r = role_of q r →
  (role_of q r = Head →
   (length q ≤ length q')%nat ∧ ∀ s, q !! 1%nat = Some s → q' !! 1%nat = Some s) →
  rank_ok q' m' pcs' r.
Proof.
  intros (v & Hv & Hadm & Hext & Hn) Hpc Hl Hnx Hrole Hhead.
  exists v. rewrite Hpc, Hl, Hnx, Hrole. split; [done|]. split; [done|]. split; [|done].
  apply admits_role in Hadm.
  destruct (pcs r); simpl in *; try done.
  - by rewrite Hnx.
  - destruct Hadm as [Hro _]. destruct (Hhead Hro). lia.
  - destruct Hadm as [Hro _]. destruct (Hhead Hro) as [_ H1]. destruct Hext.
    split; [by apply H1|]. by rewrite Hnx.
Qed.

(** *** A step that only moves the control point of a process that is
    not waiting *)

Lemma invariant_pc (size : Z) (q : list Z) (m : memory) (pcs : Z → pc) (r : Z) (p' : pc) :
  invariant size q m pcs →
  role_of q r ≠ Waiting →
  rank_ok q m (<[r := p']> pcs) r →
  invariant size q m (<[r := p']> pcs).
Proof.
  intros [Hnd Hrange Htail Hlink Hlast Hrank] Hrole Hr.
  split; try done.
  - intros i a b Ha Hb.
    assert (b ≠ r) as Hbr.
    { intros ->. apply Hrole. by eapply NoDup_successor_Waiting. }
    destruct (Hlink i a b Ha Hb) as [[? [k ?]]|[? [k ?]]]; [left|right];
      (split; [done|]); exists k; by rewrite fn_lookup_insert_ne.
  - intros r' Hr'. destruct (decide (r' = r)) as [->|Hne]; [done|].
    apply (rank_ok_frame q q m m pcs); try done.
    + by apply Hrank.
    + by rewrite fn_lookup_insert_ne.
Qed.

Lemma link_ok_frame (m m' : memory) (pcs pcs' : Z → pc) (a b : Z) :
  link_ok m pcs a b →
  m' !! (a, Mutex.next_id) = m !! (a, Mutex.next_id) →
  pcs' b = pcs b →
  link_ok m' pcs' a b.
Proof. unfold link_ok. intros H -> ->. done. Qed.

Ltac slot_ne := unfold Mutex.lock_id, Mutex.next_id, Mutex.tail_id, Mutex.tail_rank; congruence.

(** *** [Acquire_next]: the process clears its own [NEXT] *)

Lemma invariant_acquire_next (size : Z) (q : list Z) (m : memory) (pcs : Z → pc)
    (r : Z) (blocking : bool) (k : acquire_caller) :
  invariant size q m pcs →
  0 ≤ r < size →
  pcs r = Acquire_next blocking k →
  invariant size q (<[(r, Mutex.next_id) := Mutex.null_rank]> m)
            (<[r := Acquire_tail blocking k]> pcs).
Proof.
  intros [Hnd Hrange Htail Hlink Hlast Hrank] Hr Hpc.
  destruct (Hrank r Hr) as (v & Hv & Hadm & _ & Hn).
  rewrite Hpc in Hadm. apply admits_role in Hadm as [Hout ->].
  apply role_of_Out in Hout.
  split; try done.
  - by rewrite lookup_insert_ne by slot_ne.
  - intros i a b Ha Hb.
    assert (a ≠ r) by (intros ->; apply Hout; by eapply list_elem_of_lookup_2).
    assert (b ≠ r) by (intros ->; apply Hout; by eapply list_elem_of_lookup_2).
    apply (link_ok_frame m _ pcs); [by eapply Hlink| |].
    + by rewrite lookup_insert_ne by congruence.
    + by rewrite fn_lookup_insert_ne.
  - intros t Ht.
    assert (t ≠ r) by (intros ->; apply Hout; by eapply last_Some_elem_of).
    rewrite lookup_insert_ne by congruence. by apply Hlast.
  - intros r' Hr'. destruct (decide (r' = r)) as [->|Hne].
    + exists 0. rewrite fn_lookup_insert. rewrite lookup_insert_ne by slot_ne.
      split; [done|]. split.
      { apply role_of_Out in Hout. by rewrite Hout. }
      split; [simpl; by rewrite lookup_insert_eq|].
      rewrite lookup_insert_eq. by eexists.
    + apply (rank_ok_frame q q m _ pcs); try done.
      * by apply Hrank.
      * by rewrite fn_lookup_insert_ne.
      * by rewrite lookup_insert_ne by slot_ne.
      * by rewrite lookup_insert_ne by congruence.
Qed.

(** *** [Acquire_tail]: the process puts itself into [TAIL] *)

Lemma invariant_acquire_tail (size : Z) (q : list Z) (m : memory) (pcs : Z → pc)
    (r : Z) (blocking : bool) (k : acquire_caller) :
  invariant size q m pcs →
  0 ≤ r < size →
  pcs r = Acquire_tail blocking k →
  let prev := default Mutex.null_rank (last q) in
  invariant size (q ++ [r]) (<[(Mutex.tail_rank, Mutex.tail_id) := r]> m)
            (<[r := if bool_decide (prev = Mutex.null_rank)
                    then Acquire_flag true k else Acquire_link prev k]> pcs).
Proof.
  intros [Hnd Hrange Htail Hlink Hlast Hrank] Hr Hpc prev.
  destruct (Hrank r Hr) as (v & Hv & Hadm & Hext & Hn).
  rewrite Hpc in Hadm, Hext. apply admits_role in Hadm as [Hout ->].
  apply role_of_Out in Hout. simpl in Hext.
  assert (∀ t, last q = Some t → prev = t ∧ prev ≠ Mutex.null_rank) as Hprev.
  { intros t Ht. unfold prev. rewrite Ht. simpl. split; [done|].
    pose proof (Hrange t (last_Some_elem_of _ _ Ht)). pose proof PROC_NULL_neg.
    unfold Mutex.null_rank. lia. }
  split.
  - apply NoDup_app. split; [done|]. split; [|apply NoDup_singleton].
    intros x Hx ->%list_elem_of_singleton. done.
  - intros x [Hx| ->%list_elem_of_singleton]%elem_of_app; auto.
  - rewrite last_snoc. simpl. by rewrite lookup_insert_eq.
  - intros i a b Ha Hb.
    pose proof (lookup_lt_Some _ _ _ Hb) as Hlt. rewrite length_app in Hlt. simpl in Hlt.
    assert (q !! i = Some a) as Ha' by (rewrite lookup_app_l in Ha; [done|lia]).
    assert (a ≠ r) as Har by (intros ->; apply Hout; by eapply list_elem_of_lookup_2).
    destruct (decide (S i = length q)) as [Hi|Hi].
    + (* the new pair *)
      rewrite Hi, list_lookup_middle in Hb by done. injection Hb as <-.
      assert (last q = Some a) as Hla.
      { rewrite last_lookup. rewrite <- Ha'. f_equal. lia. }
      destruct (Hprev a Hla) as [Hpa Hpn]. right. split.
      * rewrite lookup_insert_ne by slot_ne. by apply Hlast.
      * exists k. rewrite fn_lookup_insert.
        rewrite bool_decide_eq_false_2 by done. by rewrite Hpa.
    + assert (q !! S i = Some b) as Hb' by (rewrite lookup_app_l in Hb; [done|lia]).
      assert (b ≠ r) as Hbr by (intros ->; apply Hout; by eapply list_elem_of_lookup_2).
      apply (link_ok_frame m _ pcs); [by eapply Hlink| |].
      * by rewrite lookup_insert_ne by slot_ne.
      * by rewrite fn_lookup_insert_ne.
  - intros t Ht. rewrite last_snoc in Ht. injection Ht as <-.
    by rewrite lookup_insert_ne by slot_ne.
  - intros r' Hr'. destruct (decide (r' = r)) as [->|Hne].
    + exists 0. rewrite fn_lookup_insert. rewrite !lookup_insert_ne by slot_ne.
      split; [done|]. split; [|split; [|done]].
      * rewrite role_of_app_new by done.
        destruct (last q) as [t|] eqn:Hl.
        -- destruct (Hprev t eq_refl) as [_ Hpn].
           rewrite bool_decide_eq_false_2 by done.
           rewrite bool_decide_eq_false_2; [done|]. intros ->. done.
        -- apply last_None in Hl as ->. unfold prev. simpl. by left.
      * by case_bool_decide.
    + apply (rank_ok_frame q _ m _ pcs); try done.
      * by apply Hrank.
      * by rewrite fn_lookup_insert_ne.
      * by rewrite lookup_insert_ne by slot_ne.
      * by rewrite lookup_insert_ne by slot_ne.
      * by apply role_of_app_ne.
      * intros _. split; [rewrite length_app; lia|].
        intros s0 Hs0. by apply lookup_app_l_Some.
Qed.

(** A waiting process follows some member of the queue. *)
Lemma Waiting_predecessor (q : list Z) (r : Z) :
  role_of q r = Waiting → ∃ (i : nat) (a : Z), q !! i = Some a ∧ q !! S i = Some r.
Proof.
  intros [Hin Hh]%role_of_Waiting.
  apply list_elem_of_lookup in Hin as [[|i] Hi].
  - exfalso. apply Hh. by destruct q.
  - destruct (lookup_lt_is_Some_2 q i) as [a Ha].
    { apply lookup_lt_Some in Hi. lia. }
    by exists i, a.
Qed.

(** *** [Acquire_link]: the process writes itself into the [NEXT] of
    its predecessor *)

Lemma invariant_acquire_link (size : Z) (q : list Z) (m : memory) (pcs : Z → pc)
    (r prev : Z) (k : acquire_caller) :
  invariant size q m pcs →
  0 ≤ r < size →
  pcs r = Acquire_link prev k →
  is_Some (m !! (prev, Mutex.next_id))
  ∧ invariant size q (<[(prev, Mutex.next_id) := r]> m) (<[r := Acquire_spin k]> pcs).
Proof.
  intros [Hnd Hrange Htail Hlink Hlast Hrank] Hr Hpc.
  destruct (Hrank r Hr) as (v & Hv & Hadm & _ & Hn).
  rewrite Hpc in Hadm. apply admits_role in Hadm as [Hwait ->].
  destruct (Waiting_predecessor q r Hwait) as (i & a & Ha & Hb).
  assert (a = prev ∧ m !! (a, Mutex.next_id) = Some Mutex.null_rank) as [-> Hnull].
  { destruct (Hlink i a r Ha Hb) as [[_ [k' Hk']]|[? [k' Hk']]]; [congruence|].
    split; [congruence|done]. }
  assert (prev ≠ r) as Hpr.
  { intros ->. pose proof (NoDup_lookup q _ _ _ Hnd Ha Hb). lia. }
  assert (0 ≤ r) as Hr0 by lia.
  split; [by eexists|].
  split; try done.
  - by rewrite lookup_insert_ne by slot_ne.
  - intros j a' b' Ha' Hb'.
    destruct (decide (a' = prev)) as [->|Hap].
    + assert (j = i) as -> by exact (NoDup_lookup q _ _ _ Hnd Ha' Ha).
      assert (b' = r) as -> by congruence.
      left. split; [by rewrite lookup_insert_eq|]. exists k. by rewrite fn_lookup_insert.
    + assert (b' ≠ r) as Hbr.
      { intros ->. assert (S j = S i) as [= ->] by exact (NoDup_lookup q _ _ _ Hnd Hb' Hb).
        congruence. }
      apply (link_ok_frame m _ pcs); [by eapply Hlink| |].
      * by rewrite lookup_insert_ne by congruence.
      * by rewrite fn_lookup_insert_ne.
  - intros t Ht.
    assert (t ≠ prev) as Htp.
    { intros ->. rewrite last_lookup in Ht.
      pose proof (NoDup_lookup q _ _ _ Hnd Ht Ha) as Hi.
      apply lookup_lt_Some in Hb. lia. }
    rewrite lookup_insert_ne by congruence. by apply Hlast.
  - intros r' Hr'. destruct (decide (r' = r)) as [->|Hne].
    + exists 0. rewrite fn_lookup_insert. rewrite lookup_insert_ne by slot_ne.
      split; [done|]. split; [by rewrite Hwait|]. split; [done|].
      apply lookup_insert_is_Some'. by right.
    + destruct (decide (r' = prev)) as [->|Hnp].
      * destruct (Hrank prev Hr') as (v' & Hv' & Hadm' & Hext' & Hn').
        exists v'. rewrite fn_lookup_insert_ne by done.
        rewrite lookup_insert_ne by slot_ne.
        split; [done|]. split; [done|]. split; [|by rewrite lookup_insert_eq].
        apply admits_role in Hadm'.
        assert (prev ∈ q) as Hin by (by eapply list_elem_of_lookup_2).
        destruct (pcs prev); simpl in *; try done.
        -- destruct Hadm' as [Hout _]. apply role_of_Out in Hout. done.
        -- destruct Hext' as [Hs Hns]. rewrite Hnull in Hns. injection Hns as <-.
           pose proof (Hrange _ (list_elem_of_lookup_2 _ _ _ Hs)). pose proof PROC_NULL_neg.
           unfold Mutex.null_rank in *. lia.
      * apply (rank_ok_frame q q m _ pcs); try done.
        -- by apply Hrank.
        -- by rewrite fn_lookup_insert_ne.
        -- by rewrite lookup_insert_ne by slot_ne.
        -- by rewrite lookup_insert_ne by congruence.
Qed.

(** *** [Acquire_flag]: the process sets its own [LOCK] and returns *)

Lemma invariant_acquire_flag (size : Z) (q : list Z) (m : memory) (pcs : Z → pc)
    (r : Z) (locked : bool) (k : acquire_caller) :
  invariant size q m pcs →
  0 ≤ r < size →
  pcs r = Acquire_flag locked k →
  invariant size q (<[(r, Mutex.lock_id) := Z.b2z locked]> m) (<[r := Idle]> pcs).
Proof.
  intros [Hnd Hrange Htail Hlink Hlast Hrank] Hr Hpc.
  destruct (Hrank r Hr) as (v & Hv & Hadm & _ & Hn).
  rewrite Hpc in Hadm. apply admits_role in Hadm.
  assert (role_of q r ≠ Waiting) as Hnw.
  { destruct locked; simpl in Hadm; destruct Hadm as [-> _]; done. }
  split; try done.
  - by rewrite lookup_insert_ne by slot_ne.
  - intros i a b Ha Hb.
    assert (b ≠ r) as Hbr.
    { intros ->. apply Hnw. by eapply NoDup_successor_Waiting. }
    apply (link_ok_frame m _ pcs); [by eapply Hlink| |].
    + by rewrite lookup_insert_ne by slot_ne.
    + by rewrite fn_lookup_insert_ne.
  - intros t Ht. rewrite lookup_insert_ne by slot_ne. by apply Hlast.
  - intros r' Hr'. destruct (decide (r' = r)) as [->|Hne].
    + exists (Z.b2z locked). rewrite fn_lookup_insert, lookup_insert_eq.
      split; [done|]. split; [|split; [done|]].
      * destruct locked; simpl in Hadm; destruct Hadm as [-> _]; done.
      * by rewrite lookup_insert_ne by slot_ne.
    + apply (rank_ok_frame q q m _ pcs); try done.
      * by apply Hrank.
      * by rewrite fn_lookup_insert_ne.
      * by rewrite lookup_insert_ne by congruence.
      * by rewrite lookup_insert_ne by slot_ne.
Qed.

(** *** [Release_tail]: the compare-and-swap finds the process in
    [TAIL], so it is alone in the queue, and empties it *)

Lemma invariant_release_tail (size : Z) (q : list Z) (m : memory) (pcs : Z → pc)
    (r : Z) (k : release_caller) :
  invariant size q m pcs →
  0 ≤ r < size →
  pcs r = Release_tail k →
  m !! (Mutex.tail_rank, Mutex.tail_id) = Some r →
  invariant size [] (<[(Mutex.tail_rank, Mutex.tail_id) := Mutex.null_rank]> m)
            (<[r := Release_flag k]> pcs).
Proof.
  intros [Hnd Hrange Htail Hlink Hlast Hrank] Hr Hpc Ht.
  destruct (Hrank r Hr) as (v & Hv & Hadm & _ & Hn).
  rewrite Hpc in Hadm. apply admits_role in Hadm as [Hhead ->].
  apply role_of_Head in Hhead.
  assert (q = [r]) as ->.
  { apply head_last_singleton; [done|done|].
    rewrite Htail in Ht. destruct (last q) as [t|]; simpl in Ht; [congruence|].
    pose proof PROC_NULL_neg. unfold Mutex.null_rank in *. injection Ht as Ht. lia. }
  split.
  - constructor.
  - by intros x ?%elem_of_nil.
  - by rewrite lookup_insert_eq.
  - by intros i a b ?.
  - by intros t ?.
  - intros r' Hr'. destruct (decide (r' = r)) as [->|Hne].
    + exists 1. rewrite fn_lookup_insert. rewrite !lookup_insert_ne by slot_ne.
      split; [done|]. split; [by rewrite role_of_nil|]. done.
    + apply (rank_ok_frame [r] _ m _ pcs); try done.
      * by apply Hrank.
      * by rewrite fn_lookup_insert_ne.
      * by rewrite lookup_insert_ne by slot_ne.
      * by rewrite lookup_insert_ne by slot_ne.
      * rewrite role_of_nil. symmetry. apply role_of_Out.
        by intros ?%list_elem_of_singleton.
      * intros Hh%role_of_Head. simpl in Hh. congruence.
Qed.

(** *** [Release_pass]: the head hands the lock to its successor and
    leaves the queue *)

Lemma invariant_release_pass (size : Z) (q : list Z) (m : memory) (pcs : Z → pc)
    (r s : Z) (k : release_caller) :
  invariant size q m pcs →
  0 ≤ r < size →
  pcs r = Release_pass s k →
  is_Some (m !! (s, Mutex.lock_id))
  ∧ invariant size (tail q) (<[(s, Mutex.lock_id) := 1]> m) (<[r := Release_flag k]> pcs).
Proof.
  intros [Hnd Hrange Htail Hlink Hlast Hrank] Hr Hpc.
  destruct (Hrank r Hr) as (v & Hv & Hadm & Hext & Hn).
  rewrite Hpc in Hadm, Hext. apply admits_role in Hadm as [Hhead ->].
  apply role_of_Head in Hhead. destruct Hext as [Hs Hnext].
  destruct q as [|r0 [|s0 q2]]; simplify_eq/=.
  assert (0 ≤ s < size) as Hsr by (apply Hrange; set_solver).
  assert (s ≠ r) as Hsne.
  { intros ->. apply NoDup_cons in Hnd as [Hx _]. apply Hx. constructor. }
  assert (∃ k', pcs s = Acquire_spin k') as [k' Hpcs].
  { destruct (Hlink 0%nat r s eq_refl eq_refl) as [[_ ?]|[Hnull _]]; [done|].
    rewrite Hnull in Hnext. pose proof PROC_NULL_neg.
    unfold Mutex.null_rank in *. injection Hnext as Hnext. lia. }
  destruct (Hrank s Hsr) as (vs & Hvs & Hadms & _ & Hns).
  split; [by eexists|].
  apply NoDup_cons in Hnd as [Hrq Hnd'].
  split.
  - done.
  - intros x Hx. apply Hrange. by constructor.
  - rewrite lookup_insert_ne by slot_ne. by rewrite Htail.
  - intros i a b Ha Hb.
    assert (b ≠ r) as Hbr by (intros ->; apply Hrq; by eapply list_elem_of_lookup_2).
    apply (link_ok_frame m _ pcs); [by apply (Hlink (S i))| |].
    + by rewrite lookup_insert_ne by slot_ne.
    + by rewrite fn_lookup_insert_ne.
  - intros t Ht. rewrite lookup_insert_ne by slot_ne. apply Hlast. exact Ht.
  - intros r' Hr'. destruct (decide (r' = r)) as [->|Hne].
    + exists 1. rewrite fn_lookup_insert. rewrite lookup_insert_ne by congruence.
      split; [done|]. split; [|split; [done|]].
      * assert (role_of (s :: q2) r = Out) as -> by (by apply role_of_Out). done.
      * by rewrite lookup_insert_ne by slot_ne.
    + destruct (decide (r' = s)) as [->|Hns'].
      * exists 1. rewrite fn_lookup_insert_ne by done. rewrite lookup_insert_eq.
        split; [done|]. rewrite Hpcs.
        assert (role_of (s :: q2) s = Head) as -> by (by apply role_of_Head).
        split; [done|]. split; [done|]. by rewrite lookup_insert_ne by slot_ne.
      * apply (rank_ok_frame (r :: s :: q2) _ m _ pcs); try done.
        -- by apply Hrank.
        -- by rewrite fn_lookup_insert_ne.
        -- by rewrite lookup_insert_ne by congruence.
        -- by rewrite lookup_insert_ne by slot_ne.
        -- apply (role_of_tail_ne (r :: s :: q2) r r'); [by constructor|done|done|].
           simpl. congruence.
        -- intros Hh%role_of_Head. simpl in Hh. congruence.
Qed.

(** *** [Release_flag]: the process clears its own [LOCK] and returns *)

Lemma invariant_release_flag (size : Z) (q : list Z) (m : memory) (pcs : Z → pc)
    (r : Z) (k : release_caller) (p' : pc) :
  invariant size q m pcs →
  0 ≤ r < size →
  pcs r = Release_flag k →
  (p' = Idle ∨ ∃ saved, p' = Saved saved) →
  invariant size q (<[(r, Mutex.lock_id) := 0]> m) (<[r := p']> pcs).
Proof.
  intros [Hnd Hrange Htail Hlink Hlast Hrank] Hr Hpc Hp'.
  destruct (Hrank r Hr) as (v & Hv & Hadm & _ & Hn).
  rewrite Hpc in Hadm. apply admits_role in Hadm as [Hout ->].
  assert (role_of q r ≠ Waiting) as Hnw by congruence.
  split; try done.
  - by rewrite lookup_insert_ne by slot_ne.
  - intros i a b Ha Hb.
    assert (b ≠ r) as Hbr.
    { intros ->. apply Hnw. by eapply NoDup_successor_Waiting. }
    apply (link_ok_frame m _ pcs); [by eapply Hlink| |].
    + by rewrite lookup_insert_ne by slot_ne.
    + by rewrite fn_lookup_insert_ne.
  - intros t Ht. rewrite lookup_insert_ne by slot_ne. by apply Hlast.
  - intros r' Hr'. destruct (decide (r' = r)) as [->|Hne].
    + exists 0. rewrite fn_lookup_insert, lookup_insert_eq.
      split; [done|]. split; [|split].
      * rewrite Hout. by destruct Hp' as [->|[saved ->]].
      * by destruct Hp' as [->|[saved ->]].
      * by rewrite lookup_insert_ne by slot_ne.
    + apply (rank_ok_frame q q m _ pcs); try done.
      * by apply Hrank.
      * by rewrite fn_lookup_insert_ne.
      * by rewrite lookup_insert_ne by congruence.
      * by rewrite lookup_insert_ne by slot_ne.
Qed.

(** *** Steps *)

Lemma locked_slot (r : Z) (st : state) (v : Z) :
  mem st !! (r, Mutex.lock_id) = Some v →
  locked r st = negb (bool_decide (v = 0)).
Proof. intros H. unfold locked. by rewrite H. Qed.

Lemma invariant_enter_acquire (size : Z) (q : list Z) (st : state) (r : Z)
    (blocking : bool) (k : acquire_caller) :
  invariant size q (mem st) (pcs st) →
  0 ≤ r < size →
  pcs st r = Idle →
  invariant size q (mem (enter_acquire r blocking k st))
            (pcs (enter_acquire r blocking k st)).
Proof.
  intros Hinv Hr Hpc. unfold enter_acquire.
  destruct (negb (window_ok r st)); [done|].
  destruct (inv_rank _ _ _ _ Hinv r Hr) as (v & Hv & Hadm & _ & Hn).
  rewrite (locked_slot r st v Hv). case_bool_decide as H0; simpl; [|done].
  subst v. rewrite Hpc in Hadm. apply admits_role in Hadm as [[Hout _]|[_ ?]]; [|done].
  apply invariant_pc; [done|congruence|].
  exists 0. rewrite fn_lookup_insert. by rewrite Hout.
Qed.

Lemma invariant_enter_release (size : Z) (q : list Z) (st : state) (r : Z)
    (k : release_caller) :
  invariant size q (mem st) (pcs st) →
  0 ≤ r < size →
  pcs st r = Idle →
  invariant size q (mem (enter_release r k st)) (pcs (enter_release r k st)).
Proof.
  intros Hinv Hr Hpc. unfold enter_release.
  destruct (negb (window_ok r st)); [done|].
  destruct (inv_rank _ _ _ _ Hinv r Hr) as (v & Hv & Hadm & _ & Hn).
  rewrite (locked_slot r st v Hv). case_bool_decide as H0; simpl; [done|].
  rewrite Hpc in Hadm. apply admits_role in Hadm as [[_ ?]|[Hhead ->]]; [done|].
  apply invariant_pc; [done|congruence|].
  exists 1. rewrite fn_lookup_insert. by rewrite Hhead.
Qed.

Lemma invariant_do_call (size : Z) (q : list Z) (st : state) (r : Z) (c : call) :
  invariant size q (mem st) (pcs st) →
  0 ≤ r < size →
  pcs st r = Idle →
  invariant size q (mem (do_call r c st)) (pcs (do_call r c st)).
Proof.
  intros Hinv Hr Hpc. unfold do_call.
  destruct c as [blocking| | |], (locks st r) as [mx|rm];
    repeat match goal with
           | |- context [if ?b then _ else _] => destruct b
           end;
    try done;
    first [ by apply invariant_enter_acquire
          | by apply invariant_enter_release ].
Qed.

Lemma return_acquire_mem_pcs (r : Z) (locked : bool) (k : acquire_caller) (st : state) :
  mem (return_acquire r locked k st) = mem st
  ∧ pcs (return_acquire r locked k st) = <[r := Idle]> (pcs st).
Proof.
  unfold return_acquire. destruct k as [| |[saved|]]; simpl; try done.
  - by destruct locked.
  - by destruct (locks st r).
  - by destruct (locks st r).
Qed.

Lemma return_release_mem_pcs (r : Z) (k : release_caller) (st : state) :
  mem (return_release r k st) = mem st
  ∧ ∃ p', pcs (return_release r k st) = <[r := p']> (pcs st)
          ∧ (p' = Idle ∨ ∃ saved, p' = Saved saved).
Proof.
  unfold return_release. destruct k as [|saved|]; simpl; (split; [done|]).
  - exists Idle. split; [done|by left].
  - exists (Saved saved). split; [done|]. right. by eexists.
  - exists Idle. split; [done|by left].
Qed.

Lemma invariant_advance (size : Z) (q : list Z) (st : state) (r : Z) :
  invariant size q (mem st) (pcs st) →
  0 ≤ r < size →
  ∃ q', invariant size q' (mem (advance r st)) (pcs (advance r st)).
Proof.
  intros Hinv Hr. pose proof Hinv as [Hnd Hrange Htail Hlink Hlast Hrank].
  destruct (Hrank r Hr) as (v & Hv & Hadm & Hext & [n Hn]).
  unfold advance. destruct (pcs st r) as
    [|blocking k|blocking k|prev k|k|locked k|k|k|s k|k|saved] eqn:Hpc.
  - by exists q.
  - (* Acquire_next *)
    exists q. unfold rma. rewrite (Accumulate_REPLACE_Some _ _ _ _ _ Hn). simpl.
    by apply invariant_acquire_next.
  - (* Acquire_tail *)
    pose proof (invariant_acquire_tail size q (mem st) (pcs st) r blocking k Hinv Hr Hpc)
      as Hswap. cbv zeta in Hswap.
    unfold rma. destruct blocking.
    + rewrite (Fetch_and_op_REPLACE_Some _ _ _ _ _ Htail). exists (q ++ [r]).
      case_bool_decide; simpl; done.
    + rewrite (Compare_and_swap_Some _ _ _ _ _ _ Htail).
      case_bool_decide as Hprev; simpl.
      * exists (q ++ [r]). done.
      * exists q. apply invariant_pc; [done| |].
        -- apply admits_role in Hadm as [-> _]. done.
        -- exists v. rewrite fn_lookup_insert. apply admits_role in Hadm as [-> ->].
           split; [done|]. split; [done|]. split; [done|]. by eexists.
  - (* Acquire_link *)
    destruct (invariant_acquire_link size q (mem st) (pcs st) r prev k Hinv Hr Hpc)
      as [[old Hold] Hinv'].
    exists q. unfold rma. rewrite (Accumulate_REPLACE_Some _ _ _ _ _ Hold). done.
  - (* Acquire_spin *)
    exists q. unfold rma. rewrite (memoryview_Some _ _ _ _ Hv).
    case_bool_decide as H0; simpl; [done|].
    apply admits_role in Hadm as [[Hhead ->]|[_ ?]]; [|done].
    apply invariant_pc; [done|congruence|].
    exists 1. rewrite fn_lookup_insert. rewrite Hhead.
    split; [done|]. split; [by right|]. split; [done|]. by eexists.
  - (* Acquire_flag *)
    exists q. unfold rma. rewrite (Accumulate_REPLACE_Some _ _ _ _ _ Hv).
    destruct (return_acquire_mem_pcs r locked k
                (set_mem (<[(r, Mutex.lock_id) := Z.b2z locked]> (mem st)) st)) as [-> ->].
    by apply (invariant_acquire_flag size q (mem st) (pcs st) r locked k).
  - (* Release_tail *)
    apply admits_role in Hadm as [Hhead ->]. apply role_of_Head in Hhead.
    unfold rma. rewrite (Compare_and_swap_Some _ _ _ _ _ _ Htail).
    case_bool_decide as Hprev; simpl.
    + exists []. apply (invariant_release_tail size q); try done. by rewrite Htail, Hprev.
    + exists q. apply invariant_pc; [done| |].
      * apply role_of_Head in Hhead. congruence.
      * exists 1. rewrite fn_lookup_insert.
        apply role_of_Head in Hhead. rewrite Hhead.
        split; [done|]. split; [done|]. split; [|by eexists]. simpl.
        apply role_of_Head in Hhead.
        destruct q as [|x [|y q2]]; simpl in *; [done| |lia].
        simplify_eq.
  - (* Release_spin *)
    apply admits_role in Hadm as [Hhead ->]. simpl in Hext.
    exists q. unfold rma. rewrite (memoryview_Some _ _ _ _ Hn).
    case_bool_decide as Hnull; simpl; [done|].
    apply invariant_pc; [done|congruence|].
    exists 1. rewrite fn_lookup_insert. rewrite Hhead.
    split; [done|]. split; [done|]. split; [|by eexists]. simpl.
    apply role_of_Head in Hhead.
    destruct q as [|x [|y q2]]; simpl in *; [done|lia|]. simplify_eq.
    destruct (Hlink 0%nat r y eq_refl eq_refl) as [[Hy _]|[Hy _]];
      rewrite Hn in Hy; injection Hy as ->; done.
  - (* Release_pass *)
    destruct (invariant_release_pass size q (mem st) (pcs st) r s k Hinv Hr Hpc)
      as [[old Hold] Hinv'].
    exists (tail q). unfold rma. rewrite (Accumulate_REPLACE_Some _ _ _ _ _ Hold). done.
  - (* Release_flag *)
    exists q. unfold rma. rewrite (Accumulate_REPLACE_Some _ _ _ _ _ Hv).
    destruct (return_release_mem_pcs r k
                (set_mem (<[(r, Mutex.lock_id) := 0]> (mem st)) st))
      as (-> & p' & -> & Hp').
    by apply (invariant_release_flag size q (mem st) (pcs st) r k p').
  - (* Saved *)
    exists q. apply admits_role in Hadm as [Hout ->].
    apply invariant_enter_acquire; [|done|by simpl; rewrite fn_lookup_insert].
    simpl. apply invariant_pc; [done|congruence|].
    exists 0. rewrite fn_lookup_insert. rewrite Hout.
    split; [done|]. split; [done|]. split; [done|]. by eexists.
Qed.

Lemma invariant_step (size : Z) (q : list Z) (st st' : state) (r : Z) (e : event) :
  invariant size q (mem st) (pcs st) →
  0 ≤ r < size →
  step r e st = Some st' →
  ∃ q', invariant size q' (mem st') (pcs st').
Proof.
  intros Hinv Hr. unfold step. destruct e as [c|].
  - destruct (pcs st r) eqn:Hpc; try done. intros [= <-].
    exists q. by apply invariant_do_call.
  - destruct (pcs st r) eqn:Hpc; try done; intros [= <-]; by eapply invariant_advance.
Qed.

Lemma invariant_init (size : nat) (recursive : Z → bool) :
  (0 < size)%nat →
  invariant (Z.of_nat size) [] (mem (init size recursive)) (pcs (init size recursive)).
Proof.
  intros Hsize. simpl. unfold Mutex.window_init. split.
  - constructor.
  - by intros x ?%elem_of_nil.
  - rewrite lookup_allocate.
    rewrite decide_True by (unfold Mutex.tail_rank, Mutex.tail_id; lia).
    by rewrite bool_decide_eq_true_2.
  - by intros i a b ?.
  - by intros t ?.
  - intros r Hr. exists 0. rewrite !lookup_allocate.
    rewrite !decide_True by (unfold Mutex.lock_id, Mutex.next_id; lia).
    rewrite role_of_nil. split; [by case_bool_decide|]. split; [done|]. split; [done|].
    case_bool_decide; by eexists.
Qed.

Lemma invariant_reachable (size : nat) (st : state) :
  reachable size st →
  (0 < size)%nat →
  ∃ q, invariant (Z.of_nat size) q (mem st) (pcs st).
Proof.
  intros Hreach Hsize. induction Hreach as [recursive|st r e st' _ [q IH] Hr Hstep].
  - exists []. by apply invariant_init.
  - by eapply invariant_step.
Qed.

(** *** Mutual exclusion *)

Lemma admits_nonzero_Head (p : pc) (ro : role) (v : Z) :
  admits p ro v → v ≠ 0 → (∀ k, p ≠ Release_flag k) → ro = Head.
Proof.
  intros Hadm Hv Hp. apply admits_role in Hadm.
  destruct p as [| | | | |[]| | | | |]; try naive_solver.
Qed.

Lemma run_reachable_system (size : nat) (schedule : list (Z * event)) : ∀ st st',
  reachable size st →
  Forall (λ re, 0 ≤ re.1 < Z.of_nat size) schedule →
  run schedule st = Some st' →
  reachable size st'.
Proof.
  induction schedule as [|[r e] rest IH]; intros st st' Hst Hall Hrun; simpl in Hrun.
  - by injection Hrun as <-.
  - apply Forall_cons in Hall as [Hr Hrest].
    destruct (step r e st) as [st1|] eqn:Hstep; [|done].
    eapply IH; [|done|done]. by eapply reachable_step.
Qed.
End system.

(** C1 (as amended).  In every state that the processes of one mutex
    can reach, by any interleaving of the steps of their [acquire] and
    [release] calls: when a process has a [LOCK] slot different from 0
    and is not about to execute the last statement of [release], the
    one that clears its own slot, then every other process has a [LOCK]
    slot equal to 0 or is about to execute that statement.  No process
    can call [locked()] from there, so that [locked()] is true on at
    most one process at any time. *)
Theorem Mutex_mutual_exclusion (size : nat) (st : System.state) (r1 r2 v1 : Z) :
  System.reachable size st →
  0 ≤ r1 < Z.of_nat size →
  0 ≤ r2 < Z.of_nat size →
  r1 ≠ r2 →
  System.lock_slot st r1 = Some v1 → v1 ≠ 0 →
  (∀ k, System.pcs st r1 ≠ System.Release_flag k) →
  System.lock_slot st r2 = Some 0 ∨ ∃ k, System.pcs st r2 = System.Release_flag k.
Proof.
  intros Hreach Hr1 Hr2 Hne Hv1 Hn1 Hp1.
  destruct (invariant_reachable size st Hreach) as [q Hinv]; [lia|].
  destruct (System.inv_rank _ _ _ _ Hinv r1 Hr1) as (w1 & Hw1 & Hadm1 & _).
  destruct (System.inv_rank _ _ _ _ Hinv r2 Hr2) as (w2 & Hw2 & Hadm2 & _).
  unfold System.lock_slot in *. simplify_eq.
  apply admits_nonzero_Head in Hadm1; [|done|done].
  destruct (decide (w2 = 0)) as [->|Hn2]; [by left|]. right.
  destruct (System.pcs st r2) eqn:Hpc2; try (by eexists); exfalso;
    (apply admits_nonzero_Head in Hadm2; [|done|done]);
    apply role_of_Head in Hadm1, Hadm2; congruence.
Qed.

Lemma Mutex_mutual_exclusion_witness :
  let schedule :=
    [(0, System.Call (System.Acquire true)); (0, System.Advance);
     (1, System.Call (System.Acquire true)); (1, System.Advance);
     (0, System.Advance); (1, System.Advance); (0, System.Advance);
     (1, System.Advance); (1, System.Advance)] in
  ∃ st, System.run schedule (System.init 2 (λ _, false)) = Some st
        ∧ System.lock_slot st 0 = Some 1
        ∧ System.pcs st 0 = System.Idle
        ∧ System.pcs st 1 = System.Acquire_spin System.By_user
        ∧ (System.lock_slot st 1 = Some 0
           ∨ ∃ k, System.pcs st 1 = System.Release_flag k).
Proof.
  intros schedule. eexists. split; [reflexivity|].
  match goal with |- context [System.lock_slot ?s 0] => set (st := s) end.
  split; [reflexivity|]. split; [reflexivity|]. split; [reflexivity|].
  apply (Mutex_mutual_exclusion 2 st 0 1 1).
  - apply (run_reachable_system 2 schedule (System.init 2 (λ _, false)) st).
    + apply System.reachable_init.
    + repeat constructor; simpl; lia.
    + reflexivity.
  - lia.
  - lia.
  - lia.
  - reflexivity.
  - lia.
  - intros k. subst st. vm_compute. discriminate.
Defined.

(** The sentence of the specification fails as it stands: while
    process 0 is between the compare-and-swap of its [release], which
    has emptied [TAIL], and the write that clears its own [LOCK],
    process 1 acquires the mutex, and both [LOCK] slots hold 1. *)
Lemma Mutex_mutual_exclusion_counterexample :
  let schedule :=
    [(0, System.Call (System.Acquire true)); (0, System.Advance);
     (0, System.Advance); (0, System.Advance);
     (0, System.Call System.Release); (0, System.Advance);
     (1, System.Call (System.Acquire true)); (1, System.Advance);
     (1, System.Advance); (1, System.Advance)] in
  ∃ st, System.run schedule (System.init 2 (λ _, false)) = Some st
        ∧ System.reachable 2 st
        ∧ System.lock_slot st 0 = Some 1
        ∧ System.lock_slot st 1 = Some 1
        ∧ System.pcs st 0 = System.Release_flag System.For_user
        ∧ System.pcs st 1 = System.Idle.
Proof.
  intros schedule. eexists. split; [reflexivity|]. split.
  - apply (run_reachable_system 2 schedule (System.init 2 (λ _, false))).
    + apply System.reachable_init.
    + repeat constructor; simpl; lia.
    + reflexivity.
  - repeat split; reflexivity.
Qed.

(** ** The recursion count of [RMutex] *)

Section count.
Import System.

Ltac unfold_system :=
  unfold do_call, advance, rma, enter_acquire, enter_release, return_acquire,
    return_release, null_window, set_count, set_lock, set_pc, set_mem, window_ok,
    Accumulate_REPLACE, Fetch_and_op_REPLACE, Compare_and_swap, memoryview in *.

Ltac case_system :=
  repeat match goal with
         | |- context [match ?x with _ => _ end] =>
             lazymatch x with
             | context [match _ with _ => _ end] => fail
             | _ => destruct x eqn:?
             end
         end.

(** A step of [r] leaves the control point and the lock object of the
    other processes alone. *)
Lemma do_call_other (r r' : Z) (c : call) (st : state) :
  r' ≠ r →
  mem (do_call r c st) = mem st
  ∧ pcs (do_call r c st) r' = pcs st r'
  ∧ locks (do_call r c st) r' = locks st r'.
Proof.
  intros Hne. unfold_system. case_system; simpl;
    rewrite ?fn_lookup_insert_ne by done; done.
Qed.

Lemma advance_other (r r' : Z) (st : state) :
  r' ≠ r →
  pcs (advance r st) r' = pcs st r'
  ∧ locks (advance r st) r' = locks st r'
  ∧ (mem (advance r st) !! (r', Mutex.lock_id) = mem st !! (r', Mutex.lock_id)
     ∨ ∃ k, pcs st r = Release_pass r' k
            ∧ mem (advance r st) !! (r', Mutex.lock_id) = Some 1).
Proof.
  intros Hne. unfold_system. case_system; simpl;
    rewrite ?fn_lookup_insert_ne by done;
    (split; [done|]); (split; [done|]);
    try (left; rewrite ?lookup_insert_ne by (unfold Mutex.lock_id, Mutex.next_id,
           Mutex.tail_id, Mutex.tail_rank; congruence); done).
  all: destruct (decide (next_rank = r')) as [->|];
    [right; eexists; split; [done|by rewrite lookup_insert_eq]
    |left; by rewrite lookup_insert_ne by congruence].
Qed.

Lemma release_pass_target (size : Z) (q : list Z) (m : memory) (pcs : Z → pc)
    (r s : Z) (k : release_caller) :
  invariant size q m pcs →
  0 ≤ r < size →
  pcs r = Release_pass s k →
  s ≠ r ∧ 0 ≤ s < size ∧ ∃ k', pcs s = Acquire_spin k'.
Proof.
  intros [Hnd Hrange Htail Hlink Hlast Hrank] Hr Hpc.
  destruct (Hrank r Hr) as (v & Hv & Hadm & Hext & Hn).
  rewrite Hpc in Hadm, Hext. apply admits_role in Hadm as [Hhead ->].
  apply role_of_Head in Hhead. destruct Hext as [Hs Hnext].
  destruct q as [|r0 [|s0 q2]]; simplify_eq/=.
  assert (0 ≤ s < size) as Hsr by (apply Hrange; set_solver).
  split; [|split; [done|]].
  - intros ->. apply NoDup_cons in Hnd as [Hx _]. apply Hx. constructor.
  - destruct (Hlink 0%nat r s eq_refl eq_refl) as [[_ ?]|[Hnull _]]; [done|].
    rewrite Hnull in Hnext. pose proof PROC_NULL_neg.
    unfold Mutex.null_rank in *. injection Hnext as Hnext. lia.
Qed.

Lemma count_ok_window (p : pc) (l : Condition.lock) (v : Z) :
  count_ok p l v → p ≠ Idle →
  Win_bool (Mutex._window (Condition.the_mutex l)) = true.
Proof.
  intros [Hw _] Hp. destruct (Win_bool _); [done|]. by destruct Hw.
Qed.

(** The calls of an idle process keep its count right. *)
Lemma count_do_call_self (size : Z) (q : list Z) (st : state) (r : Z) (c : call) (v : Z) :
  invariant size q (mem st) (pcs st) →
  0 ≤ r < size →
  pcs st r = Idle →
  mem st !! (r, Mutex.lock_id) = Some v →
  count_ok Idle (locks st r) v →
  count_ok (pcs (do_call r c st) r) (locks (do_call r c st) r) v.
Proof.
  intros Hinv Hr Hpc Hv Hok.
  assert (v = 0 ∨ v = 1) as Hv01.
  { destruct (inv_rank _ _ _ _ Hinv r Hr) as (v' & Hv' & Hadm & _).
    rewrite Hpc in Hadm. apply admits_role in Hadm. simplify_eq. naive_solver. }
  unfold do_call, enter_acquire, enter_release, null_window, set_count, set_lock, set_pc,
    window_ok, locked.
  rewrite Hv. unfold count_ok in *.
  destruct (locks st r) as [[w]|[[w] cnt]] eqn:Hl, c as [blocking| | |];
    simpl in *; destruct w as [|rk sz]; simpl in *;
    repeat (progress (simpl; rewrite ?Hv, ?fn_lookup_insert, ?Hpc, ?Hl;
                      repeat case_bool_decide));
    try naive_solver lia.
Qed.

Ltac slot_ne := unfold Mutex.lock_id, Mutex.next_id, Mutex.tail_id, Mutex.tail_rank; congruence.

(** The steps of a call keep the count of the caller right. *)
Lemma count_advance_self (size : Z) (q : list Z) (st : state) (r : Z) (v : Z) :
  invariant size q (mem st) (pcs st) →
  0 ≤ r < size →
  pcs st r ≠ Idle →
  mem st !! (r, Mutex.lock_id) = Some v →
  count_ok (pcs st r) (locks st r) v →
  ∃ v', mem (advance r st) !! (r, Mutex.lock_id) = Some v'
        ∧ count_ok (pcs (advance r st) r) (locks (advance r st) r) v'.
Proof.
  intros Hinv Hr Hidle Hv Hok.
  pose proof (count_ok_window _ _ _ Hok Hidle) as Hwin.
  pose proof Hinv as [Hnd Hrange Htail Hlink Hlast Hrank].
  destruct (Hrank r Hr) as (v0 & Hv0 & Hadm & Hext & [n Hn]). simplify_eq.
  unfold advance.
  destruct (pcs st r) as
    [|blocking k|blocking k|prev k|k|locked k|k|k|s k|k|saved] eqn:Hpc; [done|..].
  - (* Acquire_next *)
    exists v. unfold rma. rewrite (Accumulate_REPLACE_Some _ _ _ _ _ Hn). simpl.
    rewrite lookup_insert_ne by slot_ne. rewrite fn_lookup_insert. split; [done|].
    unfold count_ok in *. rewrite Hwin. destruct (locks st r); naive_solver.
  - (* Acquire_tail *)
    exists v. unfold rma. destruct blocking.
    + rewrite (Fetch_and_op_REPLACE_Some _ _ _ _ _ Htail).
      case_bool_decide; simpl; rewrite lookup_insert_ne by slot_ne;
        rewrite fn_lookup_insert; (split; [done|]);
        unfold count_ok in *; rewrite Hwin; destruct (locks st r); naive_solver.
    + rewrite (Compare_and_swap_Some _ _ _ _ _ _ Htail).
      case_bool_decide; simpl; rewrite ?lookup_insert_ne by slot_ne;
        rewrite fn_lookup_insert; (split; [done|]);
        unfold count_ok in *; rewrite Hwin; destruct (locks st r); try done;
        destruct Hok as [_ [? Hk]]; (split; [done|]); (split; [done|]);
        by destruct k as [| |[]]; simpl in *; try done; destruct Hk.
  - (* Acquire_link *)
    destruct (invariant_acquire_link size q (mem st) (pcs st) r prev k Hinv Hr Hpc)
      as [[old Hold] _].
    exists v. unfold rma. rewrite (Accumulate_REPLACE_Some _ _ _ _ _ Hold). simpl.
    rewrite lookup_insert_ne by slot_ne. rewrite fn_lookup_insert. split; [done|].
    unfold count_ok in *. rewrite Hwin. destruct (locks st r); naive_solver.
  - (* Acquire_spin *)
    exists v. unfold rma. rewrite (memoryview_Some _ _ _ _ Hv).
    case_bool_decide; simpl; [by rewrite Hpc|].
    rewrite fn_lookup_insert. split; [done|].
    unfold count_ok in *. rewrite Hwin. destruct (locks st r); naive_solver.
  - (* Acquire_flag *)
    exists (Z.b2z locked). unfold rma. rewrite (Accumulate_REPLACE_Some _ _ _ _ _ Hv).
    destruct (return_acquire_mem_pcs r locked k
                (set_mem (<[(r, Mutex.lock_id) := Z.b2z locked]> (mem st)) st)) as [-> ->].
    simpl. rewrite lookup_insert_eq, fn_lookup_insert. split; [done|].
    unfold return_acquire, set_count, set_lock, set_pc, set_mem. unfold count_ok in *.
    destruct (locks st r) as [mx|[mx cnt]] eqn:Hl, k as [| |[saved|]], locked;
      repeat (progress (simpl in *; rewrite ?Hl, ?fn_lookup_insert, ?Hwin));
      try naive_solver lia.
  - (* Release_tail *)
    exists v. unfold rma. rewrite (Compare_and_swap_Some _ _ _ _ _ _ Htail).
    repeat case_bool_decide; simpl; rewrite ?lookup_insert_ne by slot_ne;
      rewrite fn_lookup_insert; (split; [done|]);
      unfold count_ok in *; rewrite Hwin; destruct (locks st r); naive_solver.
  - (* Release_spin *)
    exists v. unfold rma. rewrite (memoryview_Some _ _ _ _ Hn).
    case_bool_decide; simpl; [by rewrite Hpc|].
    rewrite fn_lookup_insert. split; [done|].
    unfold count_ok in *. rewrite Hwin. destruct (locks st r); naive_solver.
  - (* Release_pass *)
    destruct (release_pass_target size q (mem st) (pcs st) r s k Hinv Hr Hpc)
      as (Hsr & Hs & _).
    destruct (Hrank s Hs) as (vs & Hvs & _).
    exists v. unfold rma. rewrite (Accumulate_REPLACE_Some _ _ _ _ _ Hvs). simpl.
    rewrite lookup_insert_ne by congruence. rewrite fn_lookup_insert. split; [done|].
    unfold count_ok in *. rewrite Hwin. destruct (locks st r); naive_solver.
  - (* Release_flag *)
    exists 0. unfold rma. rewrite (Accumulate_REPLACE_Some _ _ _ _ _ Hv).
    unfold return_release, null_window, set_count, set_lock, set_pc, set_mem.
    unfold count_ok in *.
    destruct (locks st r) as [mx|[mx cnt]] eqn:Hl, k as [|[saved|]|];
      repeat (progress (simpl in *;
                        rewrite ?Hl, ?lookup_insert_eq, ?fn_lookup_insert, ?Hwin));
      try naive_solver lia.
  - (* Saved *)
    apply admits_role in Hadm as [_ ->].
    exists 0. unfold enter_acquire, window_ok, locked, set_pc. simpl. rewrite Hwin, Hv.
    simpl. rewrite fn_lookup_insert. split; [done|].
    unfold count_ok in *. rewrite Hwin.
    destruct (locks st r), saved; naive_solver.
Qed.

Lemma count_invariant_step (size : Z) (q : list Z) (st st' : state) (r : Z) (e : event) :
  invariant size q (mem st) (pcs st) →
  count_invariant size st →
  0 ≤ r < size →
  step r e st = Some st' →
  count_invariant size st'.
Proof.
  intros Hinv Hcount Hr Hstep r' Hr'.
  destruct (Hcount r' Hr') as (v & Hv & Hok).
  unfold step in Hstep. destruct (decide (r' = r)) as [->|Hne].
  - destruct e as [c|].
    + destruct (pcs st r) eqn:Hpc; try done. injection Hstep as <-.
      exists v. split.
      * by destruct (do_call_other r (r + 1) c st ltac:(lia)) as [-> _].
      * by apply (count_do_call_self size q st r c v).
    + assert (pcs st r ≠ Idle) as Hidle by (by destruct (pcs st r)).
      assert (st' = advance r st) as -> by (destruct (pcs st r); congruence).
      by apply (count_advance_self size q st r v).
  - destruct e as [c|].
    + destruct (pcs st r) eqn:Hpc; try done. injection Hstep as <-.
      destruct (do_call_other r r' c st Hne) as (-> & -> & ->). by exists v.
    + assert (st' = advance r st) as -> by (destruct (pcs st r); congruence).
      destruct (advance_other r r' st Hne) as (-> & -> & [->|(k & Hpc & ->)]);
        [by exists v|].
      destruct (release_pass_target size q (mem st) (pcs st) r r' k Hinv Hr Hpc)
        as (_ & _ & k' & Hpc').
      exists 1. split; [done|]. rewrite Hpc' in *.
      unfold count_ok in *. destruct Hok as [Hw Hc]. split; [|done].
      intros Hnull. by destruct (Hw Hnull).
Qed.

Lemma count_invariant_init (size : nat) (recursive : Z → bool) :
  count_invariant (Z.of_nat size) (init size recursive).
Proof.
  intros r Hr. exists 0. simpl. unfold Mutex.window_init. rewrite lookup_allocate.
  rewrite decide_True by (unfold Mutex.lock_id; lia).
  split; [by case_bool_decide|].
  unfold count_ok. destruct (recursive r); simpl; naive_solver.
Qed.

Lemma count_invariant_reachable (size : nat) (st : state) :
  reachable size st → count_invariant (Z.of_nat size) st.
Proof.
  intros Hreach. induction Hreach as [recursive|st r e st' Hreach IH Hr Hstep].
  - apply count_invariant_init.
  - destruct (invariant_reachable size st Hreach) as [q Hinv]; [lia|].
    by eapply count_invariant_step.
Qed.
End count.

(** C7.  Let process [r] own a recursive mutex.  In every state that
    the processes can reach, by any interleaving of the steps of their
    calls ([acquire], [release], [free], and the [_release_save] and
    [_acquire_restore] that [Condition.wait] makes on the lock), the
    count of [r] is not negative; and whenever a call of [r] has
    returned and the next has not begun, be it between two calls of
    the public methods or between the [_release_save] and the
    [_acquire_restore] of a [wait], its count is positive exactly when
    its [LOCK] slot is not 0, that is, when the mutex is held by [r].
    After [_release_save] in particular the count is 0, the [LOCK]
    slot is 0, and the state saved for [_acquire_restore] is the
    count from before, which was positive. *)
Theorem RMutex_count_invariant (size : nat) (st : System.state) (r : Z) (rm : RMutex.t) :
  System.reachable size st →
  0 ≤ r < Z.of_nat size →
  System.locks st r = Condition.Recursive rm →
  0 ≤ RMutex._count rm
  ∧ (System.pcs st r = System.Idle ∨ (∃ saved, System.pcs st r = System.Saved saved) →
     (0 < RMutex._count rm ↔ ∃ v, System.lock_slot st r = Some v ∧ v ≠ 0))
  ∧ (∀ saved, System.pcs st r = System.Saved saved →
       RMutex._count rm = 0 ∧ System.lock_slot st r = Some 0
       ∧ ∃ count, saved = Some count ∧ 0 < count).
Proof.
  intros Hreach Hr Hl.
  destruct (count_invariant_reachable size st Hreach r Hr) as (v & Hv & Hw & Hc).
  destruct (invariant_reachable size st Hreach ltac:(lia)) as [q Hinv].
  destruct (System.inv_rank _ _ _ _ Hinv r Hr) as (v' & Hv' & Hadm & _).
  rewrite Hv in Hv'. injection Hv' as <-. apply admits_role in Hadm.
  rewrite Hl in Hc. unfold System.lock_slot. rewrite Hv.
  assert (∀ saved, System.pcs st r = System.Saved saved →
            RMutex._count rm = 0 ∧ v = 0 ∧ ∃ count, saved = Some count ∧ 0 < count) as Hsaved.
  { intros saved Hpc. rewrite Hpc in Hc, Hadm. destruct Hadm as [_ ->].
    destruct saved as [count|]; [|done]. destruct Hc as [-> Hpos].
    split; [done|]. split; [done|]. by exists count. }
  split; [|split].
  - destruct (System.pcs st r) as [| | | | | |k|k|s k|k|[saved|]]; simpl in Hc;
      try lia; try (by destruct k as [|[]|]; simpl in Hc; lia).
  - intros [Hpc|[saved Hpc]].
    + rewrite Hpc in Hc. simpl in Hc. split.
      * intros Hpos. exists v. split; [done|]. lia.
      * intros (v1 & [= <-] & Hn). lia.
    + destruct (Hsaved saved Hpc) as (Hcount & -> & _). split; [lia|].
      intros (v1 & [= <-] & Hn). done.
  - intros saved Hpc. destruct (Hsaved saved Hpc) as (Hcount & -> & Hs). done.
Qed.

Lemma RMutex_count_invariant_witness :
  let held :=
    [(0, System.Call (System.Acquire true)); (0, System.Advance); (0, System.Advance);
     (0, System.Advance);
     (0, System.Call (System.Acquire true));
     (1, System.Call (System.Acquire false)); (1, System.Advance); (1, System.Advance);
     (1, System.Advance)] in
  let save :=
    [(0, System.Call System.Release_save); (0, System.Advance); (0, System.Advance)] in
  let restore :=
    [(0, System.Advance); (0, System.Advance); (0, System.Advance); (0, System.Advance)] in
  let init := System.init 2 (λ _, true) in
  let st1 := default init (System.run held init) in
  let st2 := default init (System.run (held ++ save) init) in
  let st3 := default init (System.run (held ++ save ++ restore) init) in
  let rm count := {| RMutex._block := Mutex.new 2 0; RMutex._count := count |} in
  (System.pcs st1 0 = System.Idle
   ∧ System.locks st1 0 = Condition.Recursive (rm 2)
   ∧ System.lock_slot st1 0 = Some 1)
  ∧ (System.pcs st2 0 = System.Saved (Some 2)
     ∧ System.locks st2 0 = Condition.Recursive (rm 0)
     ∧ System.lock_slot st2 0 = Some 0)
  ∧ (System.pcs st3 0 = System.Idle
     ∧ System.locks st3 0 = Condition.Recursive (rm 2)
     ∧ System.lock_slot st3 0 = Some 1)
  ∧ 0 ≤ RMutex._count (rm 0)
  ∧ (System.pcs st2 0 = System.Idle ∨ (∃ saved, System.pcs st2 0 = System.Saved saved) →
     (0 < RMutex._count (rm 0) ↔ ∃ v, System.lock_slot st2 0 = Some v ∧ v ≠ 0))
  ∧ (∀ saved, System.pcs st2 0 = System.Saved saved →
       RMutex._count (rm 0) = 0 ∧ System.lock_slot st2 0 = Some 0
       ∧ ∃ count, saved = Some count ∧ 0 < count).
Proof.
  intros held save restore init st1 st2 st3 rm.
  assert (System.run (held ++ save) init = Some st2) as Hrun.
  { unfold st2. destruct (System.run (held ++ save) init) eqn:Heq; [done|].
    vm_compute in Heq. discriminate. }
  split; [repeat split; vm_compute; reflexivity|].
  split; [repeat split; vm_compute; reflexivity|].
  split; [repeat split; vm_compute; reflexivity|].
  apply (RMutex_count_invariant 2 st2 0 (rm 0)).
  - apply (run_reachable_system 2 (held ++ save) init st2).
    + apply System.reachable_init.
    + repeat constructor; simpl; lia.
    + done.
  - lia.
  - vm_compute. reflexivity.
Defined.

(** ** The two embeddings of [Mutex] agree

    When a call of [Mutex.acquire] or [Mutex.release], run as one
    method with nobody else stepping, returns, then the same call run
    step by step in the transition system, again with nobody else
    stepping, returns within four steps and leaves the same memory. *)

Section agree.
Import System.

Lemma spinloop_Ret (polls : nat) (self_rank index sentinel v : Z) (m m' : memory) :
  Mutex._spinloop polls self_rank index sentinel m = (Ret v, m') →
  m !! (self_rank, index) = Some v ∧ v ≠ sentinel ∧ m' = m.
Proof.
  revert m m'. induction polls as [|polls IH]; intros m m'; simpl;
    unfold bind, memoryview; destruct (m !! (self_rank, index)) as [w|] eqn:Hw;
    try done; case_bool_decide as Hs; try done.
  - unfold ret. by intros [= <- <-].
  - intros Hrec. destruct (IH _ _ Hrec) as (Hv & Hne & ->). rewrite Hw in Hv.
    by injection Hv as <-.
  - unfold ret. by intros [= <- <-].
Qed.

Lemma finish_Idle (fuel : nat) (r : Z) (st : state) :
  pcs st r = Idle → finish fuel r st = Some st.
Proof. intros H. destruct fuel; simpl; by rewrite H. Qed.

Lemma finish_S (fuel : nat) (r : Z) (st : state) :
  pcs st r ≠ Idle → finish (S fuel) r st = finish fuel r (advance r st).
Proof. intros H. simpl. by destruct (pcs st r). Qed.

(** More fuel does not change the result of [finish]. *)
Lemma finish_fuel (fuel more : nat) (r : Z) (st st' : state) :
  finish fuel r st = Some st' → finish (more + fuel) r st = Some st'.
Proof.
  revert st. induction fuel as [|fuel IH]; intros st; simpl.
  - destruct (pcs st r) eqn:Hpc; try done. intros [= <-]. by apply finish_Idle.
  - replace (more + S fuel)%nat with (S (more + fuel)) by lia. simpl.
    destruct (pcs st r); try done; apply IH.
Qed.

(** The steps, as equations. *)
Lemma advance_acquire_next (r : Z) (st : state) (blocking : bool) (k : acquire_caller)
    (n : Z) :
  pcs st r = Acquire_next blocking k →
  mem st !! (r, Mutex.next_id) = Some n →
  advance r st
  = set_pc r (Acquire_tail blocking k)
      (set_mem (<[(r, Mutex.next_id) := Mutex.null_rank]> (mem st)) st).
Proof.
  intros Hpc Hn. unfold advance, rma. rewrite Hpc.
  by rewrite (Accumulate_REPLACE_Some _ _ _ _ _ Hn).
Qed.

Lemma advance_acquire_tail (r : Z) (st : state) (blocking : bool) (k : acquire_caller)
    (prev : Z) :
  pcs st r = Acquire_tail blocking k →
  mem st !! (Mutex.tail_rank, Mutex.tail_id) = Some prev →
  advance r st
  = if blocking then
      set_pc r (if bool_decide (prev = Mutex.null_rank)
                then Acquire_flag true k else Acquire_link prev k)
        (set_mem (<[(Mutex.tail_rank, Mutex.tail_id) := r]> (mem st)) st)
    else
      set_pc r (Acquire_flag (bool_decide (prev = Mutex.null_rank)) k)
        (set_mem (if bool_decide (prev = Mutex.null_rank)
                  then <[(Mutex.tail_rank, Mutex.tail_id) := r]> (mem st)
                  else mem st) st).
Proof.
  intros Hpc Ht. unfold advance, rma. rewrite Hpc. destruct blocking.
  - rewrite (Fetch_and_op_REPLACE_Some _ _ _ _ _ Ht). by case_bool_decide.
  - by rewrite (Compare_and_swap_Some _ _ _ _ _ _ Ht).
Qed.

Lemma advance_acquire_flag (r : Z) (st : state) (held : bool) (k : acquire_caller)
    (v : Z) :
  pcs st r = Acquire_flag held k →
  mem st !! (r, Mutex.lock_id) = Some v →
  advance r st
  = return_acquire r held k
      (set_mem (<[(r, Mutex.lock_id) := Z.b2z held]> (mem st)) st).
Proof.
  intros Hpc Hv. unfold advance, rma. rewrite Hpc.
  by rewrite (Accumulate_REPLACE_Some _ _ _ _ _ Hv).
Qed.

Lemma advance_release_tail (r : Z) (st : state) (k : release_caller) (prev : Z) :
  pcs st r = Release_tail k →
  mem st !! (Mutex.tail_rank, Mutex.tail_id) = Some prev →
  advance r st
  = if bool_decide (prev = r)
    then set_pc r (Release_flag k)
           (set_mem (<[(Mutex.tail_rank, Mutex.tail_id) := Mutex.null_rank]> (mem st)) st)
    else set_pc r (Release_spin k) (set_mem (mem st) st).
Proof.
  intros Hpc Ht. unfold advance, rma. rewrite Hpc.
  rewrite (Compare_and_swap_Some _ _ _ _ _ _ Ht). by case_bool_decide.
Qed.

Lemma advance_release_spin (r : Z) (st : state) (k : release_caller) (n : Z) :
  pcs st r = Release_spin k →
  mem st !! (r, Mutex.next_id) = Some n →
  advance r st
  = if bool_decide (n = Mutex.null_rank)
    then set_mem (mem st) st
    else set_pc r (Release_pass n k) (set_mem (mem st) st).
Proof.
  intros Hpc Hn. unfold advance, rma. rewrite Hpc.
  rewrite (memoryview_Some _ _ _ _ Hn). by case_bool_decide.
Qed.

Lemma advance_release_pass (r : Z) (st : state) (k : release_caller) (s v : Z) :
  pcs st r = Release_pass s k →
  mem st !! (s, Mutex.lock_id) = Some v →
  advance r st
  = set_pc r (Release_flag k) (set_mem (<[(s, Mutex.lock_id) := 1]> (mem st)) st).
Proof.
  intros Hpc Hv. unfold advance, rma. rewrite Hpc.
  by rewrite (Accumulate_REPLACE_Some _ _ _ _ _ Hv).
Qed.

Lemma advance_release_flag (r : Z) (st : state) (k : release_caller) (v : Z) :
  pcs st r = Release_flag k →
  mem st !! (r, Mutex.lock_id) = Some v →
  advance r st
  = return_release r k (set_mem (<[(r, Mutex.lock_id) := 0]> (mem st)) st).
Proof.
  intros Hpc Hv. unfold advance, rma. rewrite Hpc.
  by rewrite (Accumulate_REPLACE_Some _ _ _ _ _ Hv).
Qed.

Ltac slot_ne := unfold Mutex.lock_id, Mutex.next_id, Mutex.tail_id, Mutex.tail_rank; congruence.
Ltac pc_now := cbn [pcs mem set_pc set_mem return_acquire return_release];
               rewrite ?fn_lookup_insert; try done.

Lemma rma_None (m : memory) (v c r d : Z) :
  m !! (r, d) = None →
  Accumulate_REPLACE v r d m = (Raise MPIException, m)
  ∧ Fetch_and_op_REPLACE v r d m = (Raise MPIException, m)
  ∧ Compare_and_swap v c r d m = (Raise MPIException, m)
  ∧ memoryview r d m = (Raise MPIException, m).
Proof.
  intros H. unfold Accumulate_REPLACE, Fetch_and_op_REPLACE, Compare_and_swap, memoryview.
  by rewrite H.
Qed.

(** [Mutex.acquire]: a call that returns as one method returns in the
    transition system too, with the same window. *)
Lemma acquire_agrees (polls : nat) (blocking : bool) (st : state) (r size : Z)
    (s' : Mutex.state) (held : bool) :
  locks st r = Condition.Plain {| Mutex._window := WIN r size |} →
  pcs st r = Idle →
  Mutex.acquire polls blocking
    {| Mutex.self := {| Mutex._window := WIN r size |}; Mutex.mem := mem st |}
  = (Ret held, s') →
  ∃ st', finish 4 r (do_call r (Acquire blocking) st) = Some st'
         ∧ mem st' = Mutex.mem s'
         ∧ pcs st' r = Idle.
Proof.
  intros Hl Hpc.
  unfold Mutex.acquire, bind, gets. cbn [Mutex.self Mutex._window].
  unfold Mutex.locked, bind, gets. cbn [Mutex.self Mutex._window].
  unfold Mutex.rma at 1, zoom. cbn [Mutex.mem Mutex.self].
  destruct (mem st !! (r, Mutex.lock_id)) as [v|] eqn:Hv; last first.
  { destruct (rma_None _ 0 0 _ _ Hv) as (_ & _ & _ & ->). done. }
  rewrite (memoryview_Some _ _ _ _ Hv). unfold ret at 1.
  case_bool_decide as Hv0; cbn [negb]; [subst v|done].
  unfold Mutex.rma at 1, zoom. cbn [Mutex.mem Mutex.self].
  destruct (mem st !! (r, Mutex.next_id)) as [n|] eqn:Hn; last first.
  { destruct (rma_None _ Mutex.null_rank 0 _ _ Hn) as (-> & _). done. }
  rewrite (Accumulate_REPLACE_Some _ _ _ _ _ Hn).
  set (m1 := <[(r, Mutex.next_id) := Mutex.null_rank]> (mem st)).
  assert (m1 !! (r, Mutex.lock_id) = Some 0) as Hv1.
  { unfold m1. by rewrite lookup_insert_ne by slot_ne. }
  set (st0 := set_pc r (Acquire_next blocking By_user) st).
  assert (do_call r (Acquire blocking) st = st0) as Hcall.
  { unfold do_call, enter_acquire, window_ok, locked. rewrite Hl, Hv. done. }
  set (st1 := set_pc r (Acquire_tail blocking By_user) (set_mem m1 st0)).
  assert (advance r st0 = st1) as Hst1.
  { rewrite (advance_acquire_next r st0 blocking By_user n); [done| |done].
    unfold st0. pc_now. }
  unfold Mutex.rma at 1, zoom. cbn [Mutex.mem Mutex.self].
  destruct (m1 !! (Mutex.tail_rank, Mutex.tail_id)) as [prev|] eqn:Ht; last first.
  { destruct (rma_None _ r Mutex.null_rank _ _ Ht) as (_ & Hf & Hc & _).
    destruct blocking; [rewrite Hf|rewrite Hc]; done. }
  assert (∀ st2 flag,
            pcs st2 r = Acquire_flag flag By_user →
            mem st2 !! (r, Mutex.lock_id) = Some 0 →
            ∃ st', finish 2 r st2 = Some st'
                   ∧ mem st' = <[(r, Mutex.lock_id) := Z.b2z flag]> (mem st2)
                   ∧ pcs st' r = Idle) as Hflag.
  { intros st2 flag Hpc2 Hm2. eexists. split; [|split].
    - rewrite finish_S by (rewrite Hpc2; done).
      rewrite (advance_acquire_flag r st2 flag By_user 0) by done.
      apply finish_Idle. pc_now.
    - done.
    - pc_now. }
  destruct blocking.
  - rewrite (Fetch_and_op_REPLACE_Some _ _ _ _ _ Ht). cbn [andb].
    case_bool_decide as Hprev; cbn [negb].
    + set (m2 := <[(Mutex.tail_rank, Mutex.tail_id) := r]> m1).
      assert (m2 !! (r, Mutex.lock_id) = Some 0) as Hm2.
      { unfold m2. by rewrite lookup_insert_ne by slot_ne. }
      unfold ret at 1. unfold Mutex.rma, zoom. cbn [Mutex.mem Mutex.self].
      rewrite (Accumulate_REPLACE_Some _ _ _ _ _ Hm2). unfold ret. intros [= <- <-].
      destruct (Hflag (set_pc r (Acquire_flag true By_user) (set_mem m2 st1)) true)
        as (st' & Hfin & Hmem & Hidle); [pc_now|done|].
      exists st'. split; [|done]. rewrite Hcall.
      rewrite finish_S by (unfold st0; pc_now). rewrite Hst1.
      rewrite finish_S by (unfold st1; pc_now).
      rewrite (advance_acquire_tail r st1 true By_user prev) by (unfold st1; pc_now).
      rewrite (bool_decide_eq_true_2 _ Hprev). exact Hfin.
    + (* contended: alone, the caller would poll for ever *)
      unfold Mutex.rma at 1, zoom. cbn [Mutex.mem Mutex.self].
      destruct (<[(Mutex.tail_rank, Mutex.tail_id) := r]> m1 !! (prev, Mutex.next_id))
        as [pn|] eqn:Hp; last first.
      { destruct (rma_None _ r 0 _ _ Hp) as (-> & _). done. }
      rewrite (Accumulate_REPLACE_Some _ _ _ _ _ Hp).
      unfold Mutex.rma at 1, zoom. cbn [Mutex.mem Mutex.self].
      destruct (Mutex._spinloop polls r Mutex.lock_id 0 _) as [[w| |] m3] eqn:Hspin;
        try done.
      apply spinloop_Ret in Hspin as (Hw & Hw0 & _).
      exfalso. apply Hw0.
      rewrite lookup_insert_ne in Hw by slot_ne.
      rewrite lookup_insert_ne in Hw by slot_ne. congruence.
  - rewrite (Compare_and_swap_Some _ _ _ _ _ _ Ht). cbn [andb].
    set (m2 := if bool_decide (prev = Mutex.null_rank)
               then <[(Mutex.tail_rank, Mutex.tail_id) := r]> m1 else m1).
    assert (m2 !! (r, Mutex.lock_id) = Some 0) as Hm2.
    { unfold m2. case_bool_decide; [|done]. by rewrite lookup_insert_ne by slot_ne. }
    unfold ret at 1. unfold Mutex.rma, zoom. cbn [Mutex.mem Mutex.self].
    rewrite (Accumulate_REPLACE_Some _ _ _ _ _ Hm2). unfold ret. intros [= <- <-].
    destruct (Hflag (set_pc r (Acquire_flag (bool_decide (prev = Mutex.null_rank)) By_user)
                       (set_mem m2 st1)) (bool_decide (prev = Mutex.null_rank)))
      as (st' & Hfin & Hmem & Hidle); [pc_now|done|].
    exists st'. split; [|done]. rewrite Hcall.
    rewrite finish_S by (unfold st0; pc_now). rewrite Hst1.
    rewrite finish_S by (unfold st1; pc_now).
    rewrite (advance_acquire_tail r st1 false By_user prev) by (unfold st1; pc_now).
    exact Hfin.
Qed.

(** [Mutex.release], likewise. *)
Lemma release_agrees (polls : nat) (st : state) (r size : Z) (s' : Mutex.state) :
  locks st r = Condition.Plain {| Mutex._window := WIN r size |} →
  pcs st r = Idle →
  Mutex.release polls
    {| Mutex.self := {| Mutex._window := WIN r size |}; Mutex.mem := mem st |}
  = (Ret tt, s') →
  ∃ st', finish 4 r (do_call r Release st) = Some st'
         ∧ mem st' = Mutex.mem s'
         ∧ pcs st' r = Idle.
Proof.
  intros Hl Hpc.
  unfold Mutex.release, bind, gets. cbn [Mutex.self Mutex._window].
  unfold Mutex.locked, bind, gets. cbn [Mutex.self Mutex._window].
  unfold Mutex.rma at 1, zoom. cbn [Mutex.mem Mutex.self].
  destruct (mem st !! (r, Mutex.lock_id)) as [v|] eqn:Hv; last first.
  { destruct (rma_None _ 0 0 _ _ Hv) as (_ & _ & _ & ->). done. }
  rewrite (memoryview_Some _ _ _ _ Hv). unfold ret at 1.
  case_bool_decide as Hv0; cbn [negb]; [done|].
  set (st0 := set_pc r (Release_tail For_user) st).
  assert (do_call r Release st = st0) as Hcall.
  { unfold do_call, enter_release, window_ok, locked. rewrite Hl, Hv.
    by rewrite (bool_decide_eq_false_2 _ Hv0). }
  unfold Mutex.rma at 1, zoom. cbn [Mutex.mem Mutex.self].
  destruct (mem st !! (Mutex.tail_rank, Mutex.tail_id)) as [prev|] eqn:Ht; last first.
  { destruct (rma_None _ Mutex.null_rank r _ _ Ht) as (_ & _ & -> & _). done. }
  rewrite (Compare_and_swap_Some _ _ _ _ _ _ Ht).
  assert (∀ st2,
            pcs st2 r = Release_flag For_user →
            mem st2 !! (r, Mutex.lock_id) = Some v →
            ∃ st', finish 2 r st2 = Some st'
                   ∧ mem st' = <[(r, Mutex.lock_id) := 0]> (mem st2)
                   ∧ pcs st' r = Idle) as Hflag.
  { intros st2 Hpc2 Hm2. eexists. split; [|split].
    - rewrite finish_S by (rewrite Hpc2; done).
      rewrite (advance_release_flag r st2 For_user v) by done.
      apply finish_Idle. pc_now.
    - done.
    - pc_now. }
  rewrite Hcall. rewrite finish_S by (unfold st0; pc_now).
  rewrite (advance_release_tail r st0 For_user prev) by (unfold st0; pc_now).
  case_bool_decide as Hprev; cbn [negb].
  - (* no successor: the queue is empty again *)
    unfold ret at 1. unfold Mutex.rma, zoom. cbn [Mutex.mem Mutex.self].
    set (m1 := <[(Mutex.tail_rank, Mutex.tail_id) := Mutex.null_rank]> (mem st)).
    assert (m1 !! (r, Mutex.lock_id) = Some v) as Hm1.
    { unfold m1. by rewrite lookup_insert_ne by slot_ne. }
    rewrite (Accumulate_REPLACE_Some _ _ _ _ _ Hm1). intros [= <-].
    destruct (Hflag (set_pc r (Release_flag For_user) (set_mem m1 st0)))
      as (st' & Hfin & Hmem & Hidle); [pc_now|done|].
    exists st'. split; [|done].
    exact (finish_fuel 2 1 r _ _ Hfin).
  - (* a successor: wait for its link, then pass the lock over *)
    unfold Mutex.rma at 1, zoom. cbn [Mutex.mem Mutex.self].
    destruct (Mutex._spinloop polls r Mutex.next_id Mutex.null_rank (mem st))
      as [[n| |] m3] eqn:Hspin; try done.
    apply spinloop_Ret in Hspin as (Hn & Hn0 & ->).
    unfold Mutex.rma at 1, zoom. cbn [Mutex.mem Mutex.self].
    destruct (mem st !! (n, Mutex.lock_id)) as [w|] eqn:Hw; last first.
    { destruct (rma_None _ 1 0 _ _ Hw) as (-> & _). done. }
    rewrite (Accumulate_REPLACE_Some _ _ _ _ _ Hw).
    set (m1 := <[(n, Mutex.lock_id) := 1]> (mem st)).
    unfold Mutex.rma, zoom. cbn [Mutex.mem Mutex.self].
    destruct (m1 !! (r, Mutex.lock_id)) as [v1|] eqn:Hm1; last first.
    { destruct (rma_None _ 0 0 _ _ Hm1) as (-> & _). done. }
    rewrite (Accumulate_REPLACE_Some _ _ _ _ _ Hm1). intros [= <-].
    set (st1 := set_pc r (Release_spin For_user) (set_mem (mem st0) st0)).
    rewrite finish_S by (unfold st1; pc_now).
    rewrite (advance_release_spin r st1 For_user n) by (unfold st1, st0; pc_now).
    rewrite (bool_decide_eq_false_2 _ Hn0).
    set (st2 := set_pc r (Release_pass n For_user) (set_mem (mem st1) st1)).
    rewrite finish_S by (unfold st2; pc_now).
    rewrite (advance_release_pass r st2 For_user n w) by (unfold st2, st1, st0; pc_now).
    set (st3 := set_pc r (Release_flag For_user) _).
    rewrite finish_S by (unfold st3; pc_now).
    rewrite (advance_release_flag r st3 For_user v1) by (unfold st3, st2, st1, st0; pc_now).
    eexists. split; [apply finish_Idle; pc_now|]. split; pc_now.
Qed.
End agree.

(** ** Counter: calls with increments of their own *)

Section counter_calls.
Context (size : nat) (start step : Z) (tc : typecode) (root : Z).

Lemma counter_next_incr (c : Counter.t) (incr : option Z) (m : memory) v :
  Counter.object_of size start step tc root c →
  tc_fits tc (Counter.increment c incr) = true →
  m !! (root, 0) = Some v →
  Counter.next incr c m
  = (Ret v, <[(root, 0) := tc_wrap tc (v + Counter.increment c incr)]> m).
Proof.
  intros [rank ->] Hfit Hv.
  unfold Counter.next, Counter.new, Counter.increment, array1, Fetch_and_op_SUM, bind, ret in *;
    simpl in *.
  by rewrite Hfit, Hv.
Qed.

Lemma counter_calls_sum (cs : list (Counter.t * option Z)) : ∀ (m : memory) v,
  Forall (λ c, Counter.object_of size start step tc root c.1) cs →
  Forall (λ c, tc_fits tc (Counter.increment c.1 c.2) = true) cs →
  m !! (root, 0) = Some (tc_wrap tc v) →
  let incrs := (λ c, Counter.increment c.1 c.2) <$> cs in
  ∃ m', Counter.calls cs m
        = ((λ i : nat, Ret (tc_wrap tc (v + foldr Z.add 0 (take i incrs)))) <$> seq 0 (length cs),
           m')
        ∧ m' !! (root, 0) = Some (tc_wrap tc (v + foldr Z.add 0 incrs))
        ∧ ∀ k, k ≠ (root, 0) → m' !! k = m !! k.
Proof.
  induction cs as [|[c incr] rest IH]; intros m v Hobj Hfit Hv incrs.
  - exists m. split; [done|]. split; [|done]. simpl. by rewrite Z.add_0_r.
  - apply Forall_cons in Hobj as [Hc Hobj]. apply Forall_cons in Hfit as [Hi Hfit].
    simpl in Hc, Hi.
    destruct (IH (<[(root, 0) := tc_wrap tc (tc_wrap tc v + Counter.increment c incr)]> m)
                 (v + Counter.increment c incr))
      as (m' & Hrun & Hm' & Hframe); [done|done| |].
    { rewrite lookup_insert_eq. by rewrite tc_wrap_add_l. }
    exists m'. split; [|split].
    + cbn [Counter.calls]. rewrite (counter_next_incr c incr m (tc_wrap tc v)) by done.
      rewrite Hrun. cbn [length seq fmap list_fmap]. f_equal. f_equal.
      * simpl. by rewrite Z.add_0_r.
      * rewrite <- seq_shift. rewrite <- !list_fmap_compose.
        apply list_fmap_ext. intros _ i _. cbn [compose]. unfold incrs. rewrite fmap_cons.
        cbn [take foldr fst snd]. do 2 f_equal. lia.
    + rewrite Hm'. unfold incrs. rewrite fmap_cons. cbn [foldr fst snd]. do 2 f_equal. lia.
    + intros k Hk. rewrite Hframe by done. by rewrite lookup_insert_ne.
Qed.

Lemma foldr_add_Permutation (l l' : list Z) :
  l ≡ₚ l' → foldr Z.add 0 l = foldr Z.add 0 l'.
Proof. induction 1; simpl; lia. Qed.
End counter_calls.

(** X1.  Let calls [next(incr)], each with an increment of its own or
    the default one, be ordered by the runtime's atomic fetch-and-op on
    a counter whose slot holds [v].  When the increments fit the type
    code, the i-th call returns [v] plus the increments of the calls
    before it, reduced into the range of the type code; the slot ends
    at [v] plus all the increments, reduced likewise, and no other slot
    of the window is touched; so the calls made in any other order
    leave the same window. *)
Theorem Counter_next_accumulates (size : nat) (start step : Z) (tc : typecode) (root : Z)
    (cs cs' : list (Counter.t * option Z)) (m : memory) (v : Z) :
  Forall (λ c, Counter.object_of size start step tc root c.1) cs →
  Forall (λ c, tc_fits tc (Counter.increment c.1 c.2) = true) cs →
  m !! (root, 0) = Some v →
  tc_fits tc v = true →
  cs ≡ₚ cs' →
  let incrs := (λ c, Counter.increment c.1 c.2) <$> cs in
  (Counter.calls cs m).1
  = (λ i : nat, Ret (tc_wrap tc (v + foldr Z.add 0 (take i incrs)))) <$> seq 0 (length cs)
  ∧ (Counter.calls cs m).2 = <[(root, 0) := tc_wrap tc (v + foldr Z.add 0 incrs)]> m
  ∧ (Counter.calls cs' m).2 = (Counter.calls cs m).2.
Proof.
  intros Hobj Hfit Hv Hfv Hperm incrs.
  assert (m !! (root, 0) = Some (tc_wrap tc v)) as Hv' by (by rewrite tc_wrap_fits).
  destruct (counter_calls_sum size start step tc root cs m v Hobj Hfit Hv')
    as (m1 & Hrun & Hm1 & Hframe).
  destruct (counter_calls_sum size start step tc root cs' m v) as (m2 & Hrun' & Hm2 & Hframe');
    [by rewrite <- Hperm|by rewrite <- Hperm|done|].
  cbv zeta in *. fold incrs in Hrun, Hm1.
  assert (∀ m', m' !! (root, 0) = Some (tc_wrap tc (v + foldr Z.add 0 incrs)) →
                (∀ k, k ≠ (root, 0) → m' !! k = m !! k) →
                m' = <[(root, 0) := tc_wrap tc (v + foldr Z.add 0 incrs)]> m) as Heq.
  { intros m' H1 H2. apply map_eq. intros k.
    destruct (decide (k = (root, 0))) as [->|Hk].
    - by rewrite lookup_insert_eq.
    - rewrite lookup_insert_ne by done. by apply H2. }
  rewrite Hrun, Hrun'. simpl. split; [done|]. split; [by apply Heq|].
  rewrite (Heq m1) by done. apply Heq; [|done].
  rewrite Hm2. do 3 f_equal. apply foldr_add_Permutation. unfold incrs. by rewrite Hperm.
Qed.

Lemma Counter_next_accumulates_witness :
  let c := λ rank, Counter.new 3 rank 10 1 tc_b 0 in
  let cs := [(c 2, Some 100); (c 0, None); (c 1, Some 20); (c 2, Some (-5))] in
  let cs' := [(c 1, Some 20); (c 2, Some (-5)); (c 2, Some 100); (c 0, None)] in
  let m := allocate 3 (λ rank, if bool_decide (rank = 0) then [10] else []) in
  (Counter.calls cs m).1 = [Ret 10; Ret 110; Ret 111; Ret (-125)]
  ∧ (Counter.calls cs m).2 = <[(0, 0) := 126]> m
  ∧ (Counter.calls cs' m).2 = (Counter.calls cs m).2.
Proof.
  intros c cs cs' m.
  apply (Counter_next_accumulates 3 10 1 tc_b 0 cs cs' m 10).
  - repeat constructor; by eexists.
  - repeat constructor.
  - reflexivity.
  - reflexivity.
  - unfold cs, cs'. apply (Permutation_app_comm [_; _] [_; _]).
Defined.

(** X2.  [Counter.__init__] stores the step without looking at it; it
    is [next] that builds an array item from the increment.  A call
    [next(incr)] whose increment, given or default, is outside the
    range of the counter's type code raises [OverflowError] before the
    window is touched: after any number of such calls the window is as
    it was.  So a counter constructed with a step out of range never
    counts. *)
Theorem Counter_next_overflow (size : nat) (start step : Z) (tc : typecode) (root : Z)
    (cs : list (Counter.t * option Z)) (m : memory) :
  Forall (λ c, Counter.object_of size start step tc root c.1) cs →
  Forall (λ c, tc_fits tc (Counter.increment c.1 c.2) = false) cs →
  Counter.calls cs m = (replicate (length cs) (Raise OverflowError), m).
Proof.
  induction cs as [|[c incr] rest IH]; intros Hobj Hfit; [done|].
  apply Forall_cons in Hobj as [Hc Hobj]. apply Forall_cons in Hfit as [Hi Hfit].
  cbn [fst snd] in Hc, Hi. destruct Hc as [rank ->].
  cbn [Counter.calls length replicate].
  assert (Counter.next incr (Counter.new (Z.of_nat size) rank start step tc root) m
          = (Raise OverflowError, m)) as ->.
  { unfold Counter.next, Counter.new, Counter.increment, array1, bind, raise in *; simpl in *.
    by rewrite Hi. }
  by rewrite IH.
Qed.

Lemma Counter_next_overflow_witness :
  let c := λ rank, Counter.new 2 rank 0 (2 ^ 31) tc_i 0 in
  ∃ m, Counter.window_init 2 0 tc_i 0 = Ret m
       ∧ Counter.calls [(c 0, None); (c 1, None); (c 1, Some (-(2 ^ 31) - 1))] m
         = (replicate 3 (Raise OverflowError), m).
Proof.
  intros c. eexists. split; [reflexivity|].
  apply (Counter_next_overflow 2 0 (2 ^ 31) tc_i 0).
  - repeat constructor; by eexists.
  - repeat constructor.
Defined.

(** ** Mutex and RMutex: guards, results and hand-over *)

Section lock_calls.

Lemma Mutex_locked_Some (s : Mutex.state) (rank size v : Z) :
  Mutex._window (Mutex.self s) = WIN rank size →
  Mutex.mem s !! (rank, Mutex.lock_id) = Some v →
  Mutex.locked s = (Ret (negb (bool_decide (v = 0))), s).
Proof.
  intros Hwin Hv. destruct s as [[w] m]; simpl in *. subst w.
  unfold Mutex.locked, bind, gets; simpl.
  unfold Mutex.rma, zoom; simpl. by rewrite (memoryview_Some _ _ _ _ Hv).
Qed.

Lemma Mutex_acquire_held (polls : nat) (blocking : bool) (s : Mutex.state) (rank size v : Z) :
  Mutex._window (Mutex.self s) = WIN rank size →
  Mutex.mem s !! (rank, Mutex.lock_id) = Some v →
  v ≠ 0 →
  Mutex.acquire polls blocking s
  = (Raise (RuntimeError "cannot acquire already held mutex"), s).
Proof.
  intros Hwin Hv Hne. unfold Mutex.acquire, bind at 1, gets. rewrite Hwin.
  unfold bind at 1. rewrite (Mutex_locked_Some s rank size v) by done.
  by rewrite bool_decide_eq_false_2.
Qed.

Lemma Mutex_release_unheld (polls : nat) (s : Mutex.state) (rank size : Z) :
  Mutex._window (Mutex.self s) = WIN rank size →
  Mutex.mem s !! (rank, Mutex.lock_id) = Some 0 →
  Mutex.release polls s = (Raise (RuntimeError "cannot release unheld mutex"), s).
Proof.
  intros Hwin Hv. unfold Mutex.release, bind at 1, gets. rewrite Hwin.
  unfold bind at 1. by rewrite (Mutex_locked_Some s rank size 0).
Qed.

Lemma RMutex_block_locked (s : RMutex.state) (rank size v : Z) :
  Mutex._window (RMutex._block (RMutex.self s)) = WIN rank size →
  RMutex.mem s !! (rank, Mutex.lock_id) = Some v →
  RMutex.block Mutex.locked s = (Ret (negb (bool_decide (v = 0))), s).
Proof.
  intros Hwin Hv. unfold RMutex.block, zoom.
  rewrite (Mutex_locked_Some _ rank size v) by done.
  by destruct s as [[b c] m].
Qed.

Lemma RMutex_release_unheld (polls : nat) (s : RMutex.state) (rank size : Z) :
  Mutex._window (RMutex._block (RMutex.self s)) = WIN rank size →
  RMutex.mem s !! (rank, Mutex.lock_id) = Some 0 →
  RMutex.release polls s = (Raise (RuntimeError "cannot release unheld mutex"), s).
Proof.
  intros Hwin Hv. unfold RMutex.release, bind at 1.
  by rewrite (RMutex_block_locked s rank size 0).
Qed.
End lock_calls.

(** X3.  The guards of the locks.  [Mutex.acquire] by the process
    that holds the mutex raises "cannot acquire already held mutex",
    [Mutex.release] and [RMutex.release] by a process that does not
    hold it raise "cannot release unheld mutex"; each leaves the object
    and the window as they were, the recursion count included. *)
Theorem Lock_guards (polls : nat) (blocking : bool) (s : Mutex.state) (count : Z)
    (rank size v : Z) :
  Mutex._window (Mutex.self s) = WIN rank size →
  Mutex.mem s !! (rank, Mutex.lock_id) = Some v →
  let rs := {| RMutex.self := {| RMutex._block := Mutex.self s; RMutex._count := count |};
               RMutex.mem := Mutex.mem s |} in
  (v ≠ 0 →
   Mutex.acquire polls blocking s
   = (Raise (RuntimeError "cannot acquire already held mutex"), s)
   ∧ AlreadyHeld (RuntimeError "cannot acquire already held mutex") = true)
  ∧ (v = 0 →
     Mutex.release polls s = (Raise (RuntimeError "cannot release unheld mutex"), s)
     ∧ RMutex.release polls rs = (Raise (RuntimeError "cannot release unheld mutex"), rs)
     ∧ NotHeld (RuntimeError "cannot release unheld mutex") = true).
Proof.
  intros Hwin Hv rs. split.
  - intros Hne. split; [|done]. by apply (Mutex_acquire_held polls blocking s rank size v).
  - intros ->. split; [|split; [|done]].
    + by apply (Mutex_release_unheld polls s rank size).
    + by apply (RMutex_release_unheld polls rs rank size).
Qed.

Lemma Lock_guards_witness :
  let s0 := {| Mutex.self := Mutex.new 2 1; Mutex.mem := Mutex.window_init 2 |} in
  let s1 := (Mutex.acquire 0 true s0).2 in
  Mutex.mem s0 !! (1, Mutex.lock_id) = Some 0
  ∧ Mutex.mem s1 !! (1, Mutex.lock_id) = Some 1
  ∧ Mutex.acquire 0 false s1
    = (Raise (RuntimeError "cannot acquire already held mutex"), s1)
  ∧ Mutex.release 0 s0 = (Raise (RuntimeError "cannot release unheld mutex"), s0).
Proof.
  intros s0 s1. split; [reflexivity|]. split; [reflexivity|]. split.
  - apply (Lock_guards 0 false s1 0 1 2 1); [reflexivity|reflexivity|discriminate].
  - apply (Lock_guards 0 false s0 0 1 2 0); [reflexivity|reflexivity|reflexivity].
Defined.

Section mutex_alone.
Import Mutex.

Lemma spinloop_Spin (polls : nat) (self_rank index sentinel : Z) (m : memory) :
  m !! (self_rank, index) = Some sentinel →
  _spinloop polls self_rank index sentinel m = (Spin, m).
Proof.
  intros Hm. induction polls as [|polls IH]; simpl; unfold bind;
    rewrite (memoryview_Some _ _ _ _ Hm); by rewrite bool_decide_eq_true_2.
Qed.

Lemma spinloop_now (polls : nat) (self_rank index sentinel v : Z) (m : memory) :
  m !! (self_rank, index) = Some v → v ≠ sentinel →
  _spinloop polls self_rank index sentinel m = (Ret v, m).
Proof.
  intros Hm Hne. destruct polls; simpl; unfold bind;
    rewrite (memoryview_Some _ _ _ _ Hm); by rewrite bool_decide_eq_false_2.
Qed.

Ltac slot_ne := unfold lock_id, next_id, tail_id, tail_rank; congruence.

(** [acquire] from its guards on, on a window whose slots exist. *)
Lemma acquire_alone (polls : nat) (blocking : bool) (w : t) (m : memory)
    (rank size next tail : Z) :
  _window w = WIN rank size →
  m !! (rank, lock_id) = Some 0 →
  m !! (rank, next_id) = Some next →
  m !! (tail_rank, tail_id) = Some tail →
  let m1 := <[(rank, next_id) := null_rank]> m in
  acquire polls blocking {| self := w; mem := m |}
  = if bool_decide (tail = null_rank) then
      (Ret true, {| self := w;
                    mem := <[(rank, lock_id) := 1]> (<[(tail_rank, tail_id) := rank]> m1) |})
    else if blocking then
      match m1 !! (tail, next_id) with
      | Some _ =>
          (Spin, {| self := w;
                    mem := <[(tail, next_id) := rank]> (<[(tail_rank, tail_id) := rank]> m1) |})
      | None =>
          (Raise MPIException, {| self := w; mem := <[(tail_rank, tail_id) := rank]> m1 |})
      end
    else (Ret false, {| self := w; mem := m1 |}).
Proof.
  intros Hwin Hlock Hnext Htail m1.
  assert (m1 !! (tail_rank, tail_id) = Some tail) as Htail1.
  { unfold m1. by rewrite lookup_insert_ne by slot_ne. }
  unfold acquire, bind at 1, gets. cbn [self]. rewrite Hwin.
  unfold bind at 1. rewrite (Mutex_locked_Some _ rank size 0) by done.
  rewrite bool_decide_eq_true_2 by done. cbn [negb].
  unfold bind at 1, rma at 1, zoom. cbn [mem self].
  rewrite (Accumulate_REPLACE_Some _ _ _ _ _ Hnext). fold m1.
  unfold bind at 1, rma at 1, zoom. cbn [mem self].
  destruct blocking.
  - rewrite (Fetch_and_op_REPLACE_Some _ _ _ _ _ Htail1). cbn [andb].
    case_bool_decide as Ht; cbn [negb].
    + unfold bind at 1, ret at 1. unfold bind, rma, zoom, ret. cbn [mem self].
      erewrite Accumulate_REPLACE_Some; [done|].
      rewrite lookup_insert_ne by slot_ne. unfold m1.
      rewrite lookup_insert_ne by slot_ne. done.
    + unfold bind at 1. unfold bind at 1, rma at 1, zoom. cbn [mem self].
      destruct (decide ((tail, next_id) = (tail_rank, tail_id))) as [Heq|Hne];
        [exfalso; revert Heq; slot_ne|].
      unfold Accumulate_REPLACE at 1. rewrite lookup_insert_ne by done.
      destruct (m1 !! (tail, next_id)) as [pn|] eqn:Hp; [|done].
      unfold bind at 1, rma at 1, zoom. cbn [mem self].
      rewrite spinloop_Spin; [done|].
      rewrite lookup_insert_ne by slot_ne. rewrite lookup_insert_ne by slot_ne.
      unfold m1. by rewrite lookup_insert_ne by slot_ne.
  - rewrite (Compare_and_swap_Some _ _ _ _ _ _ Htail1). cbn [andb].
    case_bool_decide as Ht.
    + unfold bind at 1, ret at 1. unfold bind, rma, zoom, ret. cbn [mem self].
      erewrite Accumulate_REPLACE_Some; [done|].
      rewrite lookup_insert_ne by slot_ne. unfold m1.
      rewrite lookup_insert_ne by slot_ne. done.
    + unfold bind at 1, ret at 1. unfold bind, rma, zoom, ret. cbn [mem self].
      erewrite Accumulate_REPLACE_Some; last first.
      { unfold m1. rewrite lookup_insert_ne by slot_ne. done. }
      do 2 f_equal. cbn [Z.b2z]. apply insert_id. unfold m1.
      by rewrite lookup_insert_ne by slot_ne.
Qed.

(** [release] from its guards on. *)
Lemma release_alone (polls : nat) (w : t) (m : memory) (rank size v next tail : Z) :
  _window w = WIN rank size →
  m !! (rank, lock_id) = Some v → v ≠ 0 →
  m !! (rank, next_id) = Some next →
  m !! (tail_rank, tail_id) = Some tail →
  release polls {| self := w; mem := m |}
  = if bool_decide (tail = rank) then
      (Ret tt, {| self := w;
                  mem := <[(rank, lock_id) := 0]> (<[(tail_rank, tail_id) := null_rank]> m) |})
    else if bool_decide (next = null_rank) then (Spin, {| self := w; mem := m |})
    else
      match m !! (next, lock_id) with
      | Some _ =>
          (Ret tt, {| self := w;
                      mem := <[(rank, lock_id) := 0]> (<[(next, lock_id) := 1]> m) |})
      | None => (Raise MPIException, {| self := w; mem := m |})
      end.
Proof.
  intros Hwin Hlock Hv Hnext Htail.
  unfold release, bind at 1, gets. cbn [self]. rewrite Hwin.
  unfold bind at 1. rewrite (Mutex_locked_Some _ rank size v) by done.
  rewrite bool_decide_eq_false_2 by done. cbn [negb].
  unfold bind at 1, rma at 1, zoom. cbn [mem self].
  rewrite (Compare_and_swap_Some _ _ _ _ _ _ Htail).
  case_bool_decide as Ht; cbn [negb].
  - unfold bind at 1, ret at 1. unfold rma, zoom. cbn [mem self].
    erewrite Accumulate_REPLACE_Some; [done|].
    by rewrite lookup_insert_ne by slot_ne.
  - unfold bind at 1. unfold bind at 1, rma at 1, zoom. cbn [mem self].
    case_bool_decide as Hn.
    + subst next. by rewrite spinloop_Spin.
    + rewrite (spinloop_now polls rank next_id null_rank next) by done.
      unfold rma at 1, zoom. cbn [mem self]. unfold Accumulate_REPLACE at 1.
      destruct (m !! (next, lock_id)) as [w'|] eqn:Hw; [|done].
      unfold rma, zoom. cbn [mem self].
      assert (is_Some (<[(next, lock_id) := 1]> m !! (rank, lock_id))) as [o Ho].
      { apply lookup_insert_is_Some'. right. by eexists. }
      by rewrite (Accumulate_REPLACE_Some _ _ _ _ _ Ho).
Qed.
End mutex_alone.

Section system_acquire.
Import System.

Lemma acquiring_advance (blocking : bool) (k : acquire_caller) (r : Z) (st : state) :
  acquiring blocking k (pcs st r) →
  acquiring blocking k (pcs (advance r st) r).
Proof.
  unfold advance.
  destruct (pcs st r) as
    [|blocking' k'|blocking' k'|prev k'|k'|locked k'|k'|k'|s k'|k'|saved] eqn:Hpc;
    simpl; try done.
  - by rewrite Hpc.
  - intros [-> ->]. unfold rma.
    destruct (Accumulate_REPLACE _ _ _ _) as [[a|e|] m]; simpl; rewrite fn_lookup_insert; done.
  - intros [-> ->]. unfold rma.
    destruct (if blocking then _ else _) as [[prev|e|] m]; simpl;
      [|rewrite fn_lookup_insert; done..].
    destruct blocking; simpl.
    + case_bool_decide; simpl; rewrite fn_lookup_insert; done.
    + rewrite fn_lookup_insert. done.
  - intros [-> ->]. unfold rma.
    destruct (Accumulate_REPLACE _ _ _ _) as [[a|e|] m]; simpl; rewrite fn_lookup_insert; done.
  - intros [-> ->]. unfold rma.
    destruct (memoryview _ _ _) as [[v|e|] m]; simpl; [|rewrite fn_lookup_insert; done..].
    case_bool_decide; simpl; [by rewrite Hpc|]. rewrite fn_lookup_insert. done.
  - intros _. unfold rma.
    destruct (Accumulate_REPLACE _ _ _ _) as [[a|e|] m]; simpl;
      [|rewrite fn_lookup_insert; done..].
    rewrite (proj2 (return_acquire_mem_pcs _ _ _ _)). by rewrite fn_lookup_insert.
Qed.

Lemma acquiring_run (blocking : bool) (k : acquire_caller) (r : Z)
    (schedule : list (Z * event)) : ∀ st st',
  acquiring blocking k (pcs st r) →
  Forall (λ re, re.1 = r → re.2 = Advance) schedule →
  run schedule st = Some st' →
  acquiring blocking k (pcs st' r).
Proof.
  induction schedule as [|[r' e] rest IH]; intros st st' Hacq Hall Hrun; simpl in Hrun.
  - by injection Hrun as <-.
  - apply Forall_cons in Hall as [He Hrest]. cbn [fst snd] in He.
    destruct (step r' e st) as [st1|] eqn:Hstep; [|done].
    apply (IH st1 st'); [|done|done].
    unfold step in Hstep. destruct (decide (r' = r)) as [->|Hne].
    + rewrite (He eq_refl) in Hstep.
      assert (st1 = advance r st) as -> by (destruct (pcs st r); congruence).
      by apply acquiring_advance.
    + destruct e as [c|].
      * destruct (pcs st r') eqn:Hpc; try done. injection Hstep as <-.
        by destruct (do_call_other r' r c st) as (_ & -> & _).
      * assert (st1 = advance r' st) as -> by (destruct (pcs st r'); congruence).
        by destruct (advance_other r' r st) as (-> & _).
Qed.
End system_acquire.

(** X4.  What [Mutex.acquire] returns, whatever the other processes
    do.  Let process [r] have passed the guards of
    [Mutex.acquire(blocking)], called by the user, by [RMutex.acquire]
    or by [_acquire_restore], in a state the processes can reach, and
    let the processes take steps in any order, [r] making no further
    call.  Whenever [r] is then about to return a value [b], a
    blocking call returns [True] only, also after it has waited in the
    queue and has left its spin loop; the return step writes [b] into
    the [LOCK] slot of [r] and nothing else, so that [locked()] right
    afterwards gives [b]; and the call returns to the caller that made
    it. *)
Theorem Mutex_acquire_result (size : nat) (st st1 : System.state) (r : Z)
    (blocking b : bool) (k k' : System.acquire_caller)
    (schedule : list (Z * System.event)) :
  System.reachable size st →
  0 ≤ r < Z.of_nat size →
  System.pcs st r = System.Acquire_next blocking k →
  Forall (λ re, 0 ≤ re.1 < Z.of_nat size) schedule →
  Forall (λ re, re.1 = r → re.2 = System.Advance) schedule →
  System.run schedule st = Some st1 →
  System.pcs st1 r = System.Acquire_flag b k' →
  (blocking = true → b = true)
  ∧ k' = k
  ∧ ∃ st2, System.step r System.Advance st1 = Some st2
           ∧ System.pcs st2 r = System.Idle
           ∧ System.mem st2 = <[(r, Mutex.lock_id) := Z.b2z b]> (System.mem st1)
           ∧ System.locked r st2 = b.
Proof.
  intros Hreach Hr Hpc Hrange Hcalls Hrun Hflag.
  assert (System.acquiring blocking k (System.pcs st1 r)) as Hacq.
  { apply (acquiring_run blocking k r schedule st st1); [|done|done]. by rewrite Hpc. }
  rewrite Hflag in Hacq. destruct Hacq as [Hb ->]. split; [done|]. split; [done|].
  pose proof (run_reachable_system size schedule st st1 Hreach Hrange Hrun) as Hreach1.
  destruct (invariant_reachable size st1 Hreach1 ltac:(lia)) as [q Hinv].
  destruct (System.inv_rank _ _ _ _ Hinv r Hr) as (v & Hv & _).
  exists (System.advance r st1). split; [|split; [|split]].
  - unfold System.step. by rewrite Hflag.
  - rewrite (advance_acquire_flag r st1 b k v Hflag Hv).
    rewrite (proj2 (return_acquire_mem_pcs _ _ _ _)). by rewrite fn_lookup_insert.
  - rewrite (advance_acquire_flag r st1 b k v Hflag Hv).
    by rewrite (proj1 (return_acquire_mem_pcs _ _ _ _)).
  - unfold System.locked. rewrite (advance_acquire_flag r st1 b k v Hflag Hv).
    rewrite (proj1 (return_acquire_mem_pcs _ _ _ _)). cbn [System.mem System.set_mem].
    rewrite lookup_insert_eq. by destruct b.
Qed.

Lemma Mutex_acquire_result_witness :
  let held :=
    [(0, System.Call (System.Acquire true)); (0, System.Advance); (0, System.Advance);
     (0, System.Advance);
     (1, System.Call (System.Acquire true))] in
  let schedule :=
    [(1, System.Advance); (1, System.Advance); (1, System.Advance); (1, System.Advance);
     (0, System.Call System.Release); (0, System.Advance); (0, System.Advance);
     (0, System.Advance); (0, System.Advance);
     (1, System.Advance)] in
  let init := System.init 2 (λ _, false) in
  let st := default init (System.run held init) in
  let st1 := default init (System.run schedule st) in
  (System.lock_slot st 0 = Some 1
   ∧ System.pcs st1 0 = System.Idle ∧ System.lock_slot st1 0 = Some 0
   ∧ System.lock_slot st1 1 = Some 1)
  ∧ (true = true → true = true)
  ∧ System.By_user = System.By_user
  ∧ ∃ st2, System.step 1 System.Advance st1 = Some st2
           ∧ System.pcs st2 1 = System.Idle
           ∧ System.mem st2 = <[(1, Mutex.lock_id) := Z.b2z true]> (System.mem st1)
           ∧ System.locked 1 st2 = true.
Proof.
  intros held schedule init st st1.
  assert (System.run held init = Some st) as Hrun.
  { unfold st. destruct (System.run held init) eqn:Heq; [done|].
    vm_compute in Heq. discriminate. }
  assert (System.run schedule st = Some st1) as Hrun1.
  { unfold st1. destruct (System.run schedule st) eqn:Heq; [done|].
    vm_compute in Heq. discriminate. }
  split; [repeat split; vm_compute; reflexivity|].
  apply (Mutex_acquire_result 2 st st1 1 true true System.By_user System.By_user schedule).
  - apply (run_reachable_system 2 held init st).
    + apply System.reachable_init.
    + repeat constructor; simpl; lia.
    + done.
  - lia.
  - vm_compute. reflexivity.
  - repeat constructor; simpl; lia.
  - repeat constructor; simpl; intros; (done || lia).
  - done.
  - vm_compute. reflexivity.
Defined.

(** X5.  [Mutex.acquire] of a mutex nobody holds or waits for ([TAIL]
    is [null_rank]) returns [True], blocking or not, without polling:
    the caller writes [null_rank] into its [NEXT], itself into [TAIL]
    and 1 into its [LOCK], and nothing else. *)
Theorem Mutex_acquire_free (polls : nat) (blocking : bool) (s : Mutex.state)
    (rank size next : Z) :
  Mutex._window (Mutex.self s) = WIN rank size →
  Mutex.mem s !! (rank, Mutex.lock_id) = Some 0 →
  Mutex.mem s !! (rank, Mutex.next_id) = Some next →
  Mutex.mem s !! (Mutex.tail_rank, Mutex.tail_id) = Some Mutex.null_rank →
  Mutex.acquire polls blocking s
  = (Ret true,
     {| Mutex.self := Mutex.self s;
        Mutex.mem := <[(rank, Mutex.lock_id) := 1]>
                       (<[(Mutex.tail_rank, Mutex.tail_id) := rank]>
                          (<[(rank, Mutex.next_id) := Mutex.null_rank]> (Mutex.mem s))) |}).
Proof.
  intros Hw Hl Hn Ht. destruct s as [w m]. cbn [Mutex.self Mutex.mem] in *.
  rewrite (acquire_alone polls blocking w m rank size next Mutex.null_rank) by done.
  by rewrite bool_decide_eq_true_2.
Qed.

Lemma Mutex_acquire_free_witness :
  let s := {| Mutex.self := Mutex.new 3 1; Mutex.mem := Mutex.window_init 3 |} in
  Mutex.acquire 0 false s
  = (Ret true,
     {| Mutex.self := Mutex.self s;
        Mutex.mem := <[(1, Mutex.lock_id) := 1]>
                       (<[(Mutex.tail_rank, Mutex.tail_id) := 1]>
                          (<[(1, Mutex.next_id) := Mutex.null_rank]> (Mutex.mem s))) |}).
Proof.
  intros s. apply (Mutex_acquire_free 0 false s 1 3 Mutex.null_rank); reflexivity.
Defined.

(** X6.  A blocking [Mutex.acquire] of a mutex whose [TAIL] holds a
    rank puts the caller behind that rank: it writes itself into
    [TAIL] and into the [NEXT] slot of the previous tail and then polls
    its own [LOCK] slot, which nobody has set: run alone it is still
    polling after any number of polls, and no [LOCK] slot has
    changed. *)
Theorem Mutex_acquire_enqueues (polls : nat) (s : Mutex.state) (rank size next tail pnext : Z) :
  Mutex._window (Mutex.self s) = WIN rank size →
  Mutex.mem s !! (rank, Mutex.lock_id) = Some 0 →
  Mutex.mem s !! (rank, Mutex.next_id) = Some next →
  Mutex.mem s !! (Mutex.tail_rank, Mutex.tail_id) = Some tail →
  tail ≠ Mutex.null_rank →
  Mutex.mem s !! (tail, Mutex.next_id) = Some pnext →
  ∃ s', Mutex.acquire polls true s = (Spin, s')
        ∧ Mutex.self s' = Mutex.self s
        ∧ Mutex.mem s' !! (Mutex.tail_rank, Mutex.tail_id) = Some rank
        ∧ Mutex.mem s' !! (tail, Mutex.next_id) = Some rank
        ∧ (∀ r, Mutex.mem s' !! (r, Mutex.lock_id) = Mutex.mem s !! (r, Mutex.lock_id))
        ∧ (∀ r, r ≠ rank → r ≠ tail →
             Mutex.mem s' !! (r, Mutex.next_id) = Mutex.mem s !! (r, Mutex.next_id)).
Proof.
  intros Hw Hl Hn Ht Hne Hp. destruct s as [w m]. cbn [Mutex.self Mutex.mem] in *.
  rewrite (acquire_alone polls true w m rank size next tail) by done.
  rewrite bool_decide_eq_false_2 by done.
  assert (is_Some (<[(rank, Mutex.next_id) := Mutex.null_rank]> m !! (tail, Mutex.next_id)))
    as [o Ho].
  { apply lookup_insert_is_Some'. right. by eexists. }
  rewrite Ho. eexists. split; [done|]. cbn [Mutex.self Mutex.mem].
  split; [done|]. split; [|split; [|split]].
  - rewrite lookup_insert_ne by (unfold Mutex.next_id, Mutex.tail_id; congruence).
    by rewrite lookup_insert_eq.
  - by rewrite lookup_insert_eq.
  - intros r. rewrite !lookup_insert_ne;
      [done|unfold Mutex.next_id, Mutex.lock_id; congruence
       |unfold Mutex.tail_id, Mutex.lock_id; congruence
       |unfold Mutex.next_id, Mutex.lock_id; congruence].
  - intros r Hr Hrt. rewrite !lookup_insert_ne;
      [done|congruence|unfold Mutex.tail_id, Mutex.next_id; congruence|congruence].
Qed.

Lemma Mutex_acquire_enqueues_witness :
  let held := (Mutex.acquire 0 true {| Mutex.self := Mutex.new 3 2;
                                       Mutex.mem := Mutex.window_init 3 |}).2 in
  let s := {| Mutex.self := Mutex.new 3 0; Mutex.mem := Mutex.mem held |} in
  ∃ s', Mutex.acquire 7 true s = (Spin, s')
        ∧ Mutex.self s' = Mutex.self s
        ∧ Mutex.mem s' !! (Mutex.tail_rank, Mutex.tail_id) = Some 0
        ∧ Mutex.mem s' !! (2, Mutex.next_id) = Some 0
        ∧ (∀ r, Mutex.mem s' !! (r, Mutex.lock_id) = Mutex.mem s !! (r, Mutex.lock_id))
        ∧ (∀ r, r ≠ 0 → r ≠ 2 →
             Mutex.mem s' !! (r, Mutex.next_id) = Mutex.mem s !! (r, Mutex.next_id)).
Proof.
  intros held s.
  apply (Mutex_acquire_enqueues 7 s 0 3 Mutex.null_rank 2 Mutex.null_rank);
    [reflexivity|reflexivity|reflexivity|reflexivity|discriminate|reflexivity].
Defined.

(** X7.  [Mutex.release] by the holder while another process is in the
    queue ([TAIL] is not the holder).  If that process has linked
    itself (the holder's [NEXT] holds its rank) the call writes 1 into
    the [LOCK] of exactly that rank and 0 into the holder's own, and
    leaves [TAIL] and every [NEXT] as they are; if it has not linked
    itself yet, the call polls the holder's [NEXT] and changes
    nothing. *)
Theorem Mutex_release_hands_over (polls : nat) (s : Mutex.state)
    (rank size v next tail w : Z) :
  Mutex._window (Mutex.self s) = WIN rank size →
  Mutex.mem s !! (rank, Mutex.lock_id) = Some v → v ≠ 0 →
  Mutex.mem s !! (rank, Mutex.next_id) = Some next →
  Mutex.mem s !! (Mutex.tail_rank, Mutex.tail_id) = Some tail →
  tail ≠ rank →
  (next ≠ Mutex.null_rank → Mutex.mem s !! (next, Mutex.lock_id) = Some w) →
  Mutex.release polls s
  = if bool_decide (next = Mutex.null_rank) then (Spin, s)
    else (Ret tt,
          {| Mutex.self := Mutex.self s;
             Mutex.mem := <[(rank, Mutex.lock_id) := 0]>
                            (<[(next, Mutex.lock_id) := 1]> (Mutex.mem s)) |}).
Proof.
  intros Hw Hl Hv Hn Ht Hne Hnext. destruct s as [o m]. cbn [Mutex.self Mutex.mem] in *.
  rewrite (release_alone polls o m rank size v next tail) by done.
  rewrite bool_decide_eq_false_2 by done.
  case_bool_decide; [done|]. by rewrite Hnext.
Qed.

Lemma Mutex_release_hands_over_witness :
  let held := (Mutex.acquire 0 true {| Mutex.self := Mutex.new 3 2;
                                       Mutex.mem := Mutex.window_init 3 |}).2 in
  let queued := (Mutex.acquire 0 true {| Mutex.self := Mutex.new 3 0;
                                         Mutex.mem := Mutex.mem held |}).2 in
  let s := {| Mutex.self := Mutex.new 3 2; Mutex.mem := Mutex.mem queued |} in
  Mutex.release 0 s
  = if bool_decide (0 = Mutex.null_rank) then (Spin, s)
    else (Ret tt,
          {| Mutex.self := Mutex.self s;
             Mutex.mem := <[(2, Mutex.lock_id) := 0]>
                            (<[(0, Mutex.lock_id) := 1]> (Mutex.mem s)) |}).
Proof.
  intros held queued s.
  apply (Mutex_release_hands_over 0 s 2 3 1 0 0 0);
    [reflexivity|reflexivity|discriminate|reflexivity|reflexivity|discriminate|reflexivity].
Defined.

Lemma free_alone (polls : nat) (w : Mutex.t) (m : memory) (rank size v next : Z) :
  Mutex._window w = WIN rank size →
  m !! (rank, Mutex.lock_id) = Some v →
  m !! (rank, Mutex.next_id) = Some next →
  (v ≠ 0 → m !! (Mutex.tail_rank, Mutex.tail_id) = Some rank) →
  Mutex.free polls {| Mutex.self := w; Mutex.mem := m |}
  = (Ret tt,
     {| Mutex.self := {| Mutex._window := WIN_NULL |};
        Mutex.mem := if bool_decide (v = 0) then m
                     else <[(rank, Mutex.lock_id) := 0]>
                            (<[(Mutex.tail_rank, Mutex.tail_id) := Mutex.null_rank]> m) |}).
Proof.
  intros Hw Hl Hn Ht.
  unfold Mutex.free, bind at 1, gets. cbn [Mutex.self]. rewrite Hw. cbn [Win_bool].
  unfold bind at 1. unfold bind at 1.
  rewrite (Mutex_locked_Some _ rank size v) by done.
  case_bool_decide as Hv; cbn [negb].
  - done.
  - rewrite (release_alone polls _ m rank size v next rank) by auto.
    by rewrite bool_decide_eq_true_2.
Qed.

(** X8.  [Mutex.free].  On a mutex its caller holds, with nobody
    queued behind it, [free] first releases: [TAIL] is [null_rank]
    again and the caller's [LOCK] is 0; on a mutex the caller does not
    hold it leaves the window as it is; in both cases the handle ends
    null.  On a handle that is null already it does nothing. *)
Theorem Mutex_free_releases (polls : nat) (s : Mutex.state) (rank size v next : Z) :
  (Mutex._window (Mutex.self s) = WIN rank size →
   Mutex.mem s !! (rank, Mutex.lock_id) = Some v →
   Mutex.mem s !! (rank, Mutex.next_id) = Some next →
   (v ≠ 0 → Mutex.mem s !! (Mutex.tail_rank, Mutex.tail_id) = Some rank) →
   Mutex.free polls s
   = (Ret tt,
      {| Mutex.self := {| Mutex._window := WIN_NULL |};
         Mutex.mem := if bool_decide (v = 0) then Mutex.mem s
                      else <[(rank, Mutex.lock_id) := 0]>
                             (<[(Mutex.tail_rank, Mutex.tail_id) := Mutex.null_rank]>
                                (Mutex.mem s)) |}))
  ∧ (Mutex._window (Mutex.self s) = WIN_NULL → Mutex.free polls s = (Ret tt, s)).
Proof.
  destruct s as [[w] m]. cbn [Mutex.self Mutex.mem Mutex._window]. split.
  - intros -> Hl Hn Ht. by apply (free_alone polls _ m rank size v next).
  - intros ->. done.
Qed.

Lemma Mutex_free_releases_witness :
  let held := (Mutex.acquire 0 true {| Mutex.self := Mutex.new 3 2;
                                       Mutex.mem := Mutex.window_init 3 |}).2 in
  Mutex.mem held !! (2, Mutex.lock_id) = Some 1
  ∧ Mutex.mem held !! (Mutex.tail_rank, Mutex.tail_id) = Some 2
  ∧ Mutex.free 0 held
    = (Ret tt, {| Mutex.self := {| Mutex._window := WIN_NULL |};
                  Mutex.mem := Mutex.window_init 3 |}).
Proof.
  intros held. split; [reflexivity|]. split; [reflexivity|].
  pose proof (proj1 (Mutex_free_releases 0 held 2 3 1 Mutex.null_rank)) as H.
  rewrite H; [|reflexivity|reflexivity|reflexivity|reflexivity].
  by vm_compute.
Defined.

(** ** RMutex: recursion *)

Section rmutex_calls.
Import RMutex.

Lemma block_run {A} (op : M Mutex.state A) (b : Mutex.t) (c : Z) (m : memory)
    (o : outcome A) (b' : Mutex.t) (m' : memory) :
  op {| Mutex.self := b; Mutex.mem := m |} = (o, {| Mutex.self := b'; Mutex.mem := m' |}) →
  block op {| self := {| _block := b; _count := c |}; mem := m |}
  = (o, {| self := {| _block := b'; _count := c |}; mem := m' |}).
Proof. intros H. unfold block, zoom. cbn [self mem _block _count]. by rewrite H. Qed.
End rmutex_calls.

(** X9.  [RMutex.acquire] by the process that holds the mutex returns
    [True] at once, blocking or not: it adds one to the recursion count
    and touches nothing in the window; the [release] that follows takes
    the one away again and, the count not being back at 0, leaves the
    mutex held: the pair is the identity. *)
Theorem RMutex_reentrant (polls : nat) (blocking : bool) (s : RMutex.state)
    (rank size v : Z) :
  Mutex._window (RMutex._block (RMutex.self s)) = WIN rank size →
  RMutex.mem s !! (rank, Mutex.lock_id) = Some v → v ≠ 0 →
  RMutex._count (RMutex.self s) ≠ 0 →
  ∃ s1, RMutex.acquire polls blocking s = (Ret true, s1)
        ∧ RMutex.mem s1 = RMutex.mem s
        ∧ RMutex._block (RMutex.self s1) = RMutex._block (RMutex.self s)
        ∧ RMutex._count (RMutex.self s1) = RMutex._count (RMutex.self s) + 1
        ∧ RMutex.locked s1 = (Ret true, s1)
        ∧ RMutex.release polls s1 = (Ret tt, s).
Proof.
  intros Hw Hl Hv Hc. destruct s as [[b c] m]. cbn [RMutex.self RMutex.mem RMutex._block
    RMutex._count] in *.
  eexists. split; [|split; [|split; [|split; [|split]]]].
  - unfold RMutex.acquire, bind at 1.
    rewrite (RMutex_block_locked _ rank size v) by done.
    rewrite bool_decide_eq_false_2 by done. cbn [negb].
    unfold bind, gets, RMutex.set_count, modify, ret. cbn [RMutex.self RMutex.mem
      RMutex._block RMutex._count]. reflexivity.
  - done.
  - done.
  - done.
  - unfold RMutex.locked. rewrite (RMutex_block_locked _ rank size v) by done.
    by rewrite bool_decide_eq_false_2.
  - unfold RMutex.release, bind at 1.
    rewrite (RMutex_block_locked _ rank size v) by done.
    rewrite bool_decide_eq_false_2 by done. cbn [negb].
    unfold bind, gets, RMutex.set_count, modify, ret. cbn [RMutex.self RMutex.mem
      RMutex._block RMutex._count].
    rewrite bool_decide_eq_false_2 by lia. do 3 f_equal. lia.
Qed.

Lemma RMutex_reentrant_witness :
  let s0 := {| RMutex.self := RMutex.new 2 1; RMutex.mem := Mutex.window_init 2 |} in
  let s := (RMutex.acquire 0 true s0).2 in
  RMutex._count (RMutex.self s) = 1
  ∧ ∃ s1, RMutex.acquire 0 false s = (Ret true, s1)
          ∧ RMutex.mem s1 = RMutex.mem s
          ∧ RMutex._block (RMutex.self s1) = RMutex._block (RMutex.self s)
          ∧ RMutex._count (RMutex.self s1) = RMutex._count (RMutex.self s) + 1
          ∧ RMutex.locked s1 = (Ret true, s1)
          ∧ RMutex.release 0 s1 = (Ret tt, s).
Proof.
  intros s0 s. split; [reflexivity|].
  apply (RMutex_reentrant 0 false s 1 2 1); [reflexivity|reflexivity|discriminate|discriminate].
Defined.

(** X10.  The outermost level of an [RMutex] nobody holds or waits
    for: [acquire] takes the underlying mutex and sets the count to 1;
    the [release] that brings the count back to 0 releases the
    underlying mutex: [TAIL] is [null_rank] again, the caller's [LOCK]
    is 0, and the only slot that may differ from before is the caller's
    own [NEXT], which holds [null_rank]. *)
Theorem RMutex_outermost (polls : nat) (blocking : bool) (s : RMutex.state)
    (rank size next : Z) :
  Mutex._window (RMutex._block (RMutex.self s)) = WIN rank size →
  RMutex.mem s !! (rank, Mutex.lock_id) = Some 0 →
  RMutex.mem s !! (rank, Mutex.next_id) = Some next →
  RMutex.mem s !! (Mutex.tail_rank, Mutex.tail_id) = Some Mutex.null_rank →
  ∃ s1 s2,
    RMutex.acquire polls blocking s = (Ret true, s1)
    ∧ RMutex._count (RMutex.self s1) = 1
    ∧ RMutex.locked s1 = (Ret true, s1)
    ∧ RMutex.release polls s1 = (Ret tt, s2)
    ∧ RMutex._count (RMutex.self s2) = 0
    ∧ RMutex._block (RMutex.self s2) = RMutex._block (RMutex.self s)
    ∧ RMutex.mem s2 = <[(rank, Mutex.next_id) := Mutex.null_rank]> (RMutex.mem s)
    ∧ RMutex.locked s2 = (Ret false, s2).
Proof.
  intros Hw Hl Hn Ht. destruct s as [[b c] m]. cbn [RMutex.self RMutex.mem RMutex._block
    RMutex._count] in *.
  set (m1 := <[(rank, Mutex.lock_id) := 1]>
               (<[(Mutex.tail_rank, Mutex.tail_id) := rank]>
                  (<[(rank, Mutex.next_id) := Mutex.null_rank]> m))).
  set (m2 := <[(rank, Mutex.next_id) := Mutex.null_rank]> m).
  assert (m1 !! (rank, Mutex.lock_id) = Some 1) as Hl1 by (unfold m1; by rewrite lookup_insert_eq).
  assert (m2 !! (rank, Mutex.lock_id) = Some 0) as Hl2.
  { unfold m2. rewrite lookup_insert_ne by (unfold Mutex.next_id, Mutex.lock_id; congruence).
    done. }
  exists {| RMutex.self := {| RMutex._block := b; RMutex._count := 1 |}; RMutex.mem := m1 |},
         {| RMutex.self := {| RMutex._block := b; RMutex._count := 0 |}; RMutex.mem := m2 |}.
  split; [|split; [done|split; [|split; [|split; [done|split; [done|split; [done|]]]]]]].
  - unfold RMutex.acquire, bind at 1.
    rewrite (RMutex_block_locked _ rank size 0) by done.
    rewrite bool_decide_eq_true_2 by done. cbn [negb].
    unfold bind at 1.
    rewrite (block_run _ b c m (Ret true) b m1).
    + reflexivity.
    + rewrite (acquire_alone polls blocking b m rank size next Mutex.null_rank) by done.
      by rewrite bool_decide_eq_true_2.
  - unfold RMutex.locked. rewrite (RMutex_block_locked _ rank size 1) by done. done.
  - unfold RMutex.release, bind at 1.
    rewrite (RMutex_block_locked _ rank size 1) by done.
    rewrite bool_decide_eq_false_2 by done. cbn [negb].
    unfold bind at 1, gets. unfold bind at 1, RMutex.set_count, modify.
    cbn [RMutex.self RMutex.mem RMutex._block RMutex._count].
    rewrite bool_decide_eq_true_2 by done.
    apply block_run.
    rewrite (release_alone polls b m1 rank size 1 Mutex.null_rank rank); try done.
    + rewrite bool_decide_eq_true_2 by done. do 2 f_equal.
      unfold m1, m2. apply map_eq. intros [r d].
      destruct (decide ((r, d) = (rank, Mutex.lock_id))) as [->|Hne1].
      { rewrite lookup_insert_eq.
        rewrite lookup_insert_ne by (unfold Mutex.next_id, Mutex.lock_id; congruence). done. }
      rewrite lookup_insert_ne by done.
      destruct (decide ((r, d) = (Mutex.tail_rank, Mutex.tail_id))) as [->|Hne2].
      { rewrite lookup_insert_eq.
        rewrite lookup_insert_ne by (unfold Mutex.next_id, Mutex.tail_id; congruence). done. }
      rewrite lookup_insert_ne by done. rewrite lookup_insert_ne by done.
      rewrite lookup_insert_ne by done. done.
    + unfold m1. rewrite lookup_insert_ne by (unfold Mutex.next_id, Mutex.lock_id; congruence).
      rewrite lookup_insert_ne by (unfold Mutex.next_id, Mutex.tail_id; congruence).
      by rewrite lookup_insert_eq.
    + unfold m1. rewrite lookup_insert_ne by (unfold Mutex.tail_id, Mutex.lock_id; congruence).
      by rewrite lookup_insert_eq.
  - unfold RMutex.locked. rewrite (RMutex_block_locked _ rank size 0) by done. done.
Qed.

Lemma RMutex_outermost_witness :
  let s := {| RMutex.self := RMutex.new 2 1; RMutex.mem := Mutex.window_init 2 |} in
  ∃ s1 s2,
    RMutex.acquire 0 true s = (Ret true, s1)
    ∧ RMutex._count (RMutex.self s1) = 1
    ∧ RMutex.locked s1 = (Ret true, s1)
    ∧ RMutex.release 0 s1 = (Ret tt, s2)
    ∧ RMutex._count (RMutex.self s2) = 0
    ∧ RMutex._block (RMutex.self s2) = RMutex._block (RMutex.self s)
    ∧ RMutex.mem s2 = <[(1, Mutex.next_id) := Mutex.null_rank]> (RMutex.mem s)
    ∧ RMutex.locked s2 = (Ret false, s2).
Proof.
  intros s.
  apply (RMutex_outermost 0 true s 1 2 Mutex.null_rank);
    [reflexivity|reflexivity|reflexivity|reflexivity].
Defined.

(** X11.  [RMutex.free] by the holder, whatever the recursion count,
    with nobody queued behind it: the underlying mutex is released once
    ([TAIL] is [null_rank], the caller's [LOCK] is 0), its handle is
    null and the count is 0.  On a mutex the caller does not hold the
    window is left as it is. *)
Theorem RMutex_free_releases (polls : nat) (s : RMutex.state) (rank size v next : Z) :
  Mutex._window (RMutex._block (RMutex.self s)) = WIN rank size →
  RMutex.mem s !! (rank, Mutex.lock_id) = Some v →
  RMutex.mem s !! (rank, Mutex.next_id) = Some next →
  (v ≠ 0 → RMutex.mem s !! (Mutex.tail_rank, Mutex.tail_id) = Some rank) →
  RMutex.free polls s
  = (Ret tt,
     {| RMutex.self := {| RMutex._block := {| Mutex._window := WIN_NULL |};
                          RMutex._count := 0 |};
        RMutex.mem := if bool_decide (v = 0) then RMutex.mem s
                      else <[(rank, Mutex.lock_id) := 0]>
                             (<[(Mutex.tail_rank, Mutex.tail_id) := Mutex.null_rank]>
                                (RMutex.mem s)) |}).
Proof.
  intros Hw Hl Hn Ht. destruct s as [[b c] m]. cbn [RMutex.self RMutex.mem RMutex._block
    RMutex._count] in *.
  unfold RMutex.free, bind.
  erewrite block_run; last by apply (free_alone polls b m rank size v next).
  reflexivity.
Qed.

Lemma RMutex_free_releases_witness :
  let s0 := {| RMutex.self := RMutex.new 2 1; RMutex.mem := Mutex.window_init 2 |} in
  let s := (RMutex.acquire 0 true (RMutex.acquire 0 true s0).2).2 in
  RMutex._count (RMutex.self s) = 2
  ∧ RMutex.free 0 s
    = (Ret tt,
       {| RMutex.self := {| RMutex._block := {| Mutex._window := WIN_NULL |};
                            RMutex._count := 0 |};
          RMutex.mem := if bool_decide (1 = 0) then RMutex.mem s
                        else <[(1, Mutex.lock_id) := 0]>
                               (<[(Mutex.tail_rank, Mutex.tail_id) := Mutex.null_rank]>
                                  (RMutex.mem s)) |}).
Proof.
  intros s0 s. split; [reflexivity|].
  apply (RMutex_free_releases 0 s 1 2 1 Mutex.null_rank);
    [reflexivity|reflexivity|reflexivity|reflexivity].
Defined.

(** ** Condition: guards, notify_all, wait, free *)

Section condition_calls.
Import Condition.

Lemma with_mutex_the_mutex (l : lock) : with_mutex (the_mutex l) l = l.
Proof. by destruct l as [m|[b c]]. Qed.

Lemma the_mutex_with_count (c : Z) (l : lock) : the_mutex (with_count c l) = the_mutex l.
Proof. by destruct l. Qed.

(** A call on the plain mutex behind the lock that leaves the mutex
    object as it is. *)
Lemma mutex_run {A} (op : M Mutex.state A) (l : lock) (ow : bool) (w : Win)
    (lm m : memory) (o : outcome A) (lm' : memory) :
  op {| Mutex.self := the_mutex l; Mutex.mem := lm |}
  = (o, {| Mutex.self := the_mutex l; Mutex.mem := lm' |}) →
  mutex op {| self := {| _lock := l; _lock_owned := ow; _window := w |};
              lock_mem := lm; mem := m |}
  = (o, {| self := {| _lock := l; _lock_owned := ow; _window := w |};
           lock_mem := lm'; mem := m |}).
Proof.
  intros H. unfold mutex, zoom. cbn [self _lock lock_mem mem]. rewrite H.
  cbn [Mutex.self Mutex.mem set_lock self _lock_owned _window mem lock_mem].
  by rewrite with_mutex_the_mutex.
Qed.

Lemma cond_locked (s : state) (lrank lsize v : Z) :
  Mutex._window (the_mutex (_lock (self s))) = WIN lrank lsize →
  lock_mem s !! (lrank, Mutex.lock_id) = Some v →
  locked s = (Ret (negb (bool_decide (v = 0))), s).
Proof.
  intros Hw Hv. destruct s as [[l ow w] lm m]. cbn [self _lock lock_mem] in *.
  unfold locked, lock_locked, bind, gets. cbn [self _lock].
  destruct l as [mx|r]; cbn [the_mutex] in Hw.
  - apply (mutex_run Mutex.locked (Plain mx)). cbn [the_mutex].
    by apply (Mutex_locked_Some _ lrank lsize v).
  - unfold rmutex. cbn [lock_mem]. unfold RMutex.locked.
    rewrite (RMutex_block_locked _ lrank lsize v) by done.
    cbn [set_lock self RMutex.self RMutex.mem _lock_owned _window mem]. done.
Qed.

Lemma cond_unheld_raises (polls : nat) (n : Z) (s : state) (rank size : Z) :
  _window (self s) = WIN rank size →
  locked s = (Ret false, s) →
  wait polls s = (Raise (RuntimeError "cannot wait on unheld mutex"), s)
  ∧ notify n s = (Raise (RuntimeError "cannot notify on unheld mutex"), s).
Proof.
  intros Hw Hl. split.
  - unfold wait, bind at 1, gets. rewrite Hw. unfold bind at 1. by rewrite Hl.
  - unfold notify, bind at 1, gets. rewrite Hw. unfold bind at 1. by rewrite Hl.
Qed.
End condition_calls.

(** X12.  The guards of a condition.  [wait], [notify] and
    [notify_all] by a process that does not hold the lock raise "cannot
    wait on unheld mutex" and "cannot notify on unheld mutex"; nothing
    is enqueued, dequeued or woken: the state is as before. *)
Theorem Condition_guards (polls : nat) (n : Z) (s : Condition.state) (rank size : Z) :
  Condition._window (Condition.self s) = WIN rank size →
  Condition.locked s = (Ret false, s) →
  Condition.wait polls s = (Raise (RuntimeError "cannot wait on unheld mutex"), s)
  ∧ Condition.notify n s = (Raise (RuntimeError "cannot notify on unheld mutex"), s)
  ∧ Condition.notify_all s = (Raise (RuntimeError "cannot notify on unheld mutex"), s)
  ∧ NotHeld (RuntimeError "cannot wait on unheld mutex") = true
  ∧ NotHeld (RuntimeError "cannot notify on unheld mutex") = true.
Proof.
  intros Hw Hl.
  destruct (cond_unheld_raises polls n s rank size Hw Hl) as [Hwait Hnotify].
  destruct (cond_unheld_raises polls (Z.shiftl 1 31 - 1) s rank size Hw Hl) as [_ Hall].
  done.
Qed.

Lemma Condition_guards_witness :
  let s := {| Condition.self := Condition.new 2 1 None;
              Condition.lock_mem := Mutex.window_init 2;
              Condition.mem := Condition.window_init 2 |} in
  Condition.wait 3 s = (Raise (RuntimeError "cannot wait on unheld mutex"), s)
  ∧ Condition.notify 1 s = (Raise (RuntimeError "cannot notify on unheld mutex"), s)
  ∧ Condition.notify_all s = (Raise (RuntimeError "cannot notify on unheld mutex"), s)
  ∧ NotHeld (RuntimeError "cannot wait on unheld mutex") = true
  ∧ NotHeld (RuntimeError "cannot notify on unheld mutex") = true.
Proof.
  intros s. apply (Condition_guards 3 1 s 1 2); reflexivity.
Defined.

Section condition_wait.
Import Condition.

Lemma sleep_run (polls : nat) (rank f : Z) (m : memory) :
  m !! (rank, flag_id) = Some f →
  _sleep polls rank m
  = if bool_decide (f = 0) then (Spin, m) else (Ret tt, <[(rank, flag_id) := 0]> m).
Proof.
  intros Hf. unfold _sleep, bind.
  assert (_sleep_loop polls rank m = if bool_decide (f = 0) then (Spin, m) else (Ret tt, m))
    as ->.
  { induction polls as [|polls IH]; simpl; unfold bind; rewrite (memoryview_Some _ _ _ _ Hf);
      by case_bool_decide. }
  case_bool_decide; [done|]. by rewrite (Accumulate_REPLACE_Some _ _ _ _ _ Hf).
Qed.

Lemma release_save_run (polls : nat) (l : lock) (ow : bool) (w : Win) (lm m : memory)
    (lrank lsize v lnext : Z) :
  Mutex._window (the_mutex l) = WIN lrank lsize →
  lm !! (lrank, Mutex.lock_id) = Some v → v ≠ 0 →
  lm !! (lrank, Mutex.next_id) = Some lnext →
  lm !! (Mutex.tail_rank, Mutex.tail_id) = Some lrank →
  _release_save polls {| self := {| _lock := l; _lock_owned := ow; _window := w |};
                         lock_mem := lm; mem := m |}
  = (Ret (saved_of l),
     {| self := {| _lock := with_count 0 l; _lock_owned := ow; _window := w |};
        lock_mem := <[(lrank, Mutex.lock_id) := 0]>
                      (<[(Mutex.tail_rank, Mutex.tail_id) := Mutex.null_rank]> lm);
        mem := m |}).
Proof.
  intros Hw Hv Hv0 Hn Ht.
  assert (∀ l', the_mutex l' = the_mutex l →
            mutex (Mutex.release polls)
              {| self := {| _lock := l'; _lock_owned := ow; _window := w |};
                 lock_mem := lm; mem := m |}
            = (Ret tt,
               {| self := {| _lock := l'; _lock_owned := ow; _window := w |};
                  lock_mem := <[(lrank, Mutex.lock_id) := 0]>
                                (<[(Mutex.tail_rank, Mutex.tail_id) := Mutex.null_rank]> lm);
                  mem := m |})) as Hrel.
  { intros l' Hl'. apply mutex_run. rewrite Hl'.
    rewrite (release_alone polls (the_mutex l) lm lrank lsize v lnext lrank) by done.
    by rewrite bool_decide_eq_true_2. }
  unfold _release_save, bind at 1, gets. cbn [self _lock].
  destruct l as [mx|r]; cbn [saved_of with_count].
  - unfold bind. by rewrite Hrel.
  - unfold bind at 1, modify. unfold bind, set_lock.
    cbn [self _lock _lock_owned _window lock_mem mem with_count].
    by rewrite Hrel.
Qed.

Lemma acquire_restore_run (polls : nat) (l : lock) (ow : bool) (w : Win) (lm m : memory)
    (lrank lsize lnext : Z) :
  Mutex._window (the_mutex l) = WIN lrank lsize →
  lm !! (lrank, Mutex.lock_id) = Some 0 →
  lm !! (lrank, Mutex.next_id) = Some lnext →
  lm !! (Mutex.tail_rank, Mutex.tail_id) = Some Mutex.null_rank →
  _acquire_restore polls (saved_of l)
    {| self := {| _lock := with_count 0 l; _lock_owned := ow; _window := w |};
       lock_mem := lm; mem := m |}
  = (Ret tt,
     {| self := {| _lock := l; _lock_owned := ow; _window := w |};
        lock_mem := <[(lrank, Mutex.lock_id) := 1]>
                      (<[(Mutex.tail_rank, Mutex.tail_id) := lrank]>
                         (<[(lrank, Mutex.next_id) := Mutex.null_rank]> lm));
        mem := m |}).
Proof.
  intros Hw Hv Hn Ht.
  assert (mutex (Mutex.acquire polls true)
            {| self := {| _lock := with_count 0 l; _lock_owned := ow; _window := w |};
               lock_mem := lm; mem := m |}
          = (Ret true,
             {| self := {| _lock := with_count 0 l; _lock_owned := ow; _window := w |};
                lock_mem := <[(lrank, Mutex.lock_id) := 1]>
                              (<[(Mutex.tail_rank, Mutex.tail_id) := lrank]>
                                 (<[(lrank, Mutex.next_id) := Mutex.null_rank]> lm));
                mem := m |})) as Hacq.
  { apply mutex_run. rewrite the_mutex_with_count.
    rewrite (acquire_alone polls true (the_mutex l) lm lrank lsize lnext Mutex.null_rank)
      by done.
    by rewrite bool_decide_eq_true_2. }
  unfold _acquire_restore, bind at 1, gets. cbn [self _lock].
  destruct l as [mx|[b c]]; cbn [saved_of with_count] in *.
  - unfold bind. by rewrite Hacq.
  - unfold bind. rewrite Hacq. unfold modify, set_lock.
    cbn [self _lock _lock_owned _window lock_mem mem with_count RMutex._block
         RMutex._count]. done.
Qed.
End condition_wait.

(** X13.  [Condition.wait] by the holder of a lock nobody waits for,
    run with nobody else stepping.  The caller first puts itself at the
    back of the waiter queue and then releases the lock, saving the
    recursion count of an [RMutex] and setting it to 0.  If its [FLAG]
    is 0 it is then asleep, for any number of polls, the lock free.  If
    its [FLAG] is set it consumes the flag, takes the lock again,
    restores the recursion count and returns [True]: the lock object is
    as before the call and the lock window differs at most in the
    caller's [NEXT] slot. *)
Theorem Condition_wait_alone (polls : nat) (s : Condition.state)
    (rank size lrank lsize v lnext f : Z) (q : list Z) :
  Condition._window (Condition.self s) = WIN rank size →
  Mutex._window (Condition.the_mutex (Condition._lock (Condition.self s))) = WIN lrank lsize →
  Condition.lock_mem s !! (lrank, Mutex.lock_id) = Some v → v ≠ 0 →
  Condition.lock_mem s !! (lrank, Mutex.next_id) = Some lnext →
  Condition.lock_mem s !! (Mutex.tail_rank, Mutex.tail_id) = Some lrank →
  Condition.queue size (Condition.mem s) q →
  0 ≤ rank < size → rank ∉ q →
  Condition.mem s !! (rank, Condition.flag_id) = Some f →
  ∃ s',
    Condition.wait polls s = (if bool_decide (f = 0) then Spin else Ret true, s')
    ∧ Condition.queue size (Condition.mem s') (q ++ [rank])
    ∧ Condition.mem s' !! (rank, Condition.flag_id) = Some 0
    ∧ (∀ r, r ≠ rank →
         Condition.mem s' !! (r, Condition.flag_id) = Condition.mem s !! (r, Condition.flag_id))
    ∧ Condition._window (Condition.self s') = Condition._window (Condition.self s)
    ∧ if bool_decide (f = 0) then
        Condition._lock (Condition.self s')
        = Condition.with_count 0 (Condition._lock (Condition.self s))
        ∧ Condition.lock_mem s'
          = <[(lrank, Mutex.lock_id) := 0]>
              (<[(Mutex.tail_rank, Mutex.tail_id) := Mutex.null_rank]> (Condition.lock_mem s))
        ∧ Condition.locked s' = (Ret false, s')
      else
        Condition._lock (Condition.self s') = Condition._lock (Condition.self s)
        ∧ Condition.lock_mem s'
          = <[(lrank, Mutex.next_id) := Mutex.null_rank]>
              (<[(lrank, Mutex.lock_id) := 1]> (Condition.lock_mem s))
        ∧ Condition.locked s' = (Ret true, s').
Proof.
  intros Hw Hlw Hv Hv0 Hn Ht Hq Hrank Hnq Hf.
  destruct s as [[l ow w] lm m].
  cbn [Condition.self Condition._lock Condition._window Condition.lock_mem Condition.mem] in *.
  subst w.
  destruct (enqueue_spec size m q rank Hq Hrank Hnq) as (m1 & Henq & Hq1 & Hfl1).
  assert (m1 !! (rank, Condition.flag_id) = Some f) as Hf1 by (by rewrite Hfl1).
  set (lm1 := <[(lrank, Mutex.lock_id) := 0]>
                (<[(Mutex.tail_rank, Mutex.tail_id) := Mutex.null_rank]> lm)).
  assert (lm1 !! (lrank, Mutex.lock_id) = Some 0) as Hl1 by (unfold lm1; by rewrite lookup_insert_eq).
  assert (lm1 !! (lrank, Mutex.next_id) = Some lnext) as Hn1.
  { unfold lm1. rewrite lookup_insert_ne by (unfold Mutex.next_id, Mutex.lock_id; congruence).
    rewrite lookup_insert_ne by (unfold Mutex.next_id, Mutex.tail_id; congruence). done. }
  assert (lm1 !! (Mutex.tail_rank, Mutex.tail_id) = Some Mutex.null_rank) as Ht1.
  { unfold lm1. rewrite lookup_insert_ne by (unfold Mutex.tail_id, Mutex.lock_id; congruence).
    by rewrite lookup_insert_eq. }
  (* the call, up to the sleep *)
  assert (Condition.wait polls
              {| Condition.self := {| Condition._lock := l; Condition._lock_owned := ow;
                                      Condition._window := WIN rank size |};
                 Condition.lock_mem := lm; Condition.mem := m |}
            = (Condition.rma (Condition._sleep polls rank);;
               Condition._acquire_restore polls (Condition.saved_of l);;
               ret true)
                {| Condition.self := {| Condition._lock := Condition.with_count 0 l;
                                        Condition._lock_owned := ow;
                                        Condition._window := WIN rank size |};
                   Condition.lock_mem := lm1; Condition.mem := m1 |}) as Hhead.
  { unfold Condition.wait at 1, bind at 1, gets. cbn [Condition.self Condition._window].
    unfold bind at 1. rewrite (cond_locked _ lrank lsize v) by done.
    rewrite bool_decide_eq_false_2 by done. cbn [negb].
    unfold bind at 1, Condition.rma at 1, zoom. cbn [Condition.mem]. rewrite Henq.
    cbn [Condition.self Condition.lock_mem].
    unfold bind at 1.
    rewrite (release_save_run polls l ow _ lm m1 lrank lsize v lnext) by done. done. }
  rewrite Hhead. clear Hhead.
  unfold bind at 1, Condition.rma at 1, zoom. cbn [Condition.mem Condition.self Condition.lock_mem].
  rewrite (sleep_run polls rank f m1 Hf1).
  case_bool_decide as Hf0.
  - (* asleep *)
    eexists. split; [reflexivity|]. cbn [Condition.self Condition._lock Condition._window
      Condition.lock_mem Condition.mem].
    split; [done|]. split; [by subst f|]. split; [by intros r _; apply Hfl1|].
    split; [done|]. split; [done|]. split; [done|].
    rewrite (cond_locked _ lrank lsize 0); [done| |done].
    cbn [Condition.self Condition._lock]. by rewrite the_mutex_with_count.
  - (* woken *)
    unfold bind at 1.
    rewrite (acquire_restore_run polls l ow _ lm1 _ lrank lsize lnext) by done.
    unfold ret. eexists. split; [reflexivity|].
    cbn [Condition.self Condition._lock Condition._window Condition.lock_mem Condition.mem].
    assert (<[(lrank, Mutex.lock_id) := 1]>
              (<[(Mutex.tail_rank, Mutex.tail_id) := lrank]>
                 (<[(lrank, Mutex.next_id) := Mutex.null_rank]> lm1))
            = <[(lrank, Mutex.next_id) := Mutex.null_rank]> (<[(lrank, Mutex.lock_id) := 1]> lm))
      as Hlm.
    { unfold lm1. apply map_eq. intros [r d].
      destruct (decide ((r, d) = (lrank, Mutex.lock_id))) as [->|Hne1].
      { rewrite lookup_insert_eq.
        rewrite lookup_insert_ne by (unfold Mutex.next_id, Mutex.lock_id; congruence).
        by rewrite lookup_insert_eq. }
      rewrite lookup_insert_ne by done.
      destruct (decide ((r, d) = (Mutex.tail_rank, Mutex.tail_id))) as [->|Hne2].
      { rewrite lookup_insert_eq.
        rewrite lookup_insert_ne by (unfold Mutex.next_id, Mutex.tail_id; congruence).
        rewrite lookup_insert_ne by (unfold Mutex.lock_id, Mutex.tail_id; congruence). done. }
      rewrite lookup_insert_ne by done.
      destruct (decide ((r, d) = (lrank, Mutex.next_id))) as [->|Hne3].
      { by rewrite !lookup_insert_eq. }
      rewrite !lookup_insert_ne by done. done. }
    rewrite Hlm.
    split; [|split; [by rewrite lookup_insert_eq|split; [|split; [done|split; [done|split; [done|]]]]]].
    + destruct Hq1 as (Hshape & Hnd & Hr & Htail & Hlink).
      split; [by apply shaped_insert|]. split; [done|]. split; [done|]. split.
      * rewrite lookup_insert_ne by (unfold Condition.tail_id, Condition.flag_id; congruence). done.
      * intros i r Hir.
        rewrite lookup_insert_ne by (unfold Condition.next_id, Condition.flag_id; congruence).
        by apply Hlink.
    + intros r Hr. rewrite lookup_insert_ne by congruence. apply Hfl1.
    + rewrite (cond_locked _ lrank lsize 1); [done|done|].
      cbn [Condition.lock_mem].
      rewrite lookup_insert_ne by (unfold Mutex.next_id, Mutex.lock_id; congruence).
      by rewrite lookup_insert_eq.
Qed.

Lemma Condition_wait_alone_witness :
  let s0 := {| Condition.self := Condition.new 3 1 None;
               Condition.lock_mem := Mutex.window_init 3;
               Condition.mem := Condition.window_init 3 |} in
  let s := (Condition.acquire 0 true (Condition.acquire 0 true s0).2).2 in
  RMutex._count (match Condition._lock (Condition.self s) with
                 | Condition.Recursive r => r
                 | Condition.Plain _ => RMutex.new 3 1
                 end) = 2
  ∧ ∃ s',
    Condition.wait 9 s = (if bool_decide (0 = 0) then Spin else Ret true, s')
    ∧ Condition.queue 3 (Condition.mem s') ([] ++ [1])
    ∧ Condition.mem s' !! (1, Condition.flag_id) = Some 0
    ∧ (∀ r, r ≠ 1 →
         Condition.mem s' !! (r, Condition.flag_id) = Condition.mem s !! (r, Condition.flag_id))
    ∧ Condition._window (Condition.self s') = Condition._window (Condition.self s)
    ∧ if bool_decide (0 = 0) then
        Condition._lock (Condition.self s')
        = Condition.with_count 0 (Condition._lock (Condition.self s))
        ∧ Condition.lock_mem s'
          = <[(1, Mutex.lock_id) := 0]>
              (<[(Mutex.tail_rank, Mutex.tail_id) := Mutex.null_rank]> (Condition.lock_mem s))
        ∧ Condition.locked s' = (Ret false, s')
      else
        Condition._lock (Condition.self s') = Condition._lock (Condition.self s)
        ∧ Condition.lock_mem s'
          = <[(1, Mutex.next_id) := Mutex.null_rank]>
              (<[(1, Mutex.lock_id) := 1]> (Condition.lock_mem s))
        ∧ Condition.locked s' = (Ret true, s').
Proof.
  intros s0 s. split; [reflexivity|].
  apply (Condition_wait_alone 9 s 1 3 1 3 1 Mutex.null_rank 0 []).
  - reflexivity.
  - reflexivity.
  - reflexivity.
  - discriminate.
  - reflexivity.
  - reflexivity.
  - apply (window_init_queue 3). lia.
  - lia.
  - apply not_elem_of_nil.
  - reflexivity.
Defined.

Section condition_free_run.
Import Condition.

Lemma queue_flags_frame (size : Z) (m m' : memory) (q : list Z) :
  queue size m q →
  (∀ r d, d ≠ flag_id → m' !! (r, d) = m !! (r, d)) →
  (∀ r, is_Some (m !! (r, flag_id)) → is_Some (m' !! (r, flag_id))) →
  queue size m' q.
Proof.
  intros (Hshape & Hnd & Hr & Htail & Hlink) Hframe Hflag.
  destruct Hshape as [Ht Hs].
  split; [|split; [done|split; [done|split]]].
  - split.
    + rewrite Hframe by (unfold tail_id, flag_id; congruence). done.
    + intros r Hr'. destruct (Hs r Hr') as [Hv Hv']. split; [by apply Hflag|].
      rewrite Hframe by (unfold next_id, flag_id; congruence). done.
  - rewrite Hframe by (unfold tail_id, flag_id; congruence). done.
  - intros i r Hir. rewrite Hframe by (unfold next_id, flag_id; congruence). by apply Hlink.
Qed.

Lemma lock_reset_run (polls : nat) (l : lock) (ow : bool) (w : Win) (lm m : memory)
    (lrank lsize v lnext : Z) :
  Mutex._window (the_mutex l) = WIN lrank lsize →
  lm !! (lrank, Mutex.lock_id) = Some v →
  lm !! (lrank, Mutex.next_id) = Some lnext →
  (v ≠ 0 → lm !! (Mutex.tail_rank, Mutex.tail_id) = Some lrank) →
  _lock_reset polls {| self := {| _lock := l; _lock_owned := ow; _window := w |};
                       lock_mem := lm; mem := m |}
  = (Ret tt,
     {| self := {| _lock := with_count 0 l; _lock_owned := ow; _window := w |};
        lock_mem := if bool_decide (v = 0) then lm
                    else <[(lrank, Mutex.lock_id) := 0]>
                           (<[(Mutex.tail_rank, Mutex.tail_id) := Mutex.null_rank]> lm);
        mem := m |}).
Proof.
  intros Hw Hv Hn Ht.
  assert (∀ l', the_mutex l' = the_mutex l →
            (let* c := gets self in
             if Win_bool (Mutex._window (the_mutex (_lock c))) then
               let* held := mutex Mutex.locked in
               if held then mutex (Mutex.release polls) else ret tt
             else ret tt)
              {| self := {| _lock := l'; _lock_owned := ow; _window := w |};
                 lock_mem := lm; mem := m |}
            = (Ret tt,
               {| self := {| _lock := l'; _lock_owned := ow; _window := w |};
                  lock_mem := if bool_decide (v = 0) then lm
                              else <[(lrank, Mutex.lock_id) := 0]>
                                     (<[(Mutex.tail_rank, Mutex.tail_id) := Mutex.null_rank]> lm);
                  mem := m |})) as Hrest.
  { intros l' Hl'. unfold bind at 1, gets. cbn [self _lock]. rewrite Hl', Hw. cbn [Win_bool].
    unfold bind at 1.
    rewrite (mutex_run Mutex.locked l' ow w lm m (Ret (negb (bool_decide (v = 0)))) lm);
      last first.
    { rewrite Hl'. by apply (Mutex_locked_Some _ lrank lsize v). }
    case_bool_decide as Hv0; cbn [negb]; [done|].
    apply mutex_run. rewrite Hl'.
    rewrite (release_alone polls (the_mutex l) lm lrank lsize v lnext lrank) by auto.
    by rewrite bool_decide_eq_true_2. }
  unfold _lock_reset, bind at 1, gets. cbn [self _lock].
  destruct l as [mx|r]; cbn [with_count].
  - unfold bind at 1, ret at 1. by apply (Hrest (Plain mx)).
  - unfold bind at 1, modify, set_lock.
    cbn [self _lock _lock_owned _window lock_mem mem with_count].
    by apply (Hrest (Recursive _)).
Qed.
End condition_free_run.

(** X14.  [Condition.free] on a condition built on a lock of the
    caller's own ([Condition(comm, lock)]).  The lock is not freed: its
    handle stays valid.  But it is reset: the recursion count of an
    [RMutex] is set to 0 and, if the caller holds the lock (nobody
    queued behind it), the lock is released.  The handle of the
    condition's own window ends null and the waiter queue is not
    touched. *)
Theorem Condition_free_keeps_lock (polls : nat) (s : Condition.state)
    (lrank lsize v lnext : Z) :
  Condition._lock_owned (Condition.self s) = false →
  Mutex._window (Condition.the_mutex (Condition._lock (Condition.self s))) = WIN lrank lsize →
  Condition.lock_mem s !! (lrank, Mutex.lock_id) = Some v →
  Condition.lock_mem s !! (lrank, Mutex.next_id) = Some lnext →
  (v ≠ 0 → Condition.lock_mem s !! (Mutex.tail_rank, Mutex.tail_id) = Some lrank) →
  ∃ s',
    Condition.free polls s = (Ret tt, s')
    ∧ Condition._window (Condition.self s') = WIN_NULL
    ∧ Condition._lock (Condition.self s')
      = Condition.with_count 0 (Condition._lock (Condition.self s))
    ∧ Mutex._window (Condition.the_mutex (Condition._lock (Condition.self s'))) = WIN lrank lsize
    ∧ Condition.lock_mem s'
      = (if bool_decide (v = 0) then Condition.lock_mem s
         else <[(lrank, Mutex.lock_id) := 0]>
                (<[(Mutex.tail_rank, Mutex.tail_id) := Mutex.null_rank]> (Condition.lock_mem s)))
    ∧ Condition.mem s' = Condition.mem s
    ∧ Condition.locked s' = (Ret false, s').
Proof.
  intros How Hw Hv Hn Ht. destruct s as [[l ow w] lm m].
  cbn [Condition.self Condition._lock Condition._lock_owned Condition._window
       Condition.lock_mem Condition.mem] in *. subst ow.
  eexists. split.
  - unfold Condition.free, bind at 1.
    rewrite (lock_reset_run polls l false w lm m lrank lsize v lnext) by done.
    unfold bind at 1, Condition._lock_free, bind at 1, gets.
    cbn [Condition.self Condition._lock_owned]. unfold ret at 1, modify.
    cbn [Condition.self Condition._lock Condition._lock_owned Condition._window
         Condition.lock_mem Condition.mem]. reflexivity.
  - cbn [Condition.self Condition._lock Condition._lock_owned Condition._window
         Condition.lock_mem Condition.mem].
    split; [done|]. split; [done|]. split; [by rewrite the_mutex_with_count|].
    split; [done|]. split; [done|].
    rewrite (cond_locked _ lrank lsize 0); [done|by cbn; rewrite the_mutex_with_count|].
    cbn [Condition.lock_mem]. case_bool_decide as Hv0; [by subst v|].
    by rewrite lookup_insert_eq.
Qed.

Lemma Condition_free_keeps_lock_witness :
  let lock := Condition.Recursive (RMutex.new 3 2) in
  let s0 := {| Condition.self := Condition.new 3 2 (Some lock);
               Condition.lock_mem := Mutex.window_init 3;
               Condition.mem := Condition.window_init 3 |} in
  let s := (Condition.acquire 0 true (Condition.acquire 0 true s0).2).2 in
  Condition.locked s = (Ret true, s)
  ∧ ∃ s',
    Condition.free 0 s = (Ret tt, s')
    ∧ Condition._window (Condition.self s') = WIN_NULL
    ∧ Condition._lock (Condition.self s')
      = Condition.with_count 0 (Condition._lock (Condition.self s))
    ∧ Mutex._window (Condition.the_mutex (Condition._lock (Condition.self s'))) = WIN 2 3
    ∧ Condition.lock_mem s'
      = (if bool_decide (1 = 0) then Condition.lock_mem s
         else <[(2, Mutex.lock_id) := 0]>
                (<[(Mutex.tail_rank, Mutex.tail_id) := Mutex.null_rank]> (Condition.lock_mem s)))
    ∧ Condition.mem s' = Condition.mem s
    ∧ Condition.locked s' = (Ret false, s').
Proof.
  intros lock s0 s. split; [reflexivity|].
  apply (Condition_free_keeps_lock 0 s 2 3 1 Mutex.null_rank);
    [reflexivity|reflexivity|reflexivity|reflexivity|reflexivity].
Defined.

(** X15.  [Condition.notify_all] by the holder of the lock, on a
    communicator of at most [2^31 - 1] processes: every rank of the
    waiter queue is dequeued and has its [FLAG] set to 1, the other
    flags are as before, the queue is empty afterwards ([TAIL] is
    [null_rank]) and the call returns the number of ranks that were
    waiting. *)
Theorem Condition_notify_all_wakes_all (s : Condition.state) (rank size : Z) (q : list Z) :
  Condition._window (Condition.self s) = WIN rank size →
  Condition.locked s = (Ret true, s) →
  Condition.queue size (Condition.mem s) q →
  size ≤ 2 ^ 31 - 1 →
  ∃ s', Condition.notify_all s = (Ret (Z.of_nat (length q)), s')
        ∧ (∀ p, p ∈ q → Condition.mem s' !! (p, Condition.flag_id) = Some 1)
        ∧ (∀ r, r ∉ q →
             Condition.mem s' !! (r, Condition.flag_id) = Condition.mem s !! (r, Condition.flag_id))
        ∧ Condition.queue size (Condition.mem s') []
        ∧ Condition.mem s' !! (Condition.tail_rank, Condition.tail_id)
          = Some Condition.null_rank
        ∧ Condition.self s' = Condition.self s
        ∧ Condition.lock_mem s' = Condition.lock_mem s.
Proof.
  intros Hw Hheld Hq Hsize.
  pose proof (queue_length _ _ _ Hq) as Hlen.
  destruct (dequeue_spec size (Condition.mem s) q (Z.shiftl 1 31 - 1) Hq)
    as (m1 & Hdeq & Hq1 & Hfl1).
  cbv zeta in Hdeq, Hq1.
  assert (length q ≤ Z.to_nat (Z.max 0 (Z.min (Z.shiftl 1 31 - 1) size)))%nat as Hn.
  { change (Z.shiftl 1 31 - 1) with (2 ^ 31 - 1). lia. }
  rewrite take_ge in Hdeq by done. rewrite drop_ge in Hq1 by done.
  assert (∀ p, p ∈ q → 0 ≤ p < size) as Hr by (by destruct Hq as (_ & _ & Hr & _)).
  destruct (wakeup_spec size q m1) as (m2 & Hwake & Hset & Hframe); [by destruct Hq1|done|].
  exists {| Condition.self := Condition.self s; Condition.lock_mem := Condition.lock_mem s;
            Condition.mem := m2 |}.
  cbn [Condition.self Condition.lock_mem Condition.mem].
  assert (Condition.queue size m2 []) as Hq2.
  { apply (queue_flags_frame size m1 m2 []); [done| |].
    - intros r d Hd. by apply Hframe.
    - intros r [x Hx]. destruct (decide (r ∈ q)).
      + rewrite Hset by done. by eexists.
      + rewrite Hframe by done. by eexists. }
  split; [|split; [done|split; [|split; [done|split; [|done]]]]].
  - unfold Condition.notify_all, Condition.notify, bind at 1, gets. rewrite Hw.
    unfold bind at 1. rewrite Hheld. cbn [negb].
    unfold bind at 1, Condition.rma at 1, zoom. rewrite Hdeq.
    unfold bind, Condition.rma, zoom, ret. cbn [Condition.mem]. by rewrite Hwake.
  - intros r Hr'. rewrite Hframe by done. apply Hfl1.
  - by destruct Hq2 as (_ & _ & _ & Htail & _).
Qed.

Lemma Condition_notify_all_wakes_all_witness :
  let s0 := {| Condition.self := Condition.new 4 3 None;
               Condition.lock_mem := Mutex.window_init 4;
               Condition.mem := (Condition.enqueue_all [2; 0; 1] (Condition.window_init 4)).2 |} in
  let s := (Condition.acquire 0 true s0).2 in
  ∃ s', Condition.notify_all s = (Ret (Z.of_nat (length [2; 0; 1])), s')
        ∧ (∀ p, p ∈ [2; 0; 1] → Condition.mem s' !! (p, Condition.flag_id) = Some 1)
        ∧ (∀ r, r ∉ [2; 0; 1] →
             Condition.mem s' !! (r, Condition.flag_id) = Condition.mem s !! (r, Condition.flag_id))
        ∧ Condition.queue 4 (Condition.mem s') []
        ∧ Condition.mem s' !! (Condition.tail_rank, Condition.tail_id)
          = Some Condition.null_rank
        ∧ Condition.self s' = Condition.self s
        ∧ Condition.lock_mem s' = Condition.lock_mem s.
Proof.
  intros s0 s.
  apply (Condition_notify_all_wakes_all s 3 4 [2; 0; 1]).
  - reflexivity.
  - reflexivity.
  - destruct (enqueue_all_spec 4 [2; 0; 1] (Condition.window_init 4) [])
      as (m' & Hrun & Hq & _).
    + apply (window_init_queue 4). lia.
    + compute_done.
    + intros p Hp. repeat (apply elem_of_cons in Hp as [->|Hp]; [lia|]).
      by apply elem_of_nil in Hp.
    + unfold s, s0. cbn [Condition.mem]. change (Condition.mem _) with
        (Condition.enqueue_all [2; 0; 1] (Condition.window_init 4)).2.
      by rewrite Hrun.
  - lia.
Defined.

(** X16.  No wake-up is lost.  Let process [r] enqueue itself behind
    the waiters [q] (as [wait] does before it releases the lock), let
    then a notifier run [_dequeue(n)] and [_wakeup] (as [notify(n)]
    does), and let [r] only then start to sleep.  If [n] is larger
    than the number of waiters that were ahead of [r], the flag of [r]
    is set by the time it looks: [_sleep] returns without waiting and
    clears the flag; otherwise [r] is still queued and sleeps. *)
Theorem Condition_no_lost_wakeup (polls : nat) (size n r : Z) (q : list Z) (m : memory) :
  Condition.queue size m q →
  0 ≤ r < size → r ∉ q →
  m !! (r, Condition.flag_id) = Some 0 →
  let k := Z.to_nat (Z.max 0 n) in
  ∃ m',
    (Condition._enqueue r;;
     let* processes := Condition._dequeue size n in
     Condition._wakeup processes;;
     Condition._sleep polls r) m
    = (if bool_decide (length q < k)%nat then Ret tt else Spin, m')
    ∧ m' !! (r, Condition.flag_id) = Some 0
    ∧ (∀ p, p ∈ take k q → m' !! (p, Condition.flag_id) = Some 1)
    ∧ Condition.queue size m' (drop k (q ++ [r])).
Proof.
  intros Hq Hr Hnq Hf k.
  destruct (enqueue_spec size m q r Hq Hr Hnq) as (m1 & Henq & Hq1 & Hfl1).
  pose proof (queue_length _ _ _ Hq1) as Hlen.
  destruct (take_clamp size n (q ++ [r]) Hlen) as [Htake Hdrop].
  destruct (dequeue_spec size m1 (q ++ [r]) n Hq1) as (m2 & Hdeq & Hq2 & Hfl2).
  cbv zeta in Hdeq, Hq2. rewrite Htake in Hdeq. rewrite Hdrop in Hq2. fold k in Hdeq, Hq2.
  set (woken := take k (q ++ [r])) in *.
  assert (∀ p, p ∈ woken → 0 ≤ p < size) as Hwr.
  { intros p Hp. destruct Hq1 as (_ & _ & Hrg & _). apply Hrg.
    rewrite <- (take_drop k (q ++ [r])). apply elem_of_app. by left. }
  destruct (wakeup_spec size woken m2) as (m3 & Hwake & Hset & Hframe);
    [by destruct Hq2|done|].
  assert (Condition.queue size m3 (drop k (q ++ [r]))) as Hq3.
  { apply (queue_flags_frame size m2 m3); [done| |].
    - intros p d Hd. by apply Hframe.
    - intros p [x Hx]. destruct (decide (p ∈ woken)).
      + rewrite Hset by done. by eexists.
      + rewrite Hframe by done. by eexists. }
  assert (r ∈ woken ↔ (length q < k)%nat) as Hin.
  { unfold woken. split.
    - intros Hin. destruct (decide (length q < k)%nat); [done|].
      rewrite take_app_le in Hin by lia. exfalso. apply Hnq.
      by apply elem_of_take in Hin as (i & Hi & _); apply list_elem_of_lookup_2 in Hi.
    - intros Hlt. rewrite take_ge by (rewrite length_app; simpl; lia).
      apply elem_of_app. right. constructor. }
  assert (∀ p, p ∈ take k q → p ∈ woken) as Hsub.
  { intros p Hp. unfold woken. apply elem_of_take in Hp as (i & Hi & Hik).
    apply elem_of_take. exists i. split; [|done]. by apply lookup_app_l_Some. }
  assert (∀ p, p ∈ take k q → p ≠ r) as Hne.
  { intros p Hp ->. apply Hnq. apply elem_of_take in Hp as (i & Hi & _).
    by apply list_elem_of_lookup_2 in Hi. }
  unfold bind at 1. rewrite Henq. unfold bind at 1. rewrite Hdeq.
  unfold bind at 1. rewrite Hwake.
  case_bool_decide as Hk.
  - (* notified: the flag is set *)
    assert (m3 !! (r, Condition.flag_id) = Some 1) as Hf3 by (apply Hset; by apply Hin).
    rewrite (sleep_run polls r 1 m3 Hf3). rewrite bool_decide_eq_false_2 by done.
    eexists. split; [reflexivity|]. split; [by rewrite lookup_insert_eq|]. split.
    + intros p Hp. rewrite lookup_insert_ne by (specialize (Hne p Hp); congruence).
      by apply Hset, Hsub.
    + apply (queue_flags_frame size m3); [done| |].
      * intros p d Hd. rewrite lookup_insert_ne by congruence. done.
      * intros p Hp. apply lookup_insert_is_Some'. by right.
  - (* not notified: still queued *)
    assert (m3 !! (r, Condition.flag_id) = Some 0) as Hf3.
    { rewrite Hframe by (intros _; by rewrite Hin). rewrite Hfl2, Hfl1. done. }
    rewrite (sleep_run polls r 0 m3 Hf3). rewrite bool_decide_eq_true_2 by done.
    eexists. split; [reflexivity|]. split; [done|]. split; [|done].
    intros p Hp. by apply Hset, Hsub.
Qed.

Lemma Condition_no_lost_wakeup_witness :
  let m := (Condition.enqueue_all [3; 0] (Condition.window_init 4)).2 in
  let k := Z.to_nat (Z.max 0 3) in
  ∃ m',
    (Condition._enqueue 2;;
     let* processes := Condition._dequeue 4 3 in
     Condition._wakeup processes;;
     Condition._sleep 0 2) m
    = (if bool_decide (length [3; 0] < k)%nat then Ret tt else Spin, m')
    ∧ m' !! (2, Condition.flag_id) = Some 0
    ∧ (∀ p, p ∈ take k [3; 0] → m' !! (p, Condition.flag_id) = Some 1)
    ∧ Condition.queue 4 m' (drop k ([3; 0] ++ [2])).
Proof.
  intros m k.
  apply (Condition_no_lost_wakeup 0 4 3 2 [3; 0] m).
  - destruct (enqueue_all_spec 4 [3; 0] (Condition.window_init 4) [])
      as (m' & Hrun & Hq & _).
    + apply (window_init_queue 4). lia.
    + compute_done.
    + intros p Hp. repeat (apply elem_of_cons in Hp as [->|Hp]; [lia|]).
      by apply elem_of_nil in Hp.
    + unfold m. by rewrite Hrun.
  - lia.
  - compute_done.
  - reflexivity.
Defined.

Section condition_wait_for.
Import Condition.

Lemma wait_for_loop_truthy (polls : nat) (predicate : M state value) (rounds : nat) :
  ∀ (result v : value) (s s' : state),
    wait_for_loop rounds polls predicate result s = (Ret v, s') →
    truthy v = true
    ∧ ((truthy result = true ∧ v = result ∧ s' = s)
       ∨ (truthy result = false ∧ ∃ s1, predicate s1 = (Ret v, s'))).
Proof.
  induction rounds as [|rounds IH]; intros result v s s'; cbn [wait_for_loop];
    destruct (truthy result) eqn:Hres; cbn [negb].
  - unfold ret. intros [= <- <-]. split; [done|]. by left.
  - done.
  - unfold ret. intros [= <- <-]. split; [done|]. by left.
  - intros (b & s1 & _ & Hrest)%bind_Ret_inv.
    apply bind_Ret_inv in Hrest as (result' & s2 & Hpred & Hloop).
    destruct (IH _ _ _ _ Hloop) as [Hv [(Hr & -> & ->)|(Hr & s3 & Hp)]].
    + split; [done|]. right. split; [done|]. by exists s1.
    + split; [done|]. right. split; [done|]. by exists s3.
Qed.
End condition_wait_for.

(** X17.  What [Condition.wait_for] returns.  Whenever [wait_for]
    returns, the value is truthy and it is the value the predicate
    returned when it was evaluated last, the state being as that
    evaluation left it: nothing runs between the last evaluation of the
    predicate and the return. *)
Theorem Condition_wait_for_result (rounds polls : nat) (predicate : M Condition.state value)
    (s s' : Condition.state) (v : value) :
  Condition.wait_for rounds polls predicate s = (Ret v, s') →
  truthy v = true ∧ ∃ s1, predicate s1 = (Ret v, s').
Proof.
  unfold Condition.wait_for. intros (result & s1 & Hpred & Hloop)%bind_Ret_inv.
  destruct (wait_for_loop_truthy _ _ _ _ _ _ _ Hloop) as [Hv [(_ & -> & ->)|(_ & s2 & Hp)]].
  - split; [done|]. by exists s.
  - split; [done|]. by exists s2.
Qed.

Lemma Condition_wait_for_result_witness :
  let s0 := {| Condition.self := Condition.new 2 1 None;
               Condition.lock_mem := Mutex.window_init 2;
               Condition.mem := <[(1, Condition.flag_id) := 1]> (Condition.window_init 2) |} in
  let s := (Condition.acquire 0 true s0).2 in
  (* the predicate: "my flag is clear", with the flag as its value *)
  let predicate : M Condition.state value :=
    λ st, (Ret (VBool (bool_decide (Condition.mem st !! (1, Condition.flag_id) = Some 0))), st) in
  let s' := (Condition.wait_for 1 0 predicate s).2 in
  (predicate s).1 = Ret (VBool false)
  ∧ Condition.wait_for 1 0 predicate s = (Ret (VBool true), s')
  ∧ truthy (VBool true) = true
  ∧ ∃ s1, predicate s1 = (Ret (VBool true), s').
Proof.
  intros s0 s predicate s'.
  assert (Condition.wait_for 1 0 predicate s = (Ret (VBool true), s')) as Hrun by (by vm_compute).
  split; [by vm_compute|]. split; [done|].
  apply (Condition_wait_for_result 1 0 predicate s s' (VBool true) Hrun).
Defined.

Section condition_notify_run.
Import Condition.

(** [notify(n)] by the holder of the lock, for [n] not negative. *)
Lemma notify_run (s : state) (rank size n : Z) (q : list Z) :
  _window (self s) = WIN rank size →
  locked s = (Ret true, s) →
  queue size (mem s) q →
  0 ≤ n →
  ∃ m', notify n s
        = (Ret (Z.of_nat (length (take (Z.to_nat n) q))),
           {| self := self s; lock_mem := lock_mem s; mem := m' |})
        ∧ (∀ p, p ∈ take (Z.to_nat n) q → m' !! (p, flag_id) = Some 1)
        ∧ (∀ r, r ∉ take (Z.to_nat n) q → m' !! (r, flag_id) = mem s !! (r, flag_id))
        ∧ queue size m' (drop (Z.to_nat n) q).
Proof.
  intros Hw Hheld Hq Hn.
  pose proof (queue_length _ _ _ Hq) as Hlen.
  destruct (take_clamp size n q Hlen) as [Htake Hdrop].
  rewrite (Z.max_r 0 n) in Htake, Hdrop by done.
  destruct (dequeue_spec size (mem s) q n Hq) as (m1 & Hdeq & Hq1 & Hfl1).
  cbv zeta in Hdeq, Hq1. rewrite Htake in Hdeq. rewrite Hdrop in Hq1.
  set (woken := take (Z.to_nat n) q) in *.
  assert (∀ p, p ∈ woken → 0 ≤ p < size) as Hwr.
  { intros p Hp. destruct Hq as (_ & _ & Hr & _). apply Hr.
    rewrite <- (take_drop (Z.to_nat n) q). apply elem_of_app. by left. }
  destruct (wakeup_spec size woken m1) as (m2 & Hwake & Hset & Hframe);
    [by destruct Hq1|done|].
  exists m2. split; [|split; [done|split]].
  - unfold notify, bind at 1, gets. rewrite Hw.
    unfold bind at 1. rewrite Hheld. cbn [negb].
    unfold bind at 1, rma at 1, zoom. rewrite Hdeq.
    unfold bind, rma, zoom, ret. cbn [mem]. by rewrite Hwake.
  - intros r Hr. rewrite Hframe by done. apply Hfl1.
  - apply (queue_flags_frame size m1 m2); [done| |].
    + intros r d Hd. by apply Hframe.
    + intros r [x Hx]. destruct (decide (r ∈ woken)).
      * rewrite Hset by done. by eexists.
      * rewrite Hframe by done. by eexists.
Qed.
(** [locked()] looks at the lock only, not at the window of the
    condition. *)
Lemma locked_mem (s : state) (m' : memory) (held : bool) :
  locked s = (Ret held, s) →
  locked {| self := self s; lock_mem := lock_mem s; mem := m' |}
  = (Ret held, {| self := self s; lock_mem := lock_mem s; mem := m' |}).
Proof.
  intros Hheld.
  pose proof (Condition_locked_state {| self := self s; lock_mem := lock_mem s; mem := m' |})
    as Hst.
  assert ((locked {| self := self s; lock_mem := lock_mem s; mem := m' |}).1 = (locked s).1)
    as Hout.
  { destruct s as [[l o w] lm m]. unfold locked, lock_locked, bind, gets; simpl.
    destruct l as [mx|rm]; simpl.
    - unfold mutex, zoom; simpl. by destruct (Mutex.locked _).
    - unfold rmutex; simpl. by destruct (RMutex.locked _). }
  rewrite Hheld in Hout.
  destruct (locked {| self := self s; lock_mem := lock_mem s; mem := m' |}) as [o s'].
  simpl in *. by subst.
Qed.
End condition_notify_run.

(** X18.  Notifications add up.  [notify(a)] followed by [notify(b)],
    by the holder of the lock and for [a] and [b] not negative, wakes
    the waiters that one [notify(a + b)] wakes: the first [a + b] of
    the queue, oldest first, each with its [FLAG] set to 1, the other
    flags as before and the rest of the queue still queued in its
    order; and the two results add up to the result of the one
    call. *)
Theorem Condition_notify_adds_up (s : Condition.state) (rank size a b : Z) (q : list Z) :
  Condition._window (Condition.self s) = WIN rank size →
  Condition.locked s = (Ret true, s) →
  Condition.queue size (Condition.mem s) q →
  0 ≤ a → 0 ≤ b →
  ∃ ra rb s1 s2 s12,
    Condition.notify a s = (Ret ra, s1)
    ∧ Condition.notify b s1 = (Ret rb, s2)
    ∧ Condition.notify (a + b) s = (Ret (ra + rb), s12)
    ∧ ra + rb = Z.min (a + b) (Z.of_nat (length q))
    ∧ (∀ p, Condition.mem s2 !! (p, Condition.flag_id)
            = Condition.mem s12 !! (p, Condition.flag_id))
    ∧ (∀ p, p ∈ take (Z.to_nat (a + b)) q →
            Condition.mem s2 !! (p, Condition.flag_id) = Some 1)
    ∧ Condition.queue size (Condition.mem s2) (drop (Z.to_nat (a + b)) q)
    ∧ Condition.queue size (Condition.mem s12) (drop (Z.to_nat (a + b)) q).
Proof.
  intros Hw Hheld Hq Ha Hb.
  destruct (notify_run s rank size a q Hw Hheld Hq Ha) as (m1 & Hn1 & Hset1 & Hfr1 & Hq1).
  set (s1 := {| Condition.self := Condition.self s; Condition.lock_mem := Condition.lock_mem s;
                Condition.mem := m1 |}) in *.
  assert (Condition.locked s1 = (Ret true, s1)) as Hheld1.
  { apply (locked_mem s m1 true Hheld). }
  destruct (notify_run s1 rank size b (drop (Z.to_nat a) q) Hw Hheld1 Hq1 Hb)
    as (m2 & Hn2 & Hset2 & Hfr2 & Hq2).
  destruct (notify_run s rank size (a + b) q Hw Hheld Hq ltac:(lia))
    as (m12 & Hn12 & Hset12 & Hfr12 & Hq12).
  assert (Z.to_nat (a + b) = (Z.to_nat a + Z.to_nat b)%nat) as Hab by lia.
  assert (take (Z.to_nat (a + b)) q
          = take (Z.to_nat a) q ++ take (Z.to_nat b) (drop (Z.to_nat a) q)) as Htake.
  { rewrite Hab. by rewrite take_take_drop. }
  rewrite drop_drop in Hq2. rewrite <- Hab in Hq2.
  assert (∀ p, p ∈ take (Z.to_nat (a + b)) q → m2 !! (p, Condition.flag_id) = Some 1) as Hs2.
  { intros p Hp. rewrite Htake in Hp. apply elem_of_app in Hp as [Hp|Hp].
    - destruct (decide (p ∈ take (Z.to_nat b) (drop (Z.to_nat a) q))) as [Hin|Hnin].
      + by apply Hset2.
      + rewrite Hfr2 by done. by apply Hset1.
    - by apply Hset2. }
  eexists _, _, s1, _, _. split; [exact Hn1|]. split; [exact Hn2|].
  assert (Z.of_nat (length (take (Z.to_nat a) q))
          + Z.of_nat (length (take (Z.to_nat b) (drop (Z.to_nat a) q)))
          = Z.of_nat (length (take (Z.to_nat (a + b)) q))) as Hsum.
  { rewrite Htake, length_app. lia. }
  split; [by rewrite Hsum|]. split; [rewrite Hsum, length_take; lia|].
  cbn [Condition.mem]. split; [|split; [done|split; done]].
  intros p. destruct (decide (p ∈ take (Z.to_nat (a + b)) q)) as [Hin|Hnin].
  - rewrite Hs2 by done. by rewrite Hset12.
  - rewrite Hfr12 by done. rewrite Htake in Hnin.
    rewrite Hfr2 by (intros ?; apply Hnin, elem_of_app; by right).
    cbn [Condition.mem s1]. apply Hfr1. intros ?. apply Hnin, elem_of_app. by left.
Qed.

Lemma Condition_notify_adds_up_witness :
  let s0 := {| Condition.self := Condition.new 4 3 None;
               Condition.lock_mem := Mutex.window_init 4;
               Condition.mem := (Condition.enqueue_all [2; 0; 1] (Condition.window_init 4)).2 |} in
  let s := (Condition.acquire 0 true s0).2 in
  ∃ ra rb s1 s2 s12,
    Condition.notify 1 s = (Ret ra, s1)
    ∧ Condition.notify 1 s1 = (Ret rb, s2)
    ∧ Condition.notify (1 + 1) s = (Ret (ra + rb), s12)
    ∧ ra + rb = Z.min (1 + 1) (Z.of_nat (length [2; 0; 1]))
    ∧ (∀ p, Condition.mem s2 !! (p, Condition.flag_id)
            = Condition.mem s12 !! (p, Condition.flag_id))
    ∧ (∀ p, p ∈ take (Z.to_nat (1 + 1)) [2; 0; 1] →
            Condition.mem s2 !! (p, Condition.flag_id) = Some 1)
    ∧ Condition.queue 4 (Condition.mem s2) (drop (Z.to_nat (1 + 1)) [2; 0; 1])
    ∧ Condition.queue 4 (Condition.mem s12) (drop (Z.to_nat (1 + 1)) [2; 0; 1]).
Proof.
  intros s0 s.
  apply (Condition_notify_adds_up s 3 4 1 1 [2; 0; 1]).
  - reflexivity.
  - reflexivity.
  - destruct (enqueue_all_spec 4 [2; 0; 1] (Condition.window_init 4) [])
      as (m' & Hrun & Hq & _).
    + apply (window_init_queue 4). lia.
    + compute_done.
    + intros p Hp. repeat (apply elem_of_cons in Hp as [->|Hp]; [lia|]).
      by apply elem_of_nil in Hp.
    + unfold s, s0. cbn [Condition.mem]. change (Condition.mem _) with
        (Condition.enqueue_all [2; 0; 1] (Condition.window_init 4)).2.
      by rewrite Hrun.
  - lia.
  - lia.
Defined.

(** ** Sequential: progress, and what repeated use allows *)

Section sequential_progress.
Import Sequential.

Lemma run_app (size : Z) (s1 s2 : list Z) (st : state) :
  run size (s1 ++ s2) st
  = match run size s1 st with Some st' => run size s2 st' | None => None end.
Proof.
  revert st. induction s1 as [|j s1 IH]; intros st; simpl; [done|].
  destruct (step size j st); [apply IH|done].
Qed.

(** A step of another process leaves the phase of [r] alone and takes
    no message from its inbox. *)
Lemma step_other (size j r : Z) (st st' : state) :
  step size j st = Some st' → j ≠ r →
  phases st' r = phases st r ∧ (inbox st r ≤ inbox st' r)%nat.
Proof.
  intros Hstep Hne. unfold step in Hstep. destruct (phases st j).
  - unfold begin in Hstep. repeat case_bool_decide; simpl in Hstep.
    + injection Hstep as <-. simpl. by rewrite fn_lookup_insert_ne.
    + injection Hstep as <-. simpl. by rewrite fn_lookup_insert_ne.
    + unfold Recv in Hstep. destruct (inbox st j) eqn:Hin; [done|].
      simpl in Hstep. injection Hstep as <-. simpl.
      rewrite !fn_lookup_insert_ne by done. done.
  - injection Hstep as <-. unfold end_. repeat case_bool_decide; simpl.
    + by rewrite fn_lookup_insert_ne.
    + by rewrite fn_lookup_insert_ne.
    + rewrite fn_lookup_insert_ne by done.
      destruct (decide (j + 1 = r)) as [<-|].
      * rewrite fn_lookup_insert. split; [done|lia].
      * rewrite fn_lookup_insert_ne by done. done.
Qed.

Lemma run_other (size r : Z) (schedule : list Z) : ∀ st st',
  run size schedule st = Some st' → Forall (λ j, j ≠ r) schedule →
  phases st' r = phases st r ∧ (inbox st r ≤ inbox st' r)%nat.
Proof.
  induction schedule as [|j rest IH]; intros st st' Hrun Hall; simpl in Hrun.
  - by injection Hrun as <-.
  - apply Forall_cons in Hall as [Hj Hrest].
    destruct (step size j st) as [st1|] eqn:Hstep; [|done].
    destruct (step_other _ _ r _ _ Hstep Hj) as [Hp Hi].
    destruct (IH _ _ Hrun Hrest) as [Hp' Hi']. split; [congruence|lia].
Qed.

(** When [begin] and [end] return. *)
Lemma step_enabled (size r : Z) (st : state) :
  is_Some (step size r st)
  ↔ phases st r = Inside ∨ size = 1 ∨ r = 0 ∨ (0 < inbox st r)%nat.
Proof.
  unfold step, begin, Recv. destruct (phases st r); [|by split; [left|eexists]].
  repeat case_bool_decide; simpl.
  - split; [by right; left|by eexists].
  - split; [by right; right; left|by eexists].
  - destruct (inbox st r); simpl.
    + split; [by intros [? ?]|]. intros [?|[?|[?|?]]]; try done. lia.
    + split; [|by eexists]. intros _. right. right. right. lia.
Qed.

Lemma end_sends (size r : Z) (st st' : state) :
  phases st r = Inside → r + 1 < size → 0 ≤ r →
  step size r st = Some st' → (0 < inbox st' (r + 1))%nat.
Proof.
  intros Hin Hlt Hr. unfold step. rewrite Hin. intros [= <-].
  unfold end_. rewrite bool_decide_eq_false_2 by lia.
  rewrite bool_decide_eq_false_2 by lia. simpl.
  rewrite fn_lookup_insert. lia.
Qed.

Lemma begin_enters (size r : Z) (st st' : state) :
  phases st r = Outside → step size r st = Some st' → phases st' r = Inside.
Proof.
  intros Hout. unfold step. rewrite Hout. unfold begin.
  repeat case_bool_decide; simpl.
  - intros [= <-]. simpl. by rewrite fn_lookup_insert.
  - intros [= <-]. simpl. by rewrite fn_lookup_insert.
  - destruct (Recv r st); simpl; [|done]. intros [= <-]. simpl. by rewrite fn_lookup_insert.
Qed.

Lemma unblock (size : Z) (n : nat) : ∀ (st : state),
  Z.of_nat n < size →
  ∃ schedule st',
    Forall (λ j, 0 ≤ j < Z.of_nat n) schedule
    ∧ (length schedule ≤ 2 * n)%nat
    ∧ run size schedule st = Some st'
    ∧ is_Some (step size (Z.of_nat n) st').
Proof.
  induction n as [|n IH]; intros st Hn.
  - exists [], st. split; [constructor|]. split; [simpl; lia|]. split; [done|].
    apply step_enabled. by right; right; left.
  - destruct (IH st ltac:(lia)) as (s1 & st1 & Hall & Hlen & Hrun & [st2 Hstep]).
    assert (Forall (λ j, 0 ≤ j < Z.of_nat (S n)) s1) as Hall'.
    { eapply Forall_impl; [exact Hall|]. simpl. intros; lia. }
    replace (Z.of_nat (S n)) with (Z.of_nat n + 1) in * by lia.
    destruct (phases st1 (Z.of_nat n)) eqn:Hph.
    + (* [begin], then [end] *)
      pose proof (begin_enters _ _ _ _ Hph Hstep) as Hin.
      destruct (step size (Z.of_nat n) st2) as [st3|] eqn:Hstep2; last first.
      { unfold step in Hstep2. by rewrite Hin in Hstep2. }
      exists (s1 ++ [Z.of_nat n; Z.of_nat n]), st3.
      split; [apply Forall_app; split; [done|repeat constructor; lia]|].
      split; [rewrite length_app; simpl; lia|].
      split; [rewrite run_app, Hrun; simpl; by rewrite Hstep, Hstep2|].
      apply step_enabled. right. right. right.
      by apply (end_sends size (Z.of_nat n) st2); [|lia|lia|].
    + exists (s1 ++ [Z.of_nat n]), st2.
      split; [apply Forall_app; split; [done|repeat constructor; lia]|].
      split; [rewrite length_app; simpl; lia|].
      split; [rewrite run_app, Hrun; simpl; by rewrite Hstep|].
      apply step_enabled. right. right. right.
      by apply (end_sends size (Z.of_nat n) st1); [|lia|lia|].
Qed.
End sequential_progress.

(** X19.  [Sequential] cannot deadlock.  In whatever state the
    processes are, the call that process [r] is about to make or is
    blocked in ([begin], or [end]) returns after at most [2 r] calls of
    processes of lower rank have returned, each of them without
    waiting for anybody else: the schedule is executable as it stands.
    Process 0 never waits. *)
Theorem Sequential_no_deadlock (size : Z) (st : Sequential.state) (r : Z) :
  0 ≤ r < size →
  ∃ schedule st',
    Forall (λ j, 0 ≤ j < r) schedule
    ∧ (length schedule ≤ 2 * Z.to_nat r)%nat
    ∧ Sequential.run size schedule st = Some st'
    ∧ is_Some (Sequential.step size r st')
    ∧ (r = 0 → is_Some (Sequential.step size r st)).
Proof.
  intros Hr.
  destruct (unblock size (Z.to_nat r) st ltac:(lia)) as (schedule & st' & Hall & Hlen & Hrun & Hs).
  rewrite Z2Nat.id in * by lia.
  exists schedule, st'. split; [done|]. split; [done|]. split; [done|]. split; [done|].
  intros ->. apply step_enabled. by right; right; left.
Qed.

Lemma Sequential_no_deadlock_witness :
  Sequential.step 3 2 Sequential.init = None
  ∧ ∃ schedule st',
    Forall (λ j, 0 ≤ j < 2) schedule
    ∧ (length schedule ≤ 2 * Z.to_nat 2)%nat
    ∧ Sequential.run 3 schedule Sequential.init = Some st'
    ∧ is_Some (Sequential.step 3 2 st')
    ∧ (2 = 0 → is_Some (Sequential.step 3 2 Sequential.init)).
Proof.
  split; [reflexivity|].
  apply (Sequential_no_deadlock 3 Sequential.init 2). lia.
Defined.

(** X20.  What [Sequential] does not give when it is used again
    without a barrier in between: on two or more processes, process 0
    can be inside its second section while process 1 is still inside
    its first. *)
Theorem Sequential_rounds_overlap (size : Z) :
  2 ≤ size →
  ∃ st, Sequential.run size [0; 0; 1; 0] Sequential.init = Some st
        ∧ Sequential.reachable size st
        ∧ Sequential.phases st 0 = Sequential.Inside
        ∧ Sequential.phases st 1 = Sequential.Inside
        ∧ Sequential.begun st 0 = 2%nat
        ∧ Sequential.begun st 1 = 1%nat.
Proof.
  intros Hsize.
  assert (∃ st, Sequential.run size [0; 0; 1; 0] Sequential.init = Some st
                ∧ Sequential.phases st 0 = Sequential.Inside
                ∧ Sequential.phases st 1 = Sequential.Inside
                ∧ Sequential.begun st 0 = 2%nat
                ∧ Sequential.begun st 1 = 1%nat) as (st & Hrun & H).
  { unfold Sequential.run, Sequential.step, Sequential.begin, Sequential.end_,
      Sequential.Recv, Sequential.Send, Sequential.entered, Sequential.left, Sequential.init.
    simpl.
    rewrite !(bool_decide_eq_false_2 (size = 1)) by lia.
    rewrite !(bool_decide_eq_false_2 (0 = size - 1)) by lia. simpl.
    eexists. split; [reflexivity|]. simpl. done. }
  exists st. split; [done|]. split; [|done].
  apply (run_reachable size [0; 0; 1; 0] Sequential.init st); [constructor| |done].
  repeat constructor; lia.
Qed.

Lemma Sequential_rounds_overlap_witness :
  ∃ st, Sequential.run 2 [0; 0; 1; 0] Sequential.init = Some st
        ∧ Sequential.reachable 2 st
        ∧ Sequential.phases st 0 = Sequential.Inside
        ∧ Sequential.phases st 1 = Sequential.Inside
        ∧ Sequential.begun st 0 = 2%nat
        ∧ Sequential.begun st 1 = 1%nat.
Proof. apply (Sequential_rounds_overlap 2). lia. Defined.

(** ** Backoff *)

Section backoff.
Import Backoff.

Lemma sleeps_add (a b : nat) : ∀ g,
  sleeps (a + b) g = sleeps a g ++ sleeps b (Nat.iter a (λ g, (next g).2) g).
Proof.
  induction a as [|a IH]; intros g; [done|].
  cbn [Nat.add sleeps]. unfold next at 1 3. rewrite IH. cbn [app]. do 2 f_equal.
  rewrite Nat.iter_succ_r. done.
Qed.

(** The generator once its delay has reached [delay_max]. *)
Lemma saturated_next :
  let g := Nat.iter 11 (λ g, (next g).2) default in
  delay g = _BACKOFF_DELAY_MAX ∧ next g = (_BACKOFF_DELAY_MAX, g).
Proof. split; reflexivity. Qed.

Lemma saturated_sleeps (n : nat) :
  sleeps n (Nat.iter 11 (λ g, (next g).2) default) = replicate n _BACKOFF_DELAY_MAX.
Proof.
  induction n as [|n IH]; [done|].
  cbn [sleeps]. rewrite (proj2 saturated_next). by rewrite IH.
Qed.
End backoff.

(** X21.  The delays of the spin loops.  The first call of
    [backoff()] does not sleep; the second sleeps [2^-20] seconds and
    each one after it twice as long as the one before, up to [2^-10]
    seconds ([_BACKOFF_DELAY_MAX]) at the twelfth call and at every
    call from then on.  No call sleeps longer than
    [_BACKOFF_DELAY_MAX], and the delays never decrease. *)
Theorem Backoff_sleeps (n : nat) :
  let table := 0%float :: ((λ k, Z.ldexp 1 (k - 20)) <$> seqZ 0 10) in
  Backoff.sleeps n Backoff.default
  = take n table ++ replicate (n - 11) Backoff._BACKOFF_DELAY_MAX
  ∧ Forall (λ d, PrimFloat.leb 0 d && PrimFloat.leb d Backoff._BACKOFF_DELAY_MAX = true)
           (Backoff.sleeps n Backoff.default)
  ∧ ∀ (i : nat) (d d' : float),
      Backoff.sleeps n Backoff.default !! i = Some d →
      Backoff.sleeps n Backoff.default !! S i = Some d' →
      PrimFloat.leb d d' = true.
Proof.
  intros table.
  assert (Backoff.sleeps n Backoff.default
          = take n table ++ replicate (n - 11) Backoff._BACKOFF_DELAY_MAX) as Heq.
  { destruct (decide (n ≤ 11)%nat) as [Hle|Hgt].
    - replace (n - 11)%nat with 0%nat by lia. rewrite app_nil_r.
      do 12 (destruct n as [|n]; [reflexivity|]). lia.
    - replace n with (11 + (n - 11))%nat at 1 by lia.
      rewrite sleeps_add, saturated_sleeps. f_equal.
      rewrite take_ge; [reflexivity|]. simpl. lia. }
  split; [done|]. rewrite Heq. split.
  - apply Forall_app. split.
    + apply Forall_take. unfold table. repeat constructor.
    + apply Forall_replicate. reflexivity.
  - intros i d d' Hi Hi'.
    destruct (decide (S i < 11)%nat) as [Hlt|Hge].
    + assert (table !! i = Some d) as Hd.
      { destruct (decide (i < n)%nat).
        - rewrite lookup_app_l in Hi by (rewrite length_take; simpl; lia).
          by rewrite lookup_take_lt in Hi.
        - apply lookup_lt_Some in Hi. rewrite length_app, length_take, length_replicate in Hi.
          simpl in Hi. lia. }
      assert (table !! S i = Some d') as Hd'.
      { destruct (decide (S i < n)%nat).
        - rewrite lookup_app_l in Hi' by (rewrite length_take; simpl; lia).
          by rewrite lookup_take_lt in Hi'.
        - apply lookup_lt_Some in Hi'. rewrite length_app, length_take, length_replicate in Hi'.
          simpl in Hi'. lia. }
      clear Hi Hi' Heq.
      do 10 (destruct i as [|i]; [injection Hd as <-; injection Hd' as <-; reflexivity|]).
      lia.
    + assert (d' = Backoff._BACKOFF_DELAY_MAX) as ->.
      { apply lookup_lt_Some in Hi' as Hlen.
        rewrite length_app, length_take, length_replicate in Hlen. simpl in Hlen.
        rewrite lookup_app_r in Hi' by (rewrite length_take; simpl; lia).
        apply lookup_replicate in Hi' as [-> _]. done. }
      assert (Forall (λ d, PrimFloat.leb d Backoff._BACKOFF_DELAY_MAX = true)
                (take n table ++ replicate (n - 11) Backoff._BACKOFF_DELAY_MAX)) as Hall.
      { apply Forall_app. split.
        - apply Forall_take. unfold table. repeat constructor.
        - apply Forall_replicate. reflexivity. }
      rewrite Forall_lookup in Hall. by apply (Hall i).
Qed.

(** ** The lock protocol: try-lock, progress, hand-over *)

Section system_progress.
Import System.

(** While the queue is not empty [TAIL] holds a rank. *)
Lemma invariant_tail_rank (size : Z) (q : list Z) (m : memory) (pcs : Z → pc) (h : Z) :
  invariant size q m pcs → head q = Some h →
  ∃ t, m !! (Mutex.tail_rank, Mutex.tail_id) = Some t ∧ t ≠ Mutex.null_rank.
Proof.
  intros [Hnd Hrange Htail Hlink Hlast Hrank] Hh.
  destruct (last q) as [t|] eqn:Ht; [|by destruct q using rev_ind; [|rewrite last_snoc in Ht]].
  exists t. split; [done|].
  assert (t ∈ q) as Hin.
  { apply last_Some in Ht as [q' ->]. apply elem_of_app. right. constructor. }
  specialize (Hrange t Hin). pose proof PROC_NULL_neg. unfold Mutex.null_rank. lia.
Qed.

(** A process that is between calls with its [LOCK] set is the head of
    the queue. *)
Lemma invariant_holder (size : Z) (q : list Z) (st : state) (h : Z) :
  invariant size q (mem st) (pcs st) → 0 ≤ h < size →
  pcs st h = Idle → locked h st = true →
  head q = Some h ∧ mem st !! (h, Mutex.lock_id) = Some 1.
Proof.
  intros Hinv Hh Hpc Hlocked. destruct (inv_rank _ _ _ _ Hinv h Hh) as (v & Hv & Hadm & _).
  rewrite (locked_slot h st v Hv) in Hlocked. rewrite Hpc in Hadm.
  apply admits_role in Hadm as [[_ ->]|[Hhead ->]]; [done|].
  by apply role_of_Head in Hhead.
Qed.

Lemma invariant_idle_other (size : Z) (q : list Z) (st : state) (h r : Z) :
  invariant size q (mem st) (pcs st) → 0 ≤ r < size →
  head q = Some h → r ≠ h → pcs st r = Idle →
  mem st !! (r, Mutex.lock_id) = Some 0 ∧ is_Some (mem st !! (r, Mutex.next_id)).
Proof.
  intros Hinv Hr Hh Hne Hpc. destruct (inv_rank _ _ _ _ Hinv r Hr) as (v & Hv & Hadm & _ & Hn).
  rewrite Hpc in Hadm. apply admits_role in Hadm as [[_ ->]|[Hhead ->]]; [done|].
  apply role_of_Head in Hhead. congruence.
Qed.
End system_progress.

(** X22.  While a process holds the mutex (it is between calls and its
    [LOCK] is set), [TAIL] holds a rank, whatever the other processes
    are doing; so [acquire(blocking=False)] by any other process that
    is between calls, on a [Mutex] or an [RMutex], returns [False]
    after three RMA operations: the only slot of the window that may
    differ afterwards is its own [NEXT], and the lock objects, the
    recursion counts among them, are as before. *)
Theorem Mutex_try_lock_while_held (size : nat) (st : System.state) (h r : Z) :
  System.reachable size st →
  0 ≤ h < Z.of_nat size → 0 ≤ r < Z.of_nat size → r ≠ h →
  System.pcs st h = System.Idle → System.locked h st = true →
  System.pcs st r = System.Idle → System.window_ok r st = true →
  ∃ tail st',
    System.mem st !! (Mutex.tail_rank, Mutex.tail_id) = Some tail
    ∧ tail ≠ Mutex.null_rank
    ∧ System.finish 3 r (System.do_call r (System.Acquire false) st) = Some st'
    ∧ System.pcs st' r = System.Idle
    ∧ System.locked r st' = false
    ∧ System.mem st' = <[(r, Mutex.next_id) := Mutex.null_rank]> (System.mem st)
    ∧ System.locks st' = System.locks st.
Proof.
  intros Hreach Hh Hr Hne Hpch Hlocked Hpcr Hwin.
  destruct (invariant_reachable size st Hreach ltac:(lia)) as [q Hinv].
  destruct (invariant_holder _ _ _ _ Hinv Hh Hpch Hlocked) as [Hhead _].
  destruct (invariant_tail_rank _ _ _ _ _ Hinv Hhead) as (t & Ht & Htn).
  destruct (invariant_idle_other _ _ _ _ _ Hinv Hr Hhead Hne Hpcr) as [Hv [n Hn]].
  exists t. 
  assert (System.locked r st = false) as Hunl by (by rewrite (locked_slot r st 0 Hv)).
  assert (∃ k, System.do_call r (System.Acquire false) st
               = System.set_pc r (System.Acquire_next false k) st
               ∧ (k = System.By_user ∨ k = System.By_RMutex_acquire)) as (k & Hcall & Hk).
  { unfold System.do_call, System.enter_acquire. rewrite Hwin, Hunl. cbn [negb].
    destruct (System.locks st r); eexists; (split; [reflexivity|]); auto. }
  set (m1 := <[(r, Mutex.next_id) := Mutex.null_rank]> (System.mem st)).
  set (st1 := System.set_pc r (System.Acquire_tail false k) (System.set_mem m1
               (System.set_pc r (System.Acquire_next false k) st))).
  set (st2 := System.set_pc r (System.Acquire_flag false k) (System.set_mem m1 st1)).
  assert (m1 !! (r, Mutex.lock_id) = Some 0) as Hv1.
  { unfold m1. by rewrite lookup_insert_ne
      by (unfold Mutex.lock_id, Mutex.next_id; congruence). }
  assert (m1 !! (Mutex.tail_rank, Mutex.tail_id) = Some t) as Ht1.
  { unfold m1. by rewrite lookup_insert_ne
      by (unfold Mutex.tail_id, Mutex.next_id; congruence). }
  exists (System.return_acquire r false k
            (System.set_mem (<[(r, Mutex.lock_id) := Z.b2z false]> m1) st2)).
  split; [done|]. split; [done|]. split; [|split; [|split; [|split]]].
  - rewrite Hcall. rewrite finish_S by (simpl; rewrite fn_lookup_insert; done).
    rewrite (advance_acquire_next r _ false k n);
      [|simpl; by rewrite fn_lookup_insert|done].
    change (System.mem (System.set_pc r (System.Acquire_next false k) st)) with (System.mem st).
    fold m1. fold st1.
    rewrite finish_S by (unfold st1; simpl; rewrite fn_lookup_insert; done).
    rewrite (advance_acquire_tail r st1 false k t);
      [|unfold st1; simpl; by rewrite fn_lookup_insert|done].
    rewrite (bool_decide_eq_false_2 _ Htn). cbn [System.mem st1 System.set_pc System.set_mem].
    fold st1. fold st2.
    rewrite finish_S by (unfold st2; simpl; rewrite fn_lookup_insert; done).
    rewrite (advance_acquire_flag r st2 false k 0);
      [|unfold st2; simpl; by rewrite fn_lookup_insert|done].
    apply finish_Idle.
    rewrite (proj2 (return_acquire_mem_pcs _ _ _ _)). by rewrite fn_lookup_insert.
  - destruct (return_acquire_mem_pcs r false k
                (System.set_mem (<[(r, Mutex.lock_id) := Z.b2z false]> m1) st2)) as [_ ->].
    by rewrite fn_lookup_insert.
  - unfold System.locked.
    destruct (return_acquire_mem_pcs r false k
                (System.set_mem (<[(r, Mutex.lock_id) := Z.b2z false]> m1) st2)) as [-> _].
    cbn [System.mem System.set_mem]. by rewrite lookup_insert_eq.
  - destruct (return_acquire_mem_pcs r false k
                (System.set_mem (<[(r, Mutex.lock_id) := Z.b2z false]> m1) st2)) as [-> _].
    cbn [System.mem System.set_mem Z.b2z]. by apply insert_id.
  - destruct Hk as [-> | ->]; reflexivity.
Qed.

Lemma Mutex_try_lock_while_held_witness :
  let schedule :=
    [(0, System.Call (System.Acquire true)); (0, System.Advance); (0, System.Advance);
     (2, System.Call (System.Acquire true)); (2, System.Advance);
     (0, System.Advance); (2, System.Advance)] in
  let st := default (System.init 3 (λ r, bool_decide (r = 1)))
                    (System.run schedule (System.init 3 (λ r, bool_decide (r = 1)))) in
  System.pcs st 2 = System.Acquire_link 0 System.By_user
  ∧ ∃ tail st',
    System.mem st !! (Mutex.tail_rank, Mutex.tail_id) = Some tail
    ∧ tail ≠ Mutex.null_rank
    ∧ System.finish 3 1 (System.do_call 1 (System.Acquire false) st) = Some st'
    ∧ System.pcs st' 1 = System.Idle
    ∧ System.locked 1 st' = false
    ∧ System.mem st' = <[(1, Mutex.next_id) := Mutex.null_rank]> (System.mem st)
    ∧ System.locks st' = System.locks st.
Proof.
  intros schedule st.
  assert (System.run schedule (System.init 3 (λ r, bool_decide (r = 1))) = Some st) as Hrun.
  { unfold st. destruct (System.run schedule _) eqn:Heq; [done|].
    vm_compute in Heq. discriminate. }
  split; [by vm_compute|].
  apply (Mutex_try_lock_while_held 3 st 0 1).
  - apply (run_reachable_system 3 schedule (System.init 3 (λ r, bool_decide (r = 1))) st).
    + apply System.reachable_init.
    + repeat constructor; simpl; lia.
    + done.
  - lia.
  - lia.
  - lia.
  - by vm_compute.
  - by vm_compute.
  - by vm_compute.
  - by vm_compute.
Defined.

Section system_deadlock.
Import System.




End system_deadlock.



Section system_handoff.
Import System.

Lemma advance_acquire_spin (r : Z) (st : state) (k : acquire_caller) (v : Z) :
  pcs st r = Acquire_spin k →
  mem st !! (r, Mutex.lock_id) = Some v →
  advance r st
  = if bool_decide (v = 0) then set_mem (mem st) st
    else set_pc r (Acquire_flag true k) (set_mem (mem st) st).
Proof.
  intros Hpc Hv. unfold advance, rma. rewrite Hpc.
  rewrite (memoryview_Some _ _ _ _ Hv). by case_bool_decide.
Qed.

Lemma step_Advance (r : Z) (st : state) :
  pcs st r ≠ Idle → step r Advance st = Some (advance r st).
Proof. intros H. unfold step. by destruct (pcs st r). Qed.

(** The holder releases and the process linked behind it takes over. *)
Lemma handoff_run (size : Z) (q : list Z) (st : state) (h s : Z) (m : Mutex.t)
    (k : acquire_caller) :
  invariant size q (mem st) (pcs st) →
  0 ≤ h < size → 0 ≤ s < size →
  pcs st h = Idle → locked h st = true →
  window_ok h st = true → locks st h = Condition.Plain m →
  pcs st s = Acquire_spin k →
  mem st !! (h, Mutex.next_id) = Some s →
  ∃ st', run [(h, Call Release); (h, Advance); (h, Advance); (h, Advance); (h, Advance);
              (s, Advance); (s, Advance)] st = Some st'
         ∧ pcs st' s = Idle ∧ locked s st' = true
         ∧ pcs st' h = Idle ∧ locked h st' = false
         ∧ mem st' = <[(h, Mutex.lock_id) := 0]> (<[(s, Mutex.lock_id) := 1]> (mem st)).
Proof.
  intros Hinv Hh Hs Hpch Hlocked Hwin Hlock Hpcs Hnext.
  pose proof Hinv as [Hnd Hrange Htail Hlink Hlast Hrank].
  assert (s ≠ h) as Hsh by (intros ->; congruence).
  assert (s ≠ Mutex.null_rank) as Hsn
    by (pose proof PROC_NULL_neg; unfold Mutex.null_rank; lia).
  destruct (Hrank h Hh) as (vh & Hvh & Hadmh & _).
  destruct (Hrank s Hs) as (vs & Hvs & _).
  rewrite Hpch in Hadmh. rewrite (locked_slot h st vh Hvh) in Hlocked.
  apply admits_role in Hadmh as [[_ ->]|[Hhead ->]]; [done|].
  apply role_of_Head in Hhead.
  (* somebody is behind the holder, so [TAIL] is not the holder *)
  assert (default Mutex.null_rank (last q) ≠ h) as Htl.
  { intros Heq. destruct (last q) as [t|] eqn:Ht; simpl in Heq; last first.
    { pose proof PROC_NULL_neg. unfold Mutex.null_rank in *. lia. }
    subst t. pose proof (Hlast h eq_refl) as Hnull. congruence. }
  set (st0 := set_pc h (Release_tail For_user) st).
  set (st1 := set_pc h (Release_spin For_user) (set_mem (mem st0) st0)).
  set (st2 := set_pc h (Release_pass s For_user) (set_mem (mem st1) st1)).
  set (m3 := <[(s, Mutex.lock_id) := 1]> (mem st)).
  set (st3 := set_pc h (Release_flag For_user) (set_mem m3 st2)).
  set (m4 := <[(h, Mutex.lock_id) := 0]> m3).
  set (st4 := return_release h For_user (set_mem m4 st3)).
  set (st5 := set_pc s (Acquire_flag true k) (set_mem (mem st4) st4)).
  set (st6 := return_acquire s true k
                (set_mem (<[(s, Mutex.lock_id) := Z.b2z true]> (mem st5)) st5)).
  assert (do_call h Release st = st0) as E0.
  { unfold do_call, enter_release. rewrite Hlock, Hwin.
    rewrite (locked_slot h st 1 Hvh). done. }
  assert (advance h st0 = st1) as E1.
  { rewrite (advance_release_tail h st0 For_user (default Mutex.null_rank (last q)));
      [|unfold st0; simpl; by rewrite fn_lookup_insert|done].
    by rewrite bool_decide_eq_false_2. }
  assert (advance h st1 = st2) as E2.
  { rewrite (advance_release_spin h st1 For_user s);
      [|unfold st1; simpl; by rewrite fn_lookup_insert|done].
    by rewrite bool_decide_eq_false_2. }
  assert (advance h st2 = st3) as E3.
  { rewrite (advance_release_pass h st2 For_user s vs);
      [done|unfold st2; simpl; by rewrite fn_lookup_insert|done]. }
  assert (m3 !! (h, Mutex.lock_id) = Some 1) as Hm3h.
  { unfold m3. rewrite lookup_insert_ne by congruence. done. }
  assert (advance h st3 = st4) as E4.
  { rewrite (advance_release_flag h st3 For_user 1);
      [done|unfold st3; simpl; by rewrite fn_lookup_insert|done]. }
  assert (pcs st4 s = Acquire_spin k) as Hpc4.
  { unfold st4, st3, st2, st1, st0. simpl. rewrite !fn_lookup_insert_ne by done. done. }
  assert (mem st4 = m4) as Hm4 by done.
  assert (m4 !! (s, Mutex.lock_id) = Some 1) as Hm4s.
  { unfold m4, m3. rewrite lookup_insert_ne by congruence. by rewrite lookup_insert_eq. }
  assert (advance s st4 = st5) as E5.
  { rewrite (advance_acquire_spin s st4 k 1); [done|done|by rewrite Hm4]. }
  assert (advance s st5 = st6) as E6.
  { rewrite (advance_acquire_flag s st5 true k 1);
      [done|unfold st5; simpl; by rewrite fn_lookup_insert|].
    unfold st5. cbn [mem set_pc set_mem]. by rewrite Hm4. }
  exists st6. split; [|split; [|split; [|split; [|split]]]].
  - cbn [run]. unfold step at 1. rewrite Hpch, E0.
    rewrite step_Advance, E1 by (unfold st0; simpl; by rewrite fn_lookup_insert).
    rewrite step_Advance, E2 by (unfold st1; simpl; by rewrite fn_lookup_insert).
    rewrite step_Advance, E3 by (unfold st2; simpl; by rewrite fn_lookup_insert).
    rewrite step_Advance, E4 by (unfold st3; simpl; by rewrite fn_lookup_insert).
    rewrite step_Advance, E5 by (by rewrite Hpc4).
    rewrite step_Advance, E6 by (unfold st5; simpl; by rewrite fn_lookup_insert).
    done.
  - unfold st6. rewrite (proj2 (return_acquire_mem_pcs _ _ _ _)). by rewrite fn_lookup_insert.
  - unfold locked, st6. rewrite (proj1 (return_acquire_mem_pcs _ _ _ _)).
    cbn [mem set_mem]. by rewrite lookup_insert_eq.
  - unfold st6. rewrite (proj2 (return_acquire_mem_pcs _ _ _ _)).
    rewrite fn_lookup_insert_ne by done. unfold st5, st4, st3. simpl.
    rewrite fn_lookup_insert_ne by done. by rewrite fn_lookup_insert.
  - unfold locked, st6. rewrite (proj1 (return_acquire_mem_pcs _ _ _ _)).
    cbn [mem set_mem]. rewrite lookup_insert_ne by congruence.
    unfold st5. cbn [mem set_pc set_mem]. rewrite Hm4. unfold m4.
    by rewrite lookup_insert_eq.
  - unfold st6. rewrite (proj1 (return_acquire_mem_pcs _ _ _ _)).
    cbn [mem set_mem]. unfold st5. cbn [mem set_pc set_mem]. rewrite Hm4.
    cbn [Z.b2z]. by apply insert_id.
Qed.
End system_handoff.

(** X24.  The hand-over, end to end.  In a state the processes can
    reach, let [h] hold a plain mutex between calls and let [s], inside
    a blocking [acquire], have linked itself behind [h] and be polling
    its [LOCK].  Then [release] on [h] (four RMA operations) followed
    by two steps of [s] all return: the [acquire] of [s] returns
    [True], [s] holds the mutex and [h] does not; the window differs
    from before in two slots only, the [LOCK] of [s], which holds 1,
    and the [LOCK] of [h], which holds 0. *)
Theorem Mutex_handoff (size : nat) (st : System.state) (h s : Z) (m : Mutex.t)
    (k : System.acquire_caller) :
  System.reachable size st →
  0 ≤ h < Z.of_nat size → 0 ≤ s < Z.of_nat size →
  System.pcs st h = System.Idle → System.locked h st = true →
  System.locks st h = Condition.Plain m →
  System.pcs st s = System.Acquire_spin k →
  System.mem st !! (h, Mutex.next_id) = Some s →
  ∃ st', System.run [(h, System.Call System.Release); (h, System.Advance);
                     (h, System.Advance); (h, System.Advance); (h, System.Advance);
                     (s, System.Advance); (s, System.Advance)] st = Some st'
         ∧ System.pcs st' s = System.Idle ∧ System.locked s st' = true
         ∧ System.pcs st' h = System.Idle ∧ System.locked h st' = false
         ∧ System.mem st'
           = <[(h, Mutex.lock_id) := 0]> (<[(s, Mutex.lock_id) := 1]> (System.mem st)).
Proof.
  intros Hreach Hh Hs Hpch Hlocked Hlock Hpcs Hnext.
  destruct (invariant_reachable size st Hreach ltac:(lia)) as [q Hinv].
  destruct (count_invariant_reachable size st Hreach h Hh) as (v & Hv & Hwin & _).
  apply (handoff_run (Z.of_nat size) q st h s m k); try done.
  unfold System.window_ok. destruct (Win_bool _); [done|].
  destruct (Hwin eq_refl) as [_ ->]. by rewrite (locked_slot h st 0 Hv) in Hlocked.
Qed.

Lemma Mutex_handoff_witness :
  let schedule :=
    [(1, System.Call (System.Acquire true)); (1, System.Advance); (1, System.Advance);
     (1, System.Advance);
     (0, System.Call (System.Acquire true)); (0, System.Advance); (0, System.Advance);
     (0, System.Advance)] in
  let st := default (System.init 2 (λ _, false))
                    (System.run schedule (System.init 2 (λ _, false))) in
  System.advance 0 st = st
  ∧ ∃ st', System.run [(1, System.Call System.Release); (1, System.Advance);
                       (1, System.Advance); (1, System.Advance); (1, System.Advance);
                       (0, System.Advance); (0, System.Advance)] st = Some st'
           ∧ System.pcs st' 0 = System.Idle ∧ System.locked 0 st' = true
           ∧ System.pcs st' 1 = System.Idle ∧ System.locked 1 st' = false
           ∧ System.mem st'
             = <[(1, Mutex.lock_id) := 0]> (<[(0, Mutex.lock_id) := 1]> (System.mem st)).
Proof.
  intros schedule st.
  assert (System.run schedule (System.init 2 (λ _, false)) = Some st) as Hrun.
  { unfold st. destruct (System.run schedule _) eqn:Heq; [done|].
    vm_compute in Heq. discriminate. }
  split; [by vm_compute|].
  apply (Mutex_handoff 2 st 1 0 (Mutex.new 2 1) System.By_user).
  - apply (run_reachable_system 2 schedule (System.init 2 (λ _, false)) st).
    + apply System.reachable_init.
    + repeat constructor; simpl; lia.
    + done.
  - lia.
  - lia.
  - by vm_compute.
  - by vm_compute.
  - by vm_compute.
  - by vm_compute.
  - by vm_compute.
Defined.

(** ** The lock protocol: first come, first served *)

Section system_fifo.
Import System.

(** The queue after a step of process [r]. *)
Lemma invariant_advance_queue (size : Z) (q : list Z) (st : state) (r : Z) :
  invariant size q (mem st) (pcs st) →
  0 ≤ r < size →
  invariant size
    (match pcs st r with
     | Acquire_tail blocking _ => if blocking || bool_decide (q = []) then q ++ [r] else q
     | Release_tail _ => if bool_decide (q = [r]) then [] else q
     | Release_pass _ _ => tail q
     | _ => q
     end)
    (mem (advance r st)) (pcs (advance r st)).
Proof.
  intros Hinv Hr. pose proof Hinv as [Hnd Hrange Htail Hlink Hlast Hrank].
  destruct (Hrank r Hr) as (v & Hv & Hadm & Hext & [n Hn]).
  assert (default Mutex.null_rank (last q) = Mutex.null_rank ↔ q = []) as Hnull.
  { split; [|by intros ->]. destruct (last q) as [t|] eqn:Ht; simpl.
    - intros ->. assert (Mutex.null_rank ∈ q) as Hin.
      { apply last_Some in Ht as [q' ->]. apply elem_of_app. right. constructor. }
      specialize (Hrange _ Hin). pose proof PROC_NULL_neg. unfold Mutex.null_rank in *. lia.
    - intros _. destruct q using rev_ind; [done|]. by rewrite last_snoc in Ht. }
  unfold advance. destruct (pcs st r) as
    [|blocking k|blocking k|prev k|k|locked k|k|k|s k|k|saved] eqn:Hpc.
  - done.
  - (* Acquire_next *)
    unfold rma. rewrite (Accumulate_REPLACE_Some _ _ _ _ _ Hn). simpl.
    by apply invariant_acquire_next.
  - (* Acquire_tail *)
    pose proof (invariant_acquire_tail size q (mem st) (pcs st) r blocking k Hinv Hr Hpc)
      as Hswap. cbv zeta in Hswap.
    unfold rma. destruct blocking; cbn [orb].
    + rewrite (Fetch_and_op_REPLACE_Some _ _ _ _ _ Htail).
      case_bool_decide; simpl; done.
    + rewrite (Compare_and_swap_Some _ _ _ _ _ _ Htail).
      case_bool_decide as Hprev; simpl.
      * rewrite bool_decide_eq_true_2 by (by apply Hnull). done.
      * rewrite bool_decide_eq_false_2 by (by rewrite <- Hnull).
        apply invariant_pc; [done| |].
        -- apply admits_role in Hadm as [-> _]. done.
        -- exists v. rewrite fn_lookup_insert. apply admits_role in Hadm as [-> ->].
           split; [done|]. split; [done|]. split; [done|]. by eexists.
  - (* Acquire_link *)
    destruct (invariant_acquire_link size q (mem st) (pcs st) r prev k Hinv Hr Hpc)
      as [[old Hold] Hinv'].
    unfold rma. rewrite (Accumulate_REPLACE_Some _ _ _ _ _ Hold). done.
  - (* Acquire_spin *)
    unfold rma. rewrite (memoryview_Some _ _ _ _ Hv).
    case_bool_decide as H0; simpl; [done|].
    apply admits_role in Hadm as [[Hhead ->]|[_ ?]]; [|done].
    apply invariant_pc; [done|congruence|].
    exists 1. rewrite fn_lookup_insert. rewrite Hhead.
    split; [done|]. split; [by right|]. split; [done|]. by eexists.
  - (* Acquire_flag *)
    unfold rma. rewrite (Accumulate_REPLACE_Some _ _ _ _ _ Hv).
    destruct (return_acquire_mem_pcs r locked k
                (set_mem (<[(r, Mutex.lock_id) := Z.b2z locked]> (mem st)) st)) as [-> ->].
    by apply (invariant_acquire_flag size q (mem st) (pcs st) r locked k).
  - (* Release_tail *)
    apply admits_role in Hadm as [Hhead ->]. apply role_of_Head in Hhead.
    unfold rma. rewrite (Compare_and_swap_Some _ _ _ _ _ _ Htail).
    destruct (decide (q = [r])) as [Hq|Hq].
    + rewrite (bool_decide_eq_true_2 (q = [r])) by done.
      assert (default Mutex.null_rank (last q) = r) as Hprev by (by rewrite Hq).
      rewrite bool_decide_eq_true_2 by done. simpl.
      apply (invariant_release_tail size q); try done. by rewrite Htail, Hprev.
    + rewrite (bool_decide_eq_false_2 (q = [r])) by done.
      assert (default Mutex.null_rank (last q) ≠ r) as Hprev.
      { intros Hprev. apply Hq. apply head_last_singleton; [done|done|].
        destruct (last q) as [t|] eqn:Ht; simpl in Hprev; [by subst|].
        exfalso. pose proof PROC_NULL_neg. unfold Mutex.null_rank in *. lia. }
      rewrite bool_decide_eq_false_2 by done. simpl.
      apply invariant_pc; [done| |].
      * apply role_of_Head in Hhead. congruence.
      * exists 1. rewrite fn_lookup_insert.
        apply role_of_Head in Hhead. rewrite Hhead.
        split; [done|]. split; [done|]. split; [|by eexists]. simpl.
        apply role_of_Head in Hhead.
        destruct q as [|x [|y q2]]; simpl in *; [done| |lia].
        simplify_eq.
  - (* Release_spin *)
    apply admits_role in Hadm as [Hhead ->]. simpl in Hext.
    unfold rma. rewrite (memoryview_Some _ _ _ _ Hn).
    case_bool_decide as Hnul; simpl; [done|].
    apply invariant_pc; [done|congruence|].
    exists 1. rewrite fn_lookup_insert. rewrite Hhead.
    split; [done|]. split; [done|]. split; [|by eexists]. simpl.
    apply role_of_Head in Hhead.
    destruct q as [|x [|y q2]]; simpl in *; [done|lia|]. simplify_eq.
    destruct (Hlink 0%nat r y eq_refl eq_refl) as [[Hy _]|[Hy _]];
      rewrite Hn in Hy; injection Hy as ->; done.
  - (* Release_pass *)
    destruct (invariant_release_pass size q (mem st) (pcs st) r s k Hinv Hr Hpc)
      as [[old Hold] Hinv'].
    unfold rma. rewrite (Accumulate_REPLACE_Some _ _ _ _ _ Hold). done.
  - (* Release_flag *)
    unfold rma. rewrite (Accumulate_REPLACE_Some _ _ _ _ _ Hv).
    destruct (return_release_mem_pcs r k
                (set_mem (<[(r, Mutex.lock_id) := 0]> (mem st)) st))
      as (-> & p' & -> & Hp').
    by apply (invariant_release_flag size q (mem st) (pcs st) r k p').
  - (* Saved *)
    apply admits_role in Hadm as [Hout ->].
    apply invariant_enter_acquire; [|done|by simpl; rewrite fn_lookup_insert].
    simpl. apply invariant_pc; [done|congruence|].
    exists 0. rewrite fn_lookup_insert. rewrite Hout.
    split; [done|]. split; [done|]. split; [done|]. by eexists.
Qed.

Lemma holder_other (q : list Z) (pcs pcs' : Z → pc) (r : Z) :
  head q ≠ Some r → (∀ j, j ≠ r → pcs' j = pcs j) → holder q pcs' = holder q pcs.
Proof.
  unfold holder. destruct (head q) as [h|]; [|done]. intros Hne Hag.
  rewrite Hag; [done|congruence].
Qed.

Lemma holder_head (q : list Z) (pcs : Z → pc) (r : Z) :
  head q = Some r → holder q pcs = if holding (pcs r) then [r] else [].
Proof. unfold holder. by intros ->. Qed.

Lemma do_call_pc (r : Z) (c : call) (st : state) :
  pcs (do_call r c st) r = pcs st r
  ∨ (∃ blocking k, pcs (do_call r c st) r = Acquire_next blocking k)
  ∨ (∃ k, pcs (do_call r c st) r = Release_tail k).
Proof.
  unfold do_call, enter_acquire, enter_release, null_window, set_count, set_lock, set_pc.
  repeat match goal with
         | |- context [match ?x with _ => _ end] =>
             lazymatch x with
             | context [match _ with _ => _ end] => fail
             | _ => destruct x eqn:?
             end
         end; simpl; rewrite ?fn_lookup_insert; eauto.
Qed.

(** What a step does to the queue, to the two records and to the
    process that holds the lock: nothing; or the process arrives at the
    back; or the process, at the head, is served; or the process, at
    the head and served, leaves. *)
Lemma step_cases (size : Z) (q : list Z) (st st' : state) (r : Z) (e : event) :
  invariant size q (mem st) (pcs st) →
  0 ≤ r < size →
  step r e st = Some st' →
  ∃ q', invariant size q' (mem st') (pcs st')
        ∧ ((q' = q ∧ arrives r e st = false ∧ served r e st = false
            ∧ holder q' (pcs st') = holder q (pcs st))
           ∨ (q' = q ++ [r] ∧ arrives r e st = true ∧ served r e st = false
              ∧ holder q' (pcs st') = holder q (pcs st))
           ∨ (q' = q ∧ arrives r e st = false ∧ served r e st = true
              ∧ holder q (pcs st) = [] ∧ holder q' (pcs st') = [r])
           ∨ (q = r :: q' ∧ arrives r e st = false ∧ served r e st = false
              ∧ holder q (pcs st) = [r] ∧ holder q' (pcs st') = [])).
Proof.
  intros Hinv Hr Hstep. pose proof Hinv as [Hnd Hrange Htail Hlink Hlast Hrank].
  destruct (Hrank r Hr) as (v & Hv & Hadm & Hext & [n Hn]).
  assert (∀ j, j ≠ r → pcs (advance r st) j = pcs st j) as Hother
    by (intros j Hj; by destruct (advance_other r j st Hj) as [-> _]).
  assert (default Mutex.null_rank (last q) = Mutex.null_rank ↔ q = []) as Hnull.
  { split; [|by intros ->]. destruct (last q) as [t|] eqn:Ht; simpl.
    - intros ->. assert (Mutex.null_rank ∈ q) as Hin.
      { apply last_Some in Ht as [q' ->]. apply elem_of_app. right. constructor. }
      specialize (Hrange _ Hin). pose proof PROC_NULL_neg. unfold Mutex.null_rank in *. lia.
    - intros _. destruct q using rev_ind; [done|]. by rewrite last_snoc in Ht. }
  unfold step in Hstep. destruct e as [c|].
  - (* a call *)
    destruct (pcs st r) eqn:Hpc; try done. injection Hstep as <-.
    exists q. split; [by apply invariant_do_call|]. left.
    split; [done|]. split; [done|]. split; [done|].
    destruct (decide (head q = Some r)) as [Hhead|Hhead].
    + rewrite !(holder_head q _ r Hhead). rewrite Hpc. cbn [holding].
      pose proof (invariant_do_call size q st r c Hinv Hr Hpc) as Hinv'.
      destruct (inv_rank _ _ _ _ Hinv' r Hr) as (v' & _ & Hadm' & _).
      apply role_of_Head in Hhead. rewrite Hhead in Hadm'.
      destruct (do_call_pc r c st) as [Heq|[(b & k & Heq)|(k & Heq)]]; rewrite Heq in *.
      * by rewrite Hpc.
      * done.
      * done.
    + apply (holder_other q _ _ r Hhead). intros j Hj.
      by destruct (do_call_other r j c st Hj) as (_ & -> & _).
  - (* a step of a call *)
    destruct (pcs st r) as
      [|blocking k|blocking k|prev k|k|locked k|k|k|s k|k|saved] eqn:Hpc; try done.
    all: injection Hstep as <-.
    all: pose proof (invariant_advance_queue size q st r Hinv Hr) as Hinv'; rewrite Hpc in Hinv'.
    all: unfold arrives, served; rewrite Hpc.
    + (* Acquire_next *)
      exists q. split; [done|]. left. split; [done|]. split; [done|]. split; [done|].
      apply (holder_other q _ _ r); [|done].
      apply admits_role in Hadm as [Hout _]. apply role_of_Out in Hout.
      intros Hh. apply Hout. destruct q; simplify_eq/=. set_solver.
    + (* Acquire_tail *)
      rewrite Htail.
      assert (head q ≠ Some r) as Hnh.
      { apply admits_role in Hadm as [Hout _]. apply role_of_Out in Hout.
        intros Hh. apply Hout. destruct q; simplify_eq/=. set_solver. }
      destruct (blocking || bool_decide (q = [])) eqn:Hin.
      * exists (q ++ [r]). split; [done|]. right. left.
        split; [done|]. split.
        { destruct blocking; [done|]. cbn [orb] in *. apply bool_decide_eq_true in Hin.
          apply bool_decide_eq_true. by apply Hnull. }
        split; [done|].
        destruct q as [|h q'].
        -- (* the queue was empty: the process is its head, not served yet *)
           unfold holder at 2. cbn [head]. rewrite (holder_head _ _ r) by done.
           assert (pcs (advance r st) r = Acquire_flag true k) as ->; [|done].
           unfold advance, rma. rewrite Hpc. simpl in Htail.
           destruct blocking.
           ++ rewrite (Fetch_and_op_REPLACE_Some _ _ _ _ _ Htail).
              rewrite bool_decide_eq_true_2 by done. simpl. by rewrite fn_lookup_insert.
           ++ rewrite (Compare_and_swap_Some _ _ _ _ _ _ Htail).
              rewrite bool_decide_eq_true_2 by done. simpl. by rewrite fn_lookup_insert.
        -- unfold holder. cbn [app head]. rewrite Hother; [done|]. simpl in Hnh. congruence.
      * exists q. split; [done|]. left.
        split; [done|]. split.
        { destruct blocking; [done|]. cbn [orb] in *. apply bool_decide_eq_false in Hin.
          apply bool_decide_eq_false. by rewrite Hnull. }
        split; [done|]. by apply (holder_other q _ _ r).
    + (* Acquire_link *)
      exists q. split; [done|]. left. split; [done|]. split; [done|]. split; [done|].
      apply (holder_other q _ _ r); [|done].
      apply admits_role in Hadm as [Hw _]. apply role_of_Waiting in Hw as [_ Hw]. done.
    + (* Acquire_spin *)
      exists q. split; [done|]. left. split; [done|]. split; [done|]. split; [done|].
      destruct (decide (head q = Some r)) as [Hhead|Hhead];
        [|by apply (holder_other q _ _ r)].
      rewrite !(holder_head q _ r Hhead). rewrite Hpc. cbn [holding].
      assert (holding (pcs (advance r st) r) = false) as ->; [|done].
      unfold advance, rma. rewrite Hpc, (memoryview_Some _ _ _ _ Hv).
      case_bool_decide; simpl; [by rewrite Hpc|by rewrite fn_lookup_insert].
    + (* Acquire_flag *)
      exists q. split; [done|].
      assert (pcs (advance r st) r = Idle) as Hidle.
      { unfold advance, rma. rewrite Hpc, (Accumulate_REPLACE_Some _ _ _ _ _ Hv).
        rewrite (proj2 (return_acquire_mem_pcs _ _ _ _)). by rewrite fn_lookup_insert. }
      destruct locked.
      * apply admits_role in Hadm as [Hhead _]. apply role_of_Head in Hhead.
        right. right. left. split; [done|]. split; [done|]. split; [done|].
        rewrite !(holder_head q _ r Hhead). by rewrite Hpc, Hidle.
      * left. split; [done|]. split; [done|]. split; [done|].
        apply (holder_other q _ _ r); [|done].
        apply admits_role in Hadm as [Hout _]. apply role_of_Out in Hout.
        intros Hh. apply Hout. destruct q; simplify_eq/=. set_solver.
    + (* Release_tail *)
      apply admits_role in Hadm as [Hhead ->]. apply role_of_Head in Hhead.
      case_bool_decide as Hq.
      * exists []. split; [done|]. right. right. right.
        split; [done|]. split; [done|]. split; [done|]. split; [|done].
        rewrite (holder_head q _ r Hhead). by rewrite Hpc.
      * exists q. split; [done|]. left. split; [done|]. split; [done|]. split; [done|].
        rewrite !(holder_head q _ r Hhead). rewrite Hpc. cbn [holding].
        assert (pcs (advance r st) r = Release_spin k) as ->; [|done].
        unfold advance, rma. rewrite Hpc, (Compare_and_swap_Some _ _ _ _ _ _ Htail).
        rewrite bool_decide_eq_false_2; [simpl; by rewrite fn_lookup_insert|].
        intros Hprev. apply Hq. apply head_last_singleton; [done|done|].
        destruct (last q) as [t|] eqn:Ht; simpl in Hprev; [by subst|].
        exfalso. pose proof PROC_NULL_neg. unfold Mutex.null_rank in *. lia.
    + (* Release_spin *)
      apply admits_role in Hadm as [Hhead ->]. apply role_of_Head in Hhead.
      exists q. split; [done|]. left. split; [done|]. split; [done|]. split; [done|].
      rewrite !(holder_head q _ r Hhead). rewrite Hpc. cbn [holding].
      assert (holding (pcs (advance r st) r) = true) as ->; [|done].
      unfold advance, rma. rewrite Hpc, (memoryview_Some _ _ _ _ Hn).
      case_bool_decide; simpl; [by rewrite Hpc|by rewrite fn_lookup_insert].
    + (* Release_pass *)
      destruct (release_pass_target size q (mem st) (pcs st) r s k Hinv Hr Hpc)
        as (Hsr & Hs & k' & Hpcs).
      apply admits_role in Hadm as [Hhead ->]. apply role_of_Head in Hhead.
      destruct Hext as [Hq1 _].
      destruct q as [|x [|y q2]]; simplify_eq/=.
      exists (s :: q2). split; [done|]. right. right. right.
      split; [done|]. split; [done|]. split; [done|]. split.
      * unfold holder. cbn [head]. by rewrite Hpc.
      * unfold holder. cbn [head]. rewrite Hother by done. by rewrite Hpcs.
    + (* Release_flag *)
      exists q. split; [done|]. left. split; [done|]. split; [done|]. split; [done|].
      apply (holder_other q _ _ r); [|done].
      apply admits_role in Hadm as [Hout _]. apply role_of_Out in Hout.
      intros Hh. apply Hout. destruct q; simplify_eq/=. set_solver.
    + (* Saved *)
      exists q. split; [done|]. left. split; [done|]. split; [done|]. split; [done|].
      apply (holder_other q _ _ r); [|done].
      apply admits_role in Hadm as [Hout _]. apply role_of_Out in Hout.
      intros Hh. apply Hout. destruct q; simplify_eq/=. set_solver.
Qed.

(** The two records along a run: the processes that have arrived are
    those that have left the queue, in the order in which they left,
    followed by the queue; the processes served are those that have
    left followed by the holder, if there is one. *)
Lemma records_run (size : Z) (schedule : list (Z * event)) : ∀ (st : state) (q out : list Z),
  invariant size q (mem st) (pcs st) →
  Forall (λ re, 0 ≤ re.1 < size) schedule →
  ∃ q' out' pcs',
    out ++ q ++ record arrives schedule st = out' ++ q'
    ∧ out ++ holder q (pcs st) ++ record served schedule st = out' ++ holder q' pcs'.
Proof.
  induction schedule as [|[r e] rest IH]; intros st q out Hinv Hall.
  - exists q, out, (pcs st). by rewrite !app_nil_r.
  - apply Forall_cons in Hall as [Hr Hrest]. cbn [fst] in Hr. cbn [record].
    destruct (step r e st) as [st'|] eqn:Hstep; last first.
    { exists q, out, (pcs st). by rewrite !app_nil_r. }
    destruct (step_cases size q st st' r e Hinv Hr Hstep)
      as (q1 & Hinv1 & [(-> & -> & -> & Hh)|[(-> & -> & -> & Hh)|[(-> & -> & -> & Hh0 & Hh1)
                                                      |(-> & -> & -> & Hh0 & Hh1)]]]).
    + destruct (IH st' q out Hinv1 Hrest) as (q' & out' & pcs' & HE & HS).
      exists q', out', pcs'. cbn [app]. rewrite <- Hh. done.
    + destruct (IH st' (q ++ [r]) out Hinv1 Hrest) as (q' & out' & pcs' & HE & HS).
      exists q', out', pcs'. cbn [app]. rewrite <- Hh. split; [|done].
      rewrite <- HE. by rewrite <- !app_assoc.
    + destruct (IH st' q out Hinv1 Hrest) as (q' & out' & pcs' & HE & HS).
      exists q', out', pcs'. cbn [app]. split; [done|].
      rewrite Hh0. rewrite Hh1 in HS. done.
    + destruct (IH st' q1 (out ++ [r]) Hinv1 Hrest) as (q' & out' & pcs' & HE & HS).
      exists q', out', pcs'. cbn [app]. rewrite Hh0. rewrite Hh1 in HS.
      rewrite <- !app_assoc in HE, HS. done.
Qed.
End system_fifo.

(** X25.  First come, first served.  Along every run of the lock
    protocol, with blocking and non-blocking [acquire], [release],
    [free] and the release and re-acquisition of [Condition.wait], on
    [Mutex] and [RMutex] objects alike, the processes are served in
    the order in which they arrived: the list of the processes whose
    [Mutex.acquire] has returned [True], in the order of these
    returns, is a prefix of the list of the processes that have put
    themselves into [TAIL], in the order in which they did.  Nobody
    overtakes, and nobody is served twice for one arrival. *)
Theorem Mutex_first_come_first_served (size : nat) (recursive : Z → bool)
    (schedule : list (Z * System.event)) :
  (0 < size)%nat →
  Forall (λ re, 0 ≤ re.1 < Z.of_nat size) schedule →
  System.record System.served schedule (System.init size recursive)
  `prefix_of` System.record System.arrives schedule (System.init size recursive).
Proof.
  intros Hsize Hall.
  destruct (records_run (Z.of_nat size) schedule (System.init size recursive) [] []
              (invariant_init size recursive Hsize) Hall) as (q' & out' & pcs' & HE & HS).
  cbn [app System.holder head] in HE, HS. rewrite HE, HS.
  apply prefix_app. unfold System.holder.
  destruct q' as [|h q']; [apply prefix_nil|]. cbn [head].
  destruct (System.holding (pcs' h)); [|apply prefix_nil].
  by apply (prefix_cons h [] q'), prefix_nil.
Qed.

Lemma Mutex_first_come_first_served_witness :
  let schedule :=
    [(1, System.Call (System.Acquire true)); (1, System.Advance); (1, System.Advance);
     (2, System.Call (System.Acquire true)); (2, System.Advance); (2, System.Advance);
     (0, System.Call (System.Acquire true)); (0, System.Advance); (0, System.Advance);
     (0, System.Advance); (2, System.Advance); (1, System.Advance);
     (1, System.Call System.Release); (1, System.Advance); (1, System.Advance);
     (1, System.Advance); (2, System.Advance); (2, System.Advance)] in
  System.record System.arrives schedule (System.init 3 (λ _, false)) = [1; 2; 0]
  ∧ System.record System.served schedule (System.init 3 (λ _, false)) = [1; 2]
  ∧ System.record System.served schedule (System.init 3 (λ _, false))
    `prefix_of` System.record System.arrives schedule (System.init 3 (λ _, false)).
Proof.
  intros schedule. split; [by vm_compute|]. split; [by vm_compute|].
  apply (Mutex_first_come_first_served 3 (λ _, false) schedule).
  - lia.
  - repeat constructor; simpl; lia.
Defined.

(** ** The lock protocol: the targets of the remote operations *)

Section system_targets.
Import System.

(** The process a waiter is about to link itself behind is the one
    before it in the queue. *)
Lemma acquire_link_target (size : Z) (q : list Z) (m : memory) (pcs : Z → pc)
    (r prev : Z) (k : acquire_caller) :
  invariant size q m pcs →
  0 ≤ r < size →
  pcs r = Acquire_link prev k →
  prev ≠ r ∧ 0 ≤ prev < size ∧ m !! (prev, Mutex.next_id) = Some Mutex.null_rank.
Proof.
  intros [Hnd Hrange Htail Hlink Hlast Hrank] Hr Hpc.
  destruct (Hrank r Hr) as (v & Hv & Hadm & _).
  rewrite Hpc in Hadm. apply admits_role in Hadm as [Hw _].
  destruct (Waiting_predecessor q r Hw) as (i & a & Ha & Hb).
  destruct (Hlink i a r Ha Hb) as [[_ [k' Hspin]]|[Hnull [k' Hl]]]; [congruence|].
  rewrite Hpc in Hl. injection Hl as -> _.
  split; [|split; [|done]].
  - intros ->. pose proof (proj1 (NoDup_alt q) Hnd _ _ _ Ha Hb). lia.
  - apply Hrange. by apply list_elem_of_lookup_2 in Ha.
Qed.
End system_targets.

(** X26.  The protocol never addresses a process that is not there.
    In every state the processes can reach, the rank a waiter is about
    to write itself behind ([prev[0]] in [acquire]) and the rank a
    releaser is about to pass the lock to ([next_rank] in [release])
    are ranks of the communicator, other than the caller, and never
    [null_rank]; the process passed to is spinning on its [LOCK], and
    the slots the next RMA operation of any process reads or writes,
    its own [LOCK] and [NEXT], the [TAIL] and those of the target,
    exist in the window. *)
Theorem Mutex_targets_valid (size : nat) (st : System.state) (r : Z) :
  System.reachable size st →
  0 ≤ r < Z.of_nat size →
  is_Some (System.mem st !! (r, Mutex.lock_id))
  ∧ is_Some (System.mem st !! (r, Mutex.next_id))
  ∧ is_Some (System.mem st !! (Mutex.tail_rank, Mutex.tail_id))
  ∧ match System.pcs st r with
    | System.Acquire_link prev _ =>
        0 ≤ prev < Z.of_nat size ∧ prev ≠ r ∧ prev ≠ Mutex.null_rank
        ∧ System.mem st !! (prev, Mutex.next_id) = Some Mutex.null_rank
    | System.Release_pass next_rank _ =>
        0 ≤ next_rank < Z.of_nat size ∧ next_rank ≠ r ∧ next_rank ≠ Mutex.null_rank
        ∧ is_Some (System.mem st !! (next_rank, Mutex.lock_id))
        ∧ ∃ k, System.pcs st next_rank = System.Acquire_spin k
    | _ => True
    end.
Proof.
  intros Hreach Hr.
  destruct (invariant_reachable size st Hreach ltac:(lia)) as [q Hinv].
  destruct (System.inv_rank _ _ _ _ Hinv r Hr) as (v & Hv & _ & _ & Hn).
  split; [by eexists|]. split; [done|]. split.
  { rewrite (System.inv_tail _ _ _ _ Hinv). by eexists. }
  pose proof PROC_NULL_neg as Hneg.
  destruct (System.pcs st r) as
    [|blocking k|blocking k|prev k|k|locked k|k|k|s k|k|saved] eqn:Hpc; try done.
  - destruct (acquire_link_target _ q _ _ r prev k Hinv Hr Hpc) as (Hne & Hp & Hnull).
    split; [done|]. split; [done|]. split; [unfold Mutex.null_rank; lia|done].
  - destruct (release_pass_target _ q _ _ r s k Hinv Hr Hpc) as (Hne & Hs & Hspin).
    split; [done|]. split; [done|]. split; [unfold Mutex.null_rank; lia|]. split; [|done].
    destruct (System.inv_rank _ _ _ _ Hinv s Hs) as (vs & Hvs & _). by eexists.
Qed.

Lemma Mutex_targets_valid_witness :
  let schedule :=
    [(0, System.Call (System.Acquire true)); (0, System.Advance); (0, System.Advance);
     (2, System.Call (System.Acquire true)); (2, System.Advance); (2, System.Advance)] in
  let st := default (System.init 3 (λ _, false))
                    (System.run schedule (System.init 3 (λ _, false))) in
  System.pcs st 2 = System.Acquire_link 0 System.By_user
  ∧ is_Some (System.mem st !! (2, Mutex.lock_id))
  ∧ is_Some (System.mem st !! (2, Mutex.next_id))
  ∧ is_Some (System.mem st !! (Mutex.tail_rank, Mutex.tail_id))
  ∧ match System.pcs st 2 with
    | System.Acquire_link prev _ =>
        0 ≤ prev < Z.of_nat 3 ∧ prev ≠ 2 ∧ prev ≠ Mutex.null_rank
        ∧ System.mem st !! (prev, Mutex.next_id) = Some Mutex.null_rank
    | System.Release_pass next_rank _ =>
        0 ≤ next_rank < Z.of_nat 3 ∧ next_rank ≠ 2 ∧ next_rank ≠ Mutex.null_rank
        ∧ is_Some (System.mem st !! (next_rank, Mutex.lock_id))
        ∧ ∃ k, System.pcs st next_rank = System.Acquire_spin k
    | _ => True
    end.
Proof.
  intros schedule st.
  assert (System.run schedule (System.init 3 (λ _, false)) = Some st) as Hrun.
  { unfold st. destruct (System.run schedule _) eqn:Heq; [done|].
    vm_compute in Heq. discriminate. }
  split; [by vm_compute|].
  apply (Mutex_targets_valid 3 st 2).
  - apply (run_reachable_system 3 schedule (System.init 3 (λ _, false)) st).
    + apply System.reachable_init.
    + repeat constructor; simpl; lia.
    + done.
  - lia.
Defined.
